(** * Spotify-Playlist-AI: the AI playlist pipeline of the server's AI routes

    A shallow embedding of the track-collection and scoring pipeline
    (processing-mode catalogue, time estimator, genre matcher, prompt
    analyzer, scorer, collector, progress tracker and the generate-playlist
    route), with the properties of the specification stated and proved on it.

    Conventions of the embedding.
    - A JavaScript [number] that counts something (tracks, playlists, a
      popularity, milliseconds) is a [Z] or an [N]; a [number] that carries a
      fraction (seconds, scores, audio features) is an exact rational [Q]:
      the arithmetic is the code's, without the rounding of IEEE doubles.
    - A value that may be absent ([undefined] or [null]) is an [option].
    - A [Record<string, T>] or [Map<string, T>] read by key is a
      [gmap string T]; a [Map] whose order of insertion matters is a list
      of entries.
    - Strings are [string]; [toLowerCase] maps the letters A-Z.
    - The objects of the catalogue and of the language model have the
      fields their documentation gives them, with the types given there.
    - An asynchronous function is a program: a tree of calls to the
      outside, with [throw] and [try]/[catch].  The lines written with
      [console.log] and [console.warn] and the waits between requests are
      left out; the lines written with [console.error] that can be reached
      are calls. *)

From Stdlib Require Import ZArith QArith Qround Qabs Qminmax String Ascii List Sorted Lia Lqa.
From stdpp Require Import base option list gmap strings pretty.

Local Open Scope string_scope.
Local Open Scope list_scope.
Local Open Scope Z_scope.

(** ** Processing modes (PROCESSING_CONFIGS) *)

Inductive ProcessingMode := quick | standard | comprehensive | complete.

Record ProcessingConfig := {
  maxTracksPerPlaylist : Z;   (* 0 means unlimited *)
  maxPlaylists : Z;
  useAudioFeatures : bool;
  fetchAllPages : bool;
  requestDelay : Z;
  prioritizeByRelevance : bool;
  targetPoolSize : Z
}.

Definition PROCESSING_CONFIGS (mode : ProcessingMode) : ProcessingConfig :=
  match mode with
  | quick =>
      {| maxTracksPerPlaylist := 30; maxPlaylists := 5;
         useAudioFeatures := true; fetchAllPages := false;
         requestDelay := 50; prioritizeByRelevance := true;
         targetPoolSize := 200 |}
  | standard =>
      {| maxTracksPerPlaylist := 50; maxPlaylists := 10;
         useAudioFeatures := true; fetchAllPages := false;
         requestDelay := 100; prioritizeByRelevance := true;
         targetPoolSize := 500 |}
  | comprehensive =>
      {| maxTracksPerPlaylist := 100; maxPlaylists := 20;
         useAudioFeatures := true; fetchAllPages := true;
         requestDelay := 150; prioritizeByRelevance := true;
         targetPoolSize := 1000 |}
  | complete =>
      {| maxTracksPerPlaylist := 0; maxPlaylists := 50;
         useAudioFeatures := true; fetchAllPages := true;
         requestDelay := 200; prioritizeByRelevance := false;
         targetPoolSize := 5000 |}
  end.

(** ** Source selection *)

Record PlaylistSources := {
  useLikedSongs : bool;
  useTopTracks : bool;
  useRecommendations : bool;
  playlists : list string
}.

(** ** estimateProcessingTime *)

Inductive WarningLevel := low | medium | high.

Record Estimate := {
  estimatedSeconds : Z;
  warningLevel : WarningLevel
}.

(** [x > y] on rationals, as a boolean. *)
Definition Qgtb (x y : Q) : bool := negb (Qle_bool x y).

(** [playlistSizes[playlistId] || 50]: an unknown size and a size of 0 are
    both falsy.  The sizes are the track totals the catalogue reports. *)
Definition playlistSizeOr50 (playlistSizes : gmap string N) (playlistId : string) : Z :=
  match playlistSizes !! playlistId with
  | Some n => if (n =? 0)%N then 50 else Z.of_N n
  | None => 50
  end.

Definition tracksToProcess (config : ProcessingConfig)
    (playlistSizes : gmap string N) (playlistId : string) : Z :=
  let playlistSize := playlistSizeOr50 playlistSizes playlistId in
  if maxTracksPerPlaylist config =? 0
  then playlistSize
  else Z.min playlistSize (maxTracksPerPlaylist config).

(** The [for (const playlistId of sources.playlists)] loop. *)
Definition totalEstimatedTracks (config : ProcessingConfig)
    (playlistSizes : gmap string N) (ids : list string) : Z :=
  fold_left (fun total playlistId =>
               total + tracksToProcess config playlistSizes playlistId) ids 0.

Definition playlistTime (config : ProcessingConfig)
    (playlistSizes : gmap string N) (ids : list string) : Q :=
  match ids with
  | [] => 0%Q
  | _ =>
      let total := inject_Z (totalEstimatedTracks config playlistSizes ids) in
      ((if fetchAllPages config then (total / 100) * 2 else 0)
       + total * (5 # 100))%Q
  end.

Definition audioFeaturesTime (config : ProcessingConfig) : Q :=
  if useAudioFeatures config
  then (inject_Z (Z.min (targetPoolSize config) 500) * (2 # 100))%Q
  else 0%Q.

(** The sum before rounding: [baseTime + likedSongsTime + topTracksTime +
    recommendationsTime + playlistTime + audioFeaturesTime]. *)
Definition estimatedSecondsRaw (sources : PlaylistSources)
    (processingMode : ProcessingMode) (playlistSizes : gmap string N) : Q :=
  let config := PROCESSING_CONFIGS processingMode in
  let baseTime := 5%Q in
  let likedSongsTime := if useLikedSongs sources then 5%Q else 0%Q in
  let topTracksTime := if useTopTracks sources then 3%Q else 0%Q in
  let recommendationsTime := if useRecommendations sources then 5%Q else 0%Q in
  (baseTime + likedSongsTime + topTracksTime + recommendationsTime
   + playlistTime config playlistSizes (playlists sources)
   + audioFeaturesTime config)%Q.

Definition warningLevelOf (seconds : Q) : WarningLevel :=
  let level := low in
  let level := if Qgtb seconds 60 then medium else level in
  let level := if Qgtb seconds 180 then high else level in
  level.

Definition estimateProcessingTime (sources : PlaylistSources)
    (processingMode : ProcessingMode) (playlistSizes : gmap string N) : Estimate :=
  let seconds := estimatedSecondsRaw sources processingMode playlistSizes in
  {| estimatedSeconds := Qceiling seconds;
     warningLevel := warningLevelOf seconds |}.


(** ** Strings: [toLowerCase] and [includes] *)

Definition lowerAscii (c : ascii) : ascii :=
  let n := nat_of_ascii c in
  if ((65 <=? n)%nat && (n <=? 90)%nat)%bool then ascii_of_nat (n + 32) else c.

Fixpoint toLowerCase (s : string) : string :=
  match s with
  | EmptyString => EmptyString
  | String c s' => String (lowerAscii c) (toLowerCase s')
  end.

(** [startsWith s needle]. *)
Fixpoint startsWith (s needle : string) : bool :=
  match needle, s with
  | EmptyString, _ => true
  | String _ _, EmptyString => false
  | String a needle', String b s' => Ascii.eqb a b && startsWith s' needle'
  end.

(** [s.includes(needle)]: [needle] occurs in [s] as a contiguous substring. *)
Fixpoint includes (s needle : string) : bool :=
  startsWith s needle ||
  match s with
  | EmptyString => false
  | String _ s' => includes s' needle
  end.

(** [arr.includes(x)] and [arr.indexOf(x)] on arrays of strings
    ([indexOf] is [None] for the source's [-1]). *)
Definition arrayIncludes (arr : list string) (x : string) : bool :=
  existsb (String.eqb x) arr.

Fixpoint indexOf (arr : list string) (x : string) : option nat :=
  match arr with
  | [] => None
  | y :: arr' => if String.eqb y x then Some 0%nat else S <$> indexOf arr' x
  end.

(** [[...new Set(arr)]]: the distinct elements in order of first occurrence. *)
Fixpoint dedupeStrings (arr : list string) : list string :=
  match arr with
  | [] => []
  | x :: arr' => x :: List.filter (fun y => negb (String.eqb x y)) (dedupeStrings arr')
  end.

(** ** matchGenresToAvailableSeeds *)

Definition exactMatches (aiGenres availableGenres : list string) : list string :=
  let lowerCaseAvailableGenres := map toLowerCase availableGenres in
  List.filter (arrayIncludes lowerCaseAvailableGenres) (map toLowerCase aiGenres).

(** The [filter] callback of the partial pass. *)
Definition partialMatch (aiGenre g : string) : bool :=
  let lowercaseAiGenre := toLowerCase aiGenre in
  includes (toLowerCase g) lowercaseAiGenre || includes lowercaseAiGenre (toLowerCase g).

Definition partialMatches (aiGenres availableGenres : list string) : list string :=
  flat_map (fun aiGenre => List.filter (partialMatch aiGenre) availableGenres) aiGenres.

(** [availableGenres[i]]; an index out of range reads [undefined], which
    cannot happen below and is rendered as the empty string. *)
Definition genreAt (availableGenres : list string) (i : option nat) : string :=
  match i with
  | Some n => default "" (availableGenres !! n)
  | None => ""
  end.

Definition matchGenresToAvailableSeeds (aiGenres availableGenres : list string)
    : list string :=
  match aiGenres with
  | [] => []
  | _ =>
      let lowerCaseAvailableGenres := map toLowerCase availableGenres in
      let exact := exactMatches aiGenres availableGenres in
      match exact with
      | _ :: _ =>
          map (fun m => genreAt availableGenres (indexOf lowerCaseAvailableGenres m)) exact
      | [] =>
          take 5 (dedupeStrings (partialMatches aiGenres availableGenres))
      end
  end.

(** ** Tracks and the prompt analysis *)

Record AudioFeatures := {
  energy : Q;
  tempo : Q;
  danceability : Q;
  acousticness : Q;
  instrumentalness : Q;
  valence : Q
}.

Record Track := {
  id : string;
  name : string;
  artists : list string;          (* the artists' names *)
  uri : string;
  duration_ms : option Z;
  popularity : option Z;          (* 0-100 when present *)
  features : option AudioFeatures;
  extractedGenres : option (list string)
}.

Record PromptAnalysis := {
  genres : list string;
  moods : list string;
  energy_range : Q * Q;
  tempo_range : Q * Q;
  danceability_range : Q * Q;
  acousticness_range : Q * Q;
  instrumentalness_range : Q * Q;
  valence_range : Q * Q;
  description : string;
  filter_logic : string;
  popularity_level : string
}.

Record ScoreDetails := {
  sd_energy : Q;
  sd_tempo : Q;
  sd_danceability : Q;
  sd_acousticness : Q;
  sd_valence : Q;
  sd_instrumentalness : Q;
  sd_genre : Q;
  sd_mood : Q
}.

(** An element of the scorer's output: [{...track, score}], the copy also
    carrying the [scoreDetails] assigned to the track while scoring. *)
Record ScoredTrack := {
  track : Track;
  score : Q;
  scoreDetails : option ScoreDetails
}.

(** ** Stable sorting, as [Array.prototype.sort] with a comparator.
    [before a b] says that the comparator is negative on [(a, b)]. *)

Fixpoint insertBy {A} (before : A -> A -> bool) (x : A) (l : list A) : list A :=
  match l with
  | [] => [x]
  | y :: l' => if before y x then y :: insertBy before x l' else x :: l
  end.

Definition stableSort {A} (before : A -> A -> bool) (l : list A) : list A :=
  foldr (insertBy before) [] l.

(** [(track.popularity || 0)] *)
Definition popularityOr0 (t : Track) : Z := default 0 (popularity t).

(** The comparator [(a, b) => (b.popularity || 0) - (a.popularity || 0)]. *)
Definition byPopularityDesc (a b : Track) : bool :=
  popularityOr0 b <? popularityOr0 a.

(** The comparator [(a, b) => b.score - a.score]. *)
Definition byScoreDesc (a b : ScoredTrack) : bool :=
  Qgtb (score a) (score b).

(** ** filterTracksByAIAnalysis *)

Definition hasFeatures (t : Track) : bool :=
  match features t with Some _ => true | None => false end.

Definition midpoint (range : Q * Q) : Q := ((fst range + snd range) / 2)%Q.

Section Scoring.
Variable analysis : PromptAnalysis.
Local Open Scope Q_scope.

Definition energyScore (f : AudioFeatures) : Q :=
  let energyIdeal := midpoint (energy_range analysis) in
  let energyDistance := Qabs (energy f - energyIdeal) in
  10 * (1 - energyDistance).

Definition tempoScore (f : AudioFeatures) : Q :=
  let tempoIdeal := midpoint (tempo_range analysis) in
  let tempoDistance := Qabs (tempo f - tempoIdeal) / 200 in
  10 * (1 - Qmin 1 tempoDistance).

Definition danceabilityScore (f : AudioFeatures) : Q :=
  let danceabilityIdeal := midpoint (danceability_range analysis) in
  let danceabilityDistance := Qabs (danceability f - danceabilityIdeal) in
  10 * (1 - danceabilityDistance).

Definition acousticnessScore (f : AudioFeatures) : Q :=
  let acousticnessIdeal := midpoint (acousticness_range analysis) in
  let acousticnessDistance := Qabs (acousticness f - acousticnessIdeal) in
  10 * (1 - acousticnessDistance).

Definition valenceScore (f : AudioFeatures) : Q :=
  let valenceIdeal := midpoint (valence_range analysis) in
  let valenceDistance := Qabs (valence f - valenceIdeal) in
  10 * (1 - valenceDistance).

Definition instrumentalnessScore (f : AudioFeatures) : Q :=
  let instrumentalnessIdeal := midpoint (instrumentalness_range analysis) in
  let instrumentalnessDistance := Qabs (instrumentalness f - instrumentalnessIdeal) in
  10 * (1 - instrumentalnessDistance).

(** The weighting chain on [filterLogic = analysis.filter_logic.toLowerCase()];
    the running [score] starts at 0. *)
Definition featureScore (f : AudioFeatures) : Q :=
  let filterLogic := toLowerCase (filter_logic analysis) in
  let score := 0 in
  if includes filterLogic "energy" then
    let score := score + energyScore f * 3 in
    let score := score + tempoScore f * (15 # 10) in
    score + (danceabilityScore f + valenceScore f
             + acousticnessScore f + instrumentalnessScore f)
  else if (includes filterLogic "tempo" || includes filterLogic "bpm")%bool then
    let score := score + tempoScore f * 3 in
    let score := score + energyScore f * (15 # 10) in
    score + (danceabilityScore f + valenceScore f
             + acousticnessScore f + instrumentalnessScore f)
  else if includes filterLogic "dance" then
    let score := score + danceabilityScore f * 3 in
    let score := score + energyScore f * (15 # 10) in
    score + (tempoScore f + valenceScore f
             + acousticnessScore f + instrumentalnessScore f)
  else if includes filterLogic "acoustic" then
    let score := score + acousticnessScore f * 3 in
    let score := score + valenceScore f * (15 # 10) in
    score + (energyScore f + tempoScore f
             + danceabilityScore f + instrumentalnessScore f)
  else if includes filterLogic "instrument" then
    let score := score + instrumentalnessScore f * 3 in
    let score := score + acousticnessScore f * (15 # 10) in
    score + (energyScore f + tempoScore f
             + danceabilityScore f + valenceScore f)
  else if (includes filterLogic "valence" || includes filterLogic "happ")%bool then
    let score := score + valenceScore f * 3 in
    let score := score + energyScore f * (15 # 10) in
    score + (tempoScore f + danceabilityScore f
             + acousticnessScore f + instrumentalnessScore f)
  else
    score + (energyScore f + tempoScore f + danceabilityScore f
             + valenceScore f + acousticnessScore f + instrumentalnessScore f).

(** Exact matches: 3 points for each prompt genre found among the
    track's lower-cased genres. *)
Definition exactGenreScore (trackGenres promptGenres : list string) : Q :=
  fold_left (fun genreScore genre =>
               if arrayIncludes trackGenres genre then genreScore + 3 else genreScore)
            promptGenres 0.

(** Partial matches: 1.5 points for each pair (track genre, prompt genre)
    one of which contains the other. *)
Definition partialGenreScore (extracted promptGenres : list string) : Q :=
  fold_left (fun genreScore trackGenre =>
               let trackGenreLower := toLowerCase trackGenre in
               fold_left (fun genreScore promptGenre =>
                            if (includes trackGenreLower promptGenre
                                || includes promptGenre trackGenreLower)%bool
                            then genreScore + (15 # 10) else genreScore)
                         promptGenres genreScore)
            extracted 0.

Definition genreScoreOf (t : Track) : Q :=
  match extractedGenres t, genres analysis with
  | Some extracted, _ :: _ =>
      let trackGenres := map toLowerCase extracted in
      let promptGenres := map toLowerCase (genres analysis) in
      let genreScore := exactGenreScore trackGenres promptGenres in
      let genreScore :=
        if Qeq_bool genreScore 0
        then partialGenreScore extracted promptGenres
        else genreScore in
      Qmin 15 genreScore
  | _, _ => 0
  end.

(** [track.popularity > 70], false when the popularity is absent. *)
Definition popularOver70 (t : Track) : bool :=
  match popularity t with Some p => (70 <? p)%Z | None => false end.

(** The callback of [candidateTracks.map]. *)
Definition scoreTrack (t : Track) : ScoredTrack :=
  let score := 0 in
  let score :=
    match features t with
    | Some f => score + featureScore f
    | None => score
    end in
  let genreScore := genreScoreOf t in
  let details :=
    match features t with
    | Some f =>
        Some {| sd_energy := energyScore f; sd_tempo := tempoScore f;
                sd_danceability := danceabilityScore f;
                sd_acousticness := acousticnessScore f;
                sd_valence := valenceScore f;
                sd_instrumentalness := instrumentalnessScore f;
                sd_genre := genreScore; sd_mood := 0 |}
    | None => None
    end in
  let popularityScore := inject_Z (popularityOr0 t) / 10 in
  let score := score + popularityScore in
  let score := score + genreScore in
  let score :=
    if (negb (hasFeatures t) && popularOver70 t)%bool then score + 20 else score in
  {| track := t; score := score; scoreDetails := details |}.

Definition filterTracksByAIAnalysis (tracks : list Track) (maxTracks : nat)
    : list ScoredTrack :=
  let tracksWithAudioFeatures := List.filter hasFeatures tracks in
  let candidateTracks :=
    if (length tracksWithAudioFeatures <? maxTracks * 2)%nat then
      let tracksWithoutFeatures :=
        take (maxTracks * 3)
             (stableSort byPopularityDesc
                (List.filter (fun t => negb (hasFeatures t)) tracks)) in
      tracksWithAudioFeatures ++ tracksWithoutFeatures
    else tracksWithAudioFeatures in
  let scoredTracks := stableSort byScoreDesc (map scoreTrack candidateTracks) in
  let selectedTracks := take maxTracks scoredTracks in
  selectedTracks.
End Scoring.

(** * Effects

    The asynchronous functions talk to the music catalogue, the language
    model, the clock, the console and the local store.  A program is a tree
    of such calls; [throw] and [try]/[catch] are part of the tree. *)

(** ** Data exchanged with the outside *)

(** The paginated listings the collector reads.  An entry of the saved-tracks
    listing carries its track; an entry of a playlist listing carries a track
    or [null]; the top-tracks listing lists tracks. *)
Inductive Endpoint :=
  | SavedTracks
  | TopTracks (time_range : string)
  | PlaylistTracks (playlistId : string).

Definition itemOf (e : Endpoint) : Type :=
  match e with
  | SavedTracks => Track
  | TopTracks _ => Track
  | PlaylistTracks _ => option Track
  end.

Definition endpointUrl (e : Endpoint) : string :=
  match e with
  | SavedTracks => "https://api.spotify.com/v1/me/tracks"
  | TopTracks time_range =>
      "https://api.spotify.com/v1/me/top/tracks?time_range=" +:+ time_range
  | PlaylistTracks playlistId =>
      "https://api.spotify.com/v1/playlists/" +:+ playlistId +:+ "/tracks"
  end.

(** The result of [await fetch(...)] followed by [response.json()]. *)
Inductive FetchResult (A : Type) :=
  | Rejected (message : string)
      (* fetch itself rejects *)
  | RespOk (body : option A)
      (* response.ok; [None] when json() rejects *)
  | RespNotOk (status : Z) (statusText : string) (errorData : option string).
      (* !response.ok; [None] when json() rejects *)
Arguments Rejected {A} message.
Arguments RespOk {A} body.
Arguments RespNotOk {A} status statusText errorData.

(** The JSON object the language model answers with: each field may be
    missing. *)
Record LLMAnalysis := {
  llm_genres : option (list string);
  llm_moods : option (list string);
  llm_energy_range : option (Q * Q);
  llm_tempo_range : option (Q * Q);
  llm_danceability_range : option (Q * Q);
  llm_acousticness_range : option (Q * Q);
  llm_instrumentalness_range : option (Q * Q);
  llm_valence_range : option (Q * Q);
  llm_description : option string;
  llm_filter_logic : option string;
  llm_popularity_level : option string
}.

(** [openai.chat.completions.create]: it rejects, or resolves with the
    [message.content] of each choice. *)
Inductive LLMResult :=
  | LLMRejected (message : string)
  | LLMCompletion (choices : list (option string)).

(** The created playlist, as the catalogue returns it. *)
Record SpotifyPlaylist := {
  playlist_id : string;
  playlist_image : option string;        (* images?.[0]?.url *)
  playlist_external_url : option string  (* external_urls?.spotify *)
}.

(** An entry of [/v1/me/playlists]: [id] and [tracks.total]. *)
Record PlaylistSummary := {
  summary_id : string;
  summary_total : option N
}.

(** One element of the [audio_features] array: [null], or the features of
    the track with that id. *)
Definition FeaturesEntry : Type := option (string * AudioFeatures).

Record ProcessingProgress := {
  stage : string;
  progress : Z;
  message : string;
  remainingTimeEstimate : Q
}.

(** A value of [playlistProgressMap]. *)
Record ProgressEntry := {
  entryProgress : ProcessingProgress;
  processingMode : string;
  startTime : Z
}.

(** The record handed to [Playlist.create]. *)
Record PlaylistRecord := {
  rec_name : string;
  rec_spotifyId : string;
  rec_description : string;
  rec_tracksCount : nat;
  rec_prompt : string;
  rec_aiAnalysis : PromptAnalysis;
  rec_genresUsed : list string;
  rec_processingMode : ProcessingMode;
  rec_sources : PlaylistSources
}.

(** ** Calls *)

Inductive Call : Type -> Type :=
  (* the clock and the console *)
  | Now : Call Z
  | ConsoleError (what : string) : Call unit
  (* playlistProgressMap *)
  | MapGet (key : string) : Call (option ProgressEntry)
  | MapSet (key : string) (value : ProgressEntry) : Call unit
  | MapDelete (key : string) : Call unit
  (* the language model *)
  | OpenAIChat (prompt : string) : Call LLMResult
  (* the helpers fetchAllPages and fetchLimitedItems, which never throw *)
  | FetchAllPages (e : Endpoint) (accessToken : string) (pageLimit delay : Z)
      : Call (list (itemOf e))
  | FetchLimitedItems (e : Endpoint) (accessToken : string) (limit : Z)
      : Call (list (itemOf e))
  (* getAvailableGenreSeeds and getRecommendations, which never throw *)
  | GetAvailableGenreSeeds (accessToken : string) : Call (list string)
  | GetRecommendations (accessToken : string) (seedGenres : list string)
      (limit : Z) : Call (list Track)
  (* the requests of the generate-playlist route *)
  | FetchMyPlaylists (accessToken : string)
      : Call (FetchResult (list PlaylistSummary))
  | FetchCreatePlaylist (userId accessToken name description : string)
      : Call (FetchResult SpotifyPlaylist)
  | FetchAudioFeatures (accessToken : string) (trackIds : string)
      : Call (FetchResult (option (list FeaturesEntry)))
  | FetchTrackFeatures (accessToken : string) (trackId : string)
      : Call (FetchResult AudioFeatures)
  | FetchAddTracks (playlistId accessToken : string) (uris : list string)
      : Call (FetchResult unit)
  (* Playlist.create: true when it resolves, false when it rejects *)
  | PlaylistCreate (record : PlaylistRecord) : Call bool.

Inductive Prog (A : Type) : Type :=
  | Ret (a : A)
  | Throw (error : string)
  | Vis {X : Type} (c : Call X) (k : X -> Prog A).
Arguments Ret {A} a.
Arguments Throw {A} error.
Arguments Vis {A X} c k.

Fixpoint bind {A B} (p : Prog A) (f : A -> Prog B) : Prog B :=
  match p with
  | Ret a => f a
  | Throw error => Throw error
  | Vis c k => Vis c (fun x => bind (k x) f)
  end.

(** [try { p } catch (error) { handler error }] *)
Fixpoint tryCatch {A} (p : Prog A) (handler : string -> Prog A) : Prog A :=
  match p with
  | Ret a => Ret a
  | Throw error => handler error
  | Vis c k => Vis c (fun x => tryCatch (k x) handler)
  end.

Definition call {X} (c : Call X) : Prog X := Vis c Ret.

#[global] Instance Prog_ret : MRet Prog := @Ret.
#[global] Instance Prog_bind : MBind Prog := fun A B f p => bind p f.

(** ** Running a program

    The world answers the calls to the outside from a state of its own; the
    progress map is the program's. *)

Definition World (S : Type) : Type := forall X, Call X -> S -> X * S.

Inductive Outcome (A : Type) :=
  | Returned (a : A)
  | Thrown (error : string).
Arguments Returned {A} a.
Arguments Thrown {A} error.

(** A call that was made, with its arguments. *)
Definition Event : Type := { X : Type & Call X }.
Definition event {X} (c : Call X) : Event := existT X c.

Record Run (S A : Type) := {
  outcome : Outcome A;
  world : S;
  store : gmap string ProgressEntry;
  trace : list Event
}.
Arguments outcome {S A} r.
Arguments world {S A} r.
Arguments store {S A} r.
Arguments trace {S A} r.

Definition step {S X} (w : World S) (c : Call X) (s : S)
    (m : gmap string ProgressEntry) : X * S * gmap string ProgressEntry :=
  match c in Call X return X * S * gmap string ProgressEntry with
  | MapGet key => (m !! key, s, m)
  | MapSet key value => (tt, s, <[key := value]> m)
  | MapDelete key => (tt, s, delete key m)
  | c' => let (x, s') := w _ c' s in (x, s', m)
  end.

Fixpoint run {S A} (w : World S) (p : Prog A) (s : S)
    (m : gmap string ProgressEntry) : Run S A :=
  match p with
  | Ret a => {| outcome := Returned a; world := s; store := m; trace := [] |}
  | Throw error => {| outcome := Thrown error; world := s; store := m; trace := [] |}
  | Vis c k =>
      let '(x, s', m') := step w c s m in
      let r := run w (k x) s' m' in
      {| outcome := outcome r; world := world r; store := store r;
         trace := event c :: trace r |}
  end.

(** * The pipeline *)

Section Pipeline.

(** [JSON.parse] on the model's answer: [None] when it throws. *)
Variable JSON_parse : string -> option LLMAnalysis.

(** ** analyzePlaylistPrompt *)

Definition defaultAnalysis : PromptAnalysis :=
  {| genres := [];
     moods := ["general"];
     energy_range := (0, 1)%Q;
     tempo_range := (0, 300)%Q;
     danceability_range := (0, 1)%Q;
     acousticness_range := (0, 1)%Q;
     instrumentalness_range := (0, 1)%Q;
     valence_range := (0, 1)%Q;
     description := "General playlist based on popular tracks";
     filter_logic := "Sort by popularity as fallback";
     popularity_level := "medium" |}.

(** The object literal of the [catch] branch. *)
Definition fallbackAnalysis : PromptAnalysis :=
  {| genres := [];
     moods := ["general"];
     energy_range := (0, 1)%Q;
     tempo_range := (0, 300)%Q;
     danceability_range := (0, 1)%Q;
     acousticness_range := (0, 1)%Q;
     instrumentalness_range := (0, 1)%Q;
     valence_range := (0, 1)%Q;
     description := "General playlist based on popular tracks";
     filter_logic := "Sort by popularity as fallback";
     popularity_level := "medium" |}.

Definition withDescription (analysis : LLMAnalysis) (d : string) : LLMAnalysis :=
  {| llm_genres := llm_genres analysis;
     llm_moods := llm_moods analysis;
     llm_energy_range := llm_energy_range analysis;
     llm_tempo_range := llm_tempo_range analysis;
     llm_danceability_range := llm_danceability_range analysis;
     llm_acousticness_range := llm_acousticness_range analysis;
     llm_instrumentalness_range := llm_instrumentalness_range analysis;
     llm_valence_range := llm_valence_range analysis;
     llm_description := Some d;
     llm_filter_logic := llm_filter_logic analysis;
     llm_popularity_level := llm_popularity_level analysis |}.

(** [if (analysis.description && analysis.description.length > 100)]
    [analysis.description = analysis.description.substring(0, 97) + '...'] *)
Definition truncateDescription (analysis : LLMAnalysis) : LLMAnalysis :=
  match llm_description analysis with
  | Some d =>
      if (negb (String.eqb d "") && (100 <? String.length d)%nat)%bool
      then withDescription analysis (String.substring 0 97 d +:+ "...")
      else analysis
  | None => analysis
  end.

(** [{ ...defaults, ...analysis }] *)
Definition mergeAnalysis (defaults : PromptAnalysis) (analysis : LLMAnalysis)
    : PromptAnalysis :=
  {| genres := default (genres defaults) (llm_genres analysis);
     moods := default (moods defaults) (llm_moods analysis);
     energy_range := default (energy_range defaults) (llm_energy_range analysis);
     tempo_range := default (tempo_range defaults) (llm_tempo_range analysis);
     danceability_range :=
       default (danceability_range defaults) (llm_danceability_range analysis);
     acousticness_range :=
       default (acousticness_range defaults) (llm_acousticness_range analysis);
     instrumentalness_range :=
       default (instrumentalness_range defaults) (llm_instrumentalness_range analysis);
     valence_range := default (valence_range defaults) (llm_valence_range analysis);
     description := default (description defaults) (llm_description analysis);
     filter_logic := default (filter_logic defaults) (llm_filter_logic analysis);
     popularity_level :=
       default (popularity_level defaults) (llm_popularity_level analysis) |}.

(** [completion.choices[0].message.content || '{}'] *)
Definition contentOr (messageContent : option string) : string :=
  match messageContent with
  | Some c => if String.eqb c "" then "{}" else c
  | None => "{}"
  end.

Definition analyzePlaylistPrompt (prompt : string) : Prog PromptAnalysis :=
  tryCatch
    (completion ← call (OpenAIChat prompt);
     match completion with
     | LLMRejected message => Throw message
     | LLMCompletion [] => Throw "TypeError: completion.choices[0] is undefined"
     | LLMCompletion (messageContent :: _) =>
         let content := contentOr messageContent in
         match JSON_parse content with
         | None => Throw "SyntaxError: JSON.parse"
         | Some analysis =>
             let analysis := truncateDescription analysis in
             let mergedAnalysis := mergeAnalysis defaultAnalysis analysis in
             mret mergedAnalysis
         end
     end)
    (fun error =>
       call (ConsoleError ("Error analyzing prompt with GPT-4: " +:+ error));;
       mret fallbackAnalysis).

(** ** Removing duplicates: [Array.from(new Map(tracks.map(t => [t.id, t])).values())]

    A [Map] keeps its keys in order of first insertion; setting a key that
    is present replaces its value in place. *)

Fixpoint mapSet (key : string) (value : Track) (entries : list (string * Track))
    : list (string * Track) :=
  match entries with
  | [] => [(key, value)]
  | (k, v) :: rest =>
      if String.eqb k key then (k, value) :: rest
      else (k, v) :: mapSet key value rest
  end.

Definition newMap (pairs : list (string * Track)) : list (string * Track) :=
  fold_left (fun entries kv => mapSet (fst kv) (snd kv) entries) pairs [].

Definition uniqueById (tracks : list Track) : list Track :=
  map snd (newMap (map (fun t => (id t, t)) tracks)).

(** ** The fetchers *)

Definition fetchLikedSongs (accessToken : string) (config : ProcessingConfig)
    : Prog (list Track) :=
  if fetchAllPages config then
    items ← call (FetchAllPages SavedTracks accessToken 50 (requestDelay config));
    mret items
  else
    items ← call (FetchLimitedItems SavedTracks accessToken 50);
    mret items.

Definition timeRanges : list string := ["short_term"; "medium_term"; "long_term"].

Fixpoint fetchTopTracksLoop (accessToken : string) (ranges : list string)
    (allTopTracks : list Track) : Prog (list Track) :=
  match ranges with
  | [] => mret allTopTracks
  | timeRange :: rest =>
      tracks ← call (FetchLimitedItems (TopTracks timeRange) accessToken 50);
      fetchTopTracksLoop accessToken rest (allTopTracks ++ tracks)
  end.

Definition fetchTopTracks (accessToken : string) (config : ProcessingConfig)
    : Prog (list Track) :=
  allTopTracks ← fetchTopTracksLoop accessToken timeRanges [];
  mret (uniqueById allTopTracks).

(** [items.map((item) => item.track).filter((track) => track)] *)
Definition nonNullTracks (items : list (option Track)) : list Track :=
  omap (fun item => item) items.

Definition fetchPlaylistTracks (accessToken playlistId : string)
    (config : ProcessingConfig) : Prog (list Track) :=
  tracks ←
    (if fetchAllPages config then
       items ← call (FetchAllPages (PlaylistTracks playlistId) accessToken 100
                       (requestDelay config));
       mret (nonNullTracks items)
     else
       let limit :=
         if maxTracksPerPlaylist config =? 0 then 100
         else maxTracksPerPlaylist config in
       items ← call (FetchLimitedItems (PlaylistTracks playlistId) accessToken limit);
       mret (nonNullTracks items));
  let tracks :=
    if ((0 <? maxTracksPerPlaylist config)
        && (maxTracksPerPlaylist config <? Z.of_nat (length tracks)))%bool
    then take (Z.to_nat (maxTracksPerPlaylist config)) tracks
    else tracks in
  mret tracks.

(** [Math.round] *)
Definition mathRound (x : Q) : Z := Qfloor (x + (1 # 2)).

(** The loop of fetchSelectedPlaylistTracks.  The callback closes over
    the caller's progress state [st], which is passed along. *)
Fixpoint fetchPlaylistsLoop {St : Type} (accessToken : string)
    (config : ProcessingConfig) (progressCallback : option (Z -> St -> Prog St))
    (count i : nat) (playlistIds : list string) (allTracks : list Track) (st : St)
    : Prog (list Track * St) :=
  match playlistIds with
  | [] => mret (allTracks, st)
  | playlistId :: rest =>
      tracks ← fetchPlaylistTracks accessToken playlistId config;
      let allTracks := allTracks ++ tracks in
      st ← match progressCallback with
           | Some callback =>
               let progress :=
                 mathRound (inject_Z (Z.of_nat (i + 1)) / inject_Z (Z.of_nat count) * 100) in
               callback progress st
           | None => mret st
           end;
      fetchPlaylistsLoop accessToken config progressCallback count (S i) rest allTracks st
  end.

Definition fetchSelectedPlaylistTracks {St : Type} (accessToken : string)
    (playlistIds : list string) (config : ProcessingConfig)
    (progressCallback : option (Z -> St -> Prog St)) (st : St)
    : Prog (list Track * St) :=
  let limitedPlaylistIds := take (Z.to_nat (maxPlaylists config)) playlistIds in
  r ← fetchPlaylistsLoop accessToken config progressCallback
        (length limitedPlaylistIds) 0 limitedPlaylistIds [] st;
  mret (uniqueById (fst r), snd r).

(** ** collectTracks *)

Definition updateProgress (progressCallback : option (ProcessingProgress -> Prog unit))
    (stage : string) (progress : Z) (message : string)
    (currentProgress : ProcessingProgress) : Prog ProcessingProgress :=
  let currentProgress :=
    {| stage := stage; progress := progress; message := message;
       remainingTimeEstimate :=
         Qmax 5 (remainingTimeEstimate currentProgress - 5) |} in
  match progressCallback with
  | Some callback => callback currentProgress;; mret currentProgress
  | None => mret currentProgress
  end.

Definition poolCap (config : ProcessingConfig) (uniqueTracks : list Track) : bool :=
  ((0 <? targetPoolSize config)
   && (targetPoolSize config <? Z.of_nat (length uniqueTracks)))%bool.

Definition collectTracks (accessToken : string) (sources : PlaylistSources)
    (processingMode : ProcessingMode)
    (progressCallback : option (ProcessingProgress -> Prog unit))
    : Prog (list Track) :=
  let config := PROCESSING_CONFIGS processingMode in
  let allTracks : list Track := [] in
  let currentProgress :=
    {| stage := "collecting"; progress := 0;
       message := "Starting track collection...";
       remainingTimeEstimate := 60 |} in
  (* 1. liked songs *)
  r ← (if useLikedSongs sources then
         currentProgress ← updateProgress progressCallback "collecting" 10
                             "Fetching your liked songs..." currentProgress;
         likedSongs ← fetchLikedSongs accessToken config;
         mret (allTracks ++ likedSongs, currentProgress)
       else mret (allTracks, currentProgress));
  let allTracks := fst r in
  let currentProgress := snd r in
  (* 2. top tracks *)
  r ← (if useTopTracks sources then
         currentProgress ← updateProgress progressCallback "collecting" 30
                             "Fetching your top tracks..." currentProgress;
         topTracks ← fetchTopTracks accessToken config;
         mret (allTracks ++ topTracks, currentProgress)
       else mret (allTracks, currentProgress));
  let allTracks := fst r in
  let currentProgress := snd r in
  (* 3. playlists *)
  r ← (match playlists sources with
       | [] => mret (allTracks, currentProgress)
       | _ :: _ =>
           currentProgress ← updateProgress progressCallback "collecting" 40
                               "Fetching tracks from your playlists..." currentProgress;
           let playlistTracksProgress (progress : Z) (current : ProcessingProgress) :=
             updateProgress progressCallback "collecting"
               (40 + Qfloor (inject_Z progress * (4 # 10)))
               ("Fetching playlist tracks: " +:+ pretty progress +:+ "% complete")
               current in
           r ← fetchSelectedPlaylistTracks accessToken (playlists sources) config
                 (Some playlistTracksProgress) currentProgress;
           mret (allTracks ++ fst r, snd r)
       end);
  let allTracks := fst r in
  let currentProgress := snd r in
  (* 4. remove duplicates *)
  currentProgress ← updateProgress progressCallback "processing" 85
                      "Removing duplicate tracks..." currentProgress;
  let uniqueTracks := uniqueById allTracks in
  (* 5. limit to the target pool size *)
  r ← (if poolCap config uniqueTracks then
         currentProgress ← updateProgress progressCallback "processing" 90
                             "Sampling tracks to optimal size..." currentProgress;
         mret (take (Z.to_nat (targetPoolSize config)) uniqueTracks, currentProgress)
       else mret (uniqueTracks, currentProgress));
  let resultTracks := fst r in
  let currentProgress := snd r in
  updateProgress progressCallback "complete" 100 "Track collection complete"
    currentProgress;;
  mret resultTracks.

(** ** The progress tracker *)

Definition getEstimatedTimeForMode (mode : string) : Z :=
  if String.eqb mode "quick" then 30
  else if String.eqb mode "standard" then 60
  else if String.eqb mode "comprehensive" then 120
  else if String.eqb mode "complete" then 300
  else 60.

Definition modeName (mode : ProcessingMode) : string :=
  match mode with
  | quick => "quick"
  | standard => "standard"
  | comprehensive => "comprehensive"
  | complete => "complete"
  end.

Definition updatePlaylistProgress (playlistId stage : string) (progress : Z)
    (message processingMode : string) : Prog unit :=
  found ← call (MapGet playlistId);
  existing ←
    match found with
    | Some existing => mret existing
    | None =>
        now ← call Now;
        mret {| entryProgress :=
                  {| stage := "initializing"; progress := 0;
                     message := "Starting playlist generation...";
                     remainingTimeEstimate :=
                       inject_Z (getEstimatedTimeForMode processingMode) |};
                processingMode := processingMode;
                startTime := now |}
    end;
  call (MapSet playlistId
          {| entryProgress :=
               {| stage := stage; progress := progress; message := message;
                  remainingTimeEstimate :=
                    remainingTimeEstimate (entryProgress existing) |};
             processingMode := processingMode;
             startTime := startTime existing |}).

(** ** Responses of the routes *)

Inductive SelectionReason :=
  | ByAudioFeatures (score : option Q)   (* "... audio features ... (score: s | N/A)" *)
  | ByPopularity (popularity : Z).       (* "... popularity (p/100)" *)

Record ResponseTrack := {
  rt_id : string;
  rt_name : string;
  rt_artist : string;
  rt_uri : string;
  rt_score : option Q;
  rt_scoreDetails : option ScoreDetails;
  rt_popularity : Z;
  rt_selectionReason : SelectionReason
}.

Record GeneratedPlaylist := {
  gen_id : string;
  gen_name : string;
  gen_description : string;
  gen_tracks : list ResponseTrack;
  gen_url : string;
  gen_aiAnalysis : PromptAnalysis;
  gen_genresUsed : list string
}.

Record ProcessingStats := {
  stats_mode : ProcessingMode;
  stats_totalTimeSeconds : Z;
  stats_tracksAnalyzed : nat;
  stats_tracksSelected : nat;
  stats_estimatedSeconds : Z;
  stats_tracksWithFeatures : nat;
  stats_audioFeaturesStatus : string;
  stats_selectionMethod : string
}.

Inductive ResponseBody :=
  | MessageBody (message : string)                 (* { message } *)
  | ErrorBody (error : string)                     (* { error } *)
  | FailureBody (message error : string)           (* { message, error } *)
  | ProgressBody (progress : ProcessingProgress)   (* { progress } *)
  | EntryBody (progress : ProgressEntry)           (* { progress: { ...entry } } *)
  | CreatedBody (message : string) (playlist : GeneratedPlaylist)
      (processingStats : ProcessingStats) (refinementPlaylistId : string).

Record HttpResponse := {
  status : Z;
  body : ResponseBody
}.

(** ** GET /api/ai/generate-playlist/progress *)

Definition defaultProgress : ProcessingProgress :=
  {| stage := "initializing"; progress := 5;
     message := "Initializing playlist generation...";
     remainingTimeEstimate := 60 |}.

Definition remainingEstimate (entry : ProgressEntry) (now : Z) : Q :=
  let elapsedSeconds := (inject_Z (now - startTime entry) / 1000)%Q in
  let totalEstimate := inject_Z (getEstimatedTimeForMode (processingMode entry)) in
  let remainingEstimate := Qmax 0 (totalEstimate - elapsedSeconds) in
  if progress (entryProgress entry) <? 20
  then Qmax remainingEstimate (totalEstimate * (8 # 10))
  else remainingEstimate.

(** [{ ...progress, remainingTimeEstimate: remainingEstimate }] *)
Definition withRemaining (entry : ProgressEntry) (remaining : Q) : ProgressEntry :=
  {| entryProgress :=
       {| stage := stage (entryProgress entry);
          progress := progress (entryProgress entry);
          message := message (entryProgress entry);
          remainingTimeEstimate := remaining |};
     processingMode := processingMode entry;
     startTime := startTime entry |}.

(** The handler; [playlistId] is [req.query.playlistId]. *)
Definition progressRoute (playlistId : option string) : Prog HttpResponse :=
  tryCatch
    (match playlistId with
     | None | Some "" =>
         mret {| status := 400; body := ErrorBody "Missing playlistId parameter" |}
     | Some key =>
         found ← call (MapGet key);
         match found with
         | None => mret {| status := 200; body := ProgressBody defaultProgress |}
         | Some entry =>
             now ← call Now;
             mret {| status := 200;
                     body := EntryBody (withRemaining entry (remainingEstimate entry now)) |}
         end
     end)
    (fun error =>
       call (ConsoleError ("Error fetching playlist generation progress: " +:+ error));;
       mret {| status := 500; body := ErrorBody "Failed to get progress" |}).

(** ** POST /generate-playlist *)

Record GenerateRequest := {
  req_prompt : option string;
  req_name : option string;
  req_description : option string;
  req_sources : option PlaylistSources;
  req_processingMode : option ProcessingMode;
  req_targetTrackCount : option nat;
  req_accessToken : option string;
  req_userId : option string
}.

(** A string that is present and not empty. *)
Definition truthy (s : option string) : option string :=
  match s with
  | Some x => if String.eqb x "" then None else Some x
  | None => None
  end.

Definition defaultSources : PlaylistSources :=
  {| useLikedSongs := true; useTopTracks := true;
     useRecommendations := true; playlists := [] |}.

(** The [forEach] that fills [playlistSizes]. *)
Definition recordSizes (summaries : list PlaylistSummary) : gmap string N :=
  fold_left
    (fun playlistSizes playlist =>
       match summary_total playlist with
       | Some total =>
           if (negb (String.eqb (summary_id playlist) "") && negb (total =? 0)%N)%bool
           then <[summary_id playlist := total]> playlistSizes
           else playlistSizes
       | None => playlistSizes
       end)
    summaries ∅.

Definition fetchPlaylistSizes (accessToken : string) (sources : PlaylistSources)
    : Prog (gmap string N) :=
  match playlists sources with
  | [] => mret ∅
  | _ :: _ =>
      tryCatch
        (playlistsResponse ← call (FetchMyPlaylists accessToken);
         match playlistsResponse with
         | Rejected message => Throw message
         | RespOk None => Throw "playlistsResponse.json() rejected"
         | RespOk (Some items) => mret (recordSizes items)
         | RespNotOk _ _ _ => mret ∅
         end)
        (fun error =>
           call (ConsoleError ("Error fetching playlist metadata: " +:+ error));;
           mret ∅)
  end.

(** [{ ...track, features: f }] *)
Definition withFeatures (t : Track) (f : option AudioFeatures) : Track :=
  {| id := id t; name := name t; artists := artists t; uri := uri t;
     duration_ms := duration_ms t; popularity := popularity t;
     features := f; extractedGenres := extractedGenres t |}.

(** [features.find((f) => f && f.id === track.id) || null] *)
Fixpoint findFeatures (entries : list FeaturesEntry) (trackId : string)
    : option AudioFeatures :=
  match entries with
  | [] => None
  | Some (fid, f) :: rest =>
      if String.eqb fid trackId then Some f else findFeatures rest trackId
  | None :: rest => findFeatures rest trackId
  end.

(** The one-by-one fallback for a batch. *)
Fixpoint featuresOneByOne (accessToken : string) (trackBatch : list Track)
    (batchWithFeatures : list Track) : Prog (list Track) :=
  match trackBatch with
  | [] => mret batchWithFeatures
  | track :: rest =>
      entry ←
        tryCatch
          (singleTrackResponse ← call (FetchTrackFeatures accessToken (id track));
           match singleTrackResponse with
           | Rejected message => Throw message
           | RespOk None => Throw "singleTrackResponse.json() rejected"
           | RespOk (Some trackFeature) => mret (withFeatures track (Some trackFeature))
           | RespNotOk _ _ _ => mret (withFeatures track None)
           end)
          (fun singleTrackError =>
             call (ConsoleError ("Error getting features for track " +:+ id track));;
             mret (withFeatures track None));
      featuresOneByOne accessToken rest (batchWithFeatures ++ [entry])
  end.

(** One iteration of the batch loop. *)
Definition featuresForBatch (accessToken : string) (trackBatch : list Track)
    (tracksWithFeatures : list Track) : Prog (list Track) :=
  let trackIds := String.concat "," (map id trackBatch) in
  if String.eqb trackIds "" then mret tracksWithFeatures
  else
    featuresResponse ← call (FetchAudioFeatures accessToken trackIds);
    match featuresResponse with
    | Rejected message => Throw message
    | RespOk None => Throw "featuresResponse.json() rejected"
    | RespOk (Some None) =>
        call (ConsoleError "Invalid audio features response format");;
        mret tracksWithFeatures
    | RespOk (Some (Some features)) =>
        let batchWithFeatures :=
          map (fun track => withFeatures track (findFeatures features (id track)))
              trackBatch in
        mret (tracksWithFeatures ++ batchWithFeatures)
    | RespNotOk _ _ errorData =>
        call (ConsoleError "Failed to get audio features");;
        match errorData with
        | Some details => call (ConsoleError ("Error details: " +:+ details))
        | None => call (ConsoleError "Could not parse error response")
        end;;
        batchWithFeatures ← featuresOneByOne accessToken trackBatch [];
        mret (tracksWithFeatures ++ batchWithFeatures)
    end.

Fixpoint featuresLoop (accessToken : string) (batches : list (list Track))
    (tracksWithFeatures : list Track) : Prog (list Track) :=
  match batches with
  | [] => mret tracksWithFeatures
  | trackBatch :: rest =>
      tracksWithFeatures ← featuresForBatch accessToken trackBatch tracksWithFeatures;
      featuresLoop accessToken rest tracksWithFeatures
  end.

(** The batches [collectedTracks.slice(i, i + batchSize)], [i = 0, batchSize, ...]. *)
Definition batchesOf (batchSize : nat) (tracks : list Track) : list (list Track) :=
  map (fun k => take batchSize (drop (k * batchSize) tracks))
      (seq 0 ((length tracks + batchSize - 1) / batchSize)).

(** Step 5 of the route: the audio features of the collected tracks. *)
Definition fetchFeatures (accessToken : string) (collectedTracks : list Track)
    : Prog (list Track) :=
  tryCatch
    (match collectedTracks with
     | [] => mret []
     | _ :: _ => featuresLoop accessToken (batchesOf 50 collectedTracks) []
     end)
    (fun featuresError =>
       call (ConsoleError
               ("Failed to get audio features, using tracks without features: "
                +:+ featuresError));;
       mret (map (fun track => withFeatures track None) collectedTracks)).

(** An element of [selectedTracks]: a scored copy from the scorer, or a
    collected track as it is. *)
Record SelectedTrack := {
  sel_track : Track;
  sel_score : option Q;
  sel_scoreDetails : option ScoreDetails
}.

Definition ofScored (s : ScoredTrack) : SelectedTrack :=
  {| sel_track := track s; sel_score := Some (score s);
     sel_scoreDetails := scoreDetails s |}.

Definition ofCollected (t : Track) : SelectedTrack :=
  {| sel_track := t; sel_score := None; sel_scoreDetails := None |}.

(** Step 6 of the route. *)
Definition selectTracks (collectedTracks tracksWithFeatures : list Track)
    (promptAnalysis : PromptAnalysis) (targetTrackCount : nat) : list SelectedTrack :=
  if existsb hasFeatures tracksWithFeatures then
    map ofScored
        (filterTracksByAIAnalysis promptAnalysis tracksWithFeatures targetTrackCount)
  else
    map ofCollected
        (take targetTrackCount (stableSort byPopularityDesc collectedTracks)).

(** Step 7 of the route. *)
Definition addTracksToPlaylist (playlistId accessToken : string)
    (selectedTracks : list SelectedTrack) : Prog unit :=
  match selectedTracks with
  | [] => mret tt
  | _ :: _ =>
      let trackUris := map (fun t => uri (sel_track t)) selectedTracks in
      addTracksResponse ← call (FetchAddTracks playlistId accessToken trackUris);
      match addTracksResponse with
      | Rejected message => Throw message
      | RespOk _ => mret tt
      | RespNotOk _ _ None => Throw "addTracksResponse.json() rejected"
      | RespNotOk _ _ (Some errorData) =>
          call (ConsoleError ("Failed to add tracks to playlist: " +:+ errorData))
      end
  end.

(** Step 8 of the route. *)
Definition saveToDatabase (record : PlaylistRecord) : Prog unit :=
  saved ← call (PlaylistCreate record);
  if (saved : bool) then mret tt
  else call (ConsoleError "Failed to save playlist to database, continuing anyway").

(** [track.score || null] *)
Definition scoreOrNull (s : option Q) : option Q :=
  match s with
  | Some q => if Qeq_bool q 0 then None else Some q
  | None => None
  end.

Definition responseTrack (t : SelectedTrack) : ResponseTrack :=
  let track := sel_track t in
  {| rt_id := id track;
     rt_name := name track;
     rt_artist := String.concat ", " (artists track);
     rt_uri := uri track;
     rt_score := scoreOrNull (sel_score t);
     rt_scoreDetails := sel_scoreDetails t;
     rt_popularity := popularityOr0 track;
     rt_selectionReason :=
       if hasFeatures track then ByAudioFeatures (scoreOrNull (sel_score t))
       else ByPopularity (popularityOr0 track) |}.

Definition playlistDescription (requestDescription : option string)
    (promptAnalysis : PromptAnalysis) : string :=
  let playlistDesc :=
    match truthy requestDescription with
    | Some d => String.substring 0 250 d
    | None =>
        match truthy (Some (description promptAnalysis)) with
        | Some d => String.substring 0 250 d
        | None => "AI-generated playlist based on your prompt."
        end
    end in
  if (250 <? String.length playlistDesc)%nat
  then String.substring 0 250 playlistDesc
  else playlistDesc.

(** The route from the created playlist on (steps 4 to 9). *)
Definition afterCreate (prompt accessToken : string) (sources : PlaylistSources)
    (processingMode : ProcessingMode) (targetTrackCount : nat)
    (estimatedSeconds : Z) (promptAnalysis : PromptAnalysis)
    (matchedGenres : list string) (playlistTitle playlistDesc : string)
    (playlist : SpotifyPlaylist) : Prog HttpResponse :=
  let mode := modeName processingMode in
  (* the progress moves from the temporary key to the playlist id *)
  tempProgress ← call (MapGet "preparing");
  match tempProgress with
  | Some entry =>
      call (MapSet (playlist_id playlist) entry);;
      call (MapDelete "preparing")
  | None => mret tt
  end;;
  (* 4. collect *)
  updatePlaylistProgress (playlist_id playlist) "collecting" 20
    "Collecting tracks from selected sources..." mode;;
  collectedTracks ←
    collectTracks accessToken sources processingMode
      (Some (fun p => updatePlaylistProgress (playlist_id playlist)
                        (stage p) (progress p) (message p) mode));
  (* 5. audio features *)
  updatePlaylistProgress (playlist_id playlist) "processing" 75
    "Analyzing audio features..." mode;;
  tracksWithFeatures ← fetchFeatures accessToken collectedTracks;
  (* 6. select *)
  updatePlaylistProgress (playlist_id playlist) "selecting" 85
    "Selecting the best tracks for your playlist..." mode;;
  let selectedTracks :=
    selectTracks collectedTracks tracksWithFeatures promptAnalysis targetTrackCount in
  (* 7. add the tracks *)
  updatePlaylistProgress (playlist_id playlist) "finalizing" 90
    "Adding tracks to your playlist..." mode;;
  addTracksToPlaylist (playlist_id playlist) accessToken selectedTracks;;
  (* 8. save *)
  updatePlaylistProgress (playlist_id playlist) "finalizing" 95
    "Finalizing playlist..." mode;;
  saveToDatabase
    {| rec_name := playlistTitle; rec_spotifyId := playlist_id playlist;
       rec_description := playlistDesc;
       rec_tracksCount := length selectedTracks;
       rec_prompt := prompt; rec_aiAnalysis := promptAnalysis;
       rec_genresUsed := matchedGenres; rec_processingMode := processingMode;
       rec_sources := sources |};;
  (* 9. complete *)
  updatePlaylistProgress (playlist_id playlist) "complete" 100
    "Playlist created successfully!" mode;;
  now1 ← call Now;
  now2 ← call Now;
  let someFeatures := existsb hasFeatures tracksWithFeatures in
  mret
    {| status := 201;
       body :=
         CreatedBody "AI playlist created successfully"
           {| gen_id := playlist_id playlist;
              gen_name := playlistTitle;
              gen_description := playlistDesc;
              gen_tracks := map responseTrack selectedTracks;
              gen_url :=
                default ("https://open.spotify.com/playlist/" +:+ playlist_id playlist)
                        (truthy (playlist_external_url playlist));
              gen_aiAnalysis := promptAnalysis;
              gen_genresUsed := matchedGenres |}
           {| stats_mode := processingMode;
              stats_totalTimeSeconds := Qceiling (inject_Z (now1 - now2) / 1000);
              stats_tracksAnalyzed := length tracksWithFeatures;
              stats_tracksSelected := length selectedTracks;
              stats_estimatedSeconds := estimatedSeconds;
              stats_tracksWithFeatures :=
                length (List.filter hasFeatures tracksWithFeatures);
              stats_audioFeaturesStatus :=
                if someFeatures then "available" else "unavailable";
              stats_selectionMethod :=
                if someFeatures then "audio_features" else "popularity" |}
           (playlist_id playlist) |}.

Definition generatePlaylist (req : GenerateRequest) : Prog HttpResponse :=
  tryCatch
    (let sources := default defaultSources (req_sources req) in
     let processingMode := default standard (req_processingMode req) in
     let targetTrackCount := default 20%nat (req_targetTrackCount req) in
     match truthy (req_prompt req) with
     | None => mret {| status := 400; body := MessageBody "Prompt is required" |}
     | Some prompt =>
         match truthy (req_accessToken req), truthy (req_userId req) with
         | Some accessToken, Some userId =>
             playlistSizes ← fetchPlaylistSizes accessToken sources;
             let estimate :=
               estimateProcessingTime sources processingMode playlistSizes in
             (* 1. analyze the prompt *)
             updatePlaylistProgress "preparing" "analyzing" 5
               "Analyzing prompt with AI..." (modeName processingMode);;
             promptAnalysis ← analyzePlaylistPrompt prompt;
             (* 2. match the genres *)
             updatePlaylistProgress "preparing" "analyzing" 10
               "Matching genres..." (modeName processingMode);;
             availableGenres ← call (GetAvailableGenreSeeds accessToken);
             let matchedGenres :=
               matchGenresToAvailableSeeds (genres promptAnalysis) availableGenres in
             (* 3. create the playlist *)
             updatePlaylistProgress "preparing" "creating" 15
               "Creating playlist..." (modeName processingMode);;
             let playlistTitle := default "AI Playlist" (truthy (req_name req)) in
             let playlistDesc :=
               playlistDescription (req_description req) promptAnalysis in
             createResponse ←
               call (FetchCreatePlaylist userId accessToken playlistTitle
                       (String.substring 0 250 playlistDesc));
             match createResponse with
             | Rejected message => Throw message
             | RespNotOk _ _ None => Throw "createResponse.json() rejected"
             | RespNotOk status _ (Some errorData) =>
                 call (ConsoleError ("Failed to create playlist: " +:+ errorData));;
                 mret {| status := status;
                         body := FailureBody "Failed to create playlist" errorData |}
             | RespOk None => Throw "createResponse.json() rejected"
             | RespOk (Some playlist) =>
                 afterCreate prompt accessToken sources processingMode
                   targetTrackCount (estimatedSeconds estimate) promptAnalysis
                   matchedGenres playlistTitle playlistDesc playlist
             end
         | _, _ =>
             mret {| status := 401; body := MessageBody "Authentication required" |}
         end
     end)
    (fun error =>
       call (ConsoleError ("Error generating AI playlist: " +:+ error));;
       mret {| status := 500;
               body := FailureBody "Failed to generate AI playlist" error |}).

End Pipeline.

(** * Specification-level definitions

    The quantities of the specification in its own words, to be compared
    with the functions above. *)

(** The estimate as the specification words it: a per-playlist cost, summed. *)
Definition spec_playlistTracks (config : ProcessingConfig)
    (playlistSizes : gmap string N) (playlistId : string) : Z :=
  let knownSizeOr50 :=
    match playlistSizes !! playlistId with
    | Some 0%N | None => 50
    | Some n => Z.of_N n
    end in
  Z.min knownSizeOr50
        (if maxTracksPerPlaylist config =? 0 then knownSizeOr50
         else maxTracksPerPlaylist config).

Definition spec_playlistCost (config : ProcessingConfig)
    (playlistSizes : gmap string N) (playlistId : string) : Q :=
  let n := inject_Z (spec_playlistTracks config playlistSizes playlistId) in
  (n * (5 # 100) + (if fetchAllPages config then 2 * (n / 100) else 0))%Q.

Definition spec_estimateSum (sources : PlaylistSources) (mode : ProcessingMode)
    (playlistSizes : gmap string N) : Q :=
  let config := PROCESSING_CONFIGS mode in
  (5 + (if useLikedSongs sources then 5 else 0)
     + (if useTopTracks sources then 3 else 0)
     + (if useRecommendations sources then 5 else 0)
     + foldr Qplus 0 (map (spec_playlistCost config playlistSizes) (playlists sources))
     + (if useAudioFeatures config
        then inject_Z (Z.min (targetPoolSize config) 500) * (2 # 100) else 0))%Q.

Definition spec_warningLevel (sum : Q) : WarningLevel :=
  if Qle_bool sum 60 then low
  else if Qle_bool sum 180 then medium
  else high.

(** The rate per track: 0.05 s, and 2 s per 100 tracks when paginating. *)
Definition perTrack (config : ProcessingConfig) : Q :=
  ((if fetchAllPages config then 2 # 100 else 0) + (5 # 100))%Q.

(** [s1] selects no more than [s2]: every source flag of [s1] is set in
    [s2], and the playlists of [s1] are among those of [s2], counted with
    multiplicity and in any order. *)
Definition selectsNoMore (s1 s2 : PlaylistSources) : Prop :=
  (useLikedSongs s1 -> useLikedSongs s2)
  /\ (useTopTracks s1 -> useTopTracks s2)
  /\ (useRecommendations s1 -> useRecommendations s2)
  /\ playlists s1 ⊆+ playlists s2.

(** [needle] occurs in [s] as a contiguous substring. *)
Definition Substring (needle s : string) : Prop :=
  exists pre post, s = pre +:+ needle +:+ post.

(** Two genre names match partially when, letter case aside, one contains
    the other. *)
Definition PartialMatch (aiGenre g : string) : Prop :=
  Substring (toLowerCase aiGenre) (toLowerCase g)
  \/ Substring (toLowerCase g) (toLowerCase aiGenre).

(** The six scored dimensions, and the emphasis the specification derives
    from [filter_logic]: the first entry of the table with a keyword that
    occurs in it. *)
Inductive Dimension :=
  | Energy | Tempo | Danceability | Acousticness | Instrumentalness | Valence.

#[global] Instance Dimension_eq_dec : EqDecision Dimension.
Proof. solve_decision. Defined.

Definition allDimensions : list Dimension :=
  [Energy; Tempo; Danceability; Acousticness; Instrumentalness; Valence].

Definition emphasisKeywords : list (Dimension * list string) :=
  [(Energy, ["energy"]);
   (Tempo, ["tempo"; "bpm"]);
   (Danceability, ["dance"]);
   (Acousticness, ["acoustic"]);
   (Instrumentalness, ["instrument"]);
   (Valence, ["valence"; "happ"])].

Definition spec_emphasis (filterLogic : string) : option Dimension :=
  fst <$> List.find (fun entry => existsb (includes filterLogic) (snd entry))
                    emphasisKeywords.

Definition spec_secondary (d : Dimension) : Dimension :=
  match d with
  | Energy => Tempo
  | Tempo => Energy
  | Danceability => Energy
  | Acousticness => Valence
  | Instrumentalness => Acousticness
  | Valence => Energy
  end.

Definition spec_weight (emphasis : option Dimension) (d : Dimension) : Q :=
  match emphasis with
  | None => 1
  | Some e =>
      if decide (d = e) then 3
      else if decide (d = spec_secondary e) then 15 # 10
      else 1
  end.

Definition dimensionScore (analysis : PromptAnalysis) (f : AudioFeatures)
    (d : Dimension) : Q :=
  match d with
  | Energy => energyScore analysis f
  | Tempo => tempoScore analysis f
  | Danceability => danceabilityScore analysis f
  | Acousticness => acousticnessScore analysis f
  | Instrumentalness => instrumentalnessScore analysis f
  | Valence => valenceScore analysis f
  end.

Definition spec_featureScore (analysis : PromptAnalysis) (f : AudioFeatures) : Q :=
  let emphasis := spec_emphasis (toLowerCase (filter_logic analysis)) in
  foldr Qplus 0%Q
    (map (fun d => spec_weight emphasis d * dimensionScore analysis f d)%Q
         allDimensions).

(** The features [f] with another energy, all else equal. *)
Definition withEnergy (f : AudioFeatures) (e : Q) : AudioFeatures :=
  {| energy := e; tempo := tempo f; danceability := danceability f;
     acousticness := acousticness f; instrumentalness := instrumentalness f;
     valence := valence f |}.

(** In a sorted array [a] may stand before [b]: the comparator does not
    put [b] first. *)
Definition inOrder {A} (before : A -> A -> bool) (a b : A) : Prop :=
  before b a = false.

(** The points a track without features gets besides its genre score. *)
Definition popularityPoints (t : Track) : Q :=
  (inject_Z (popularityOr0 t) / 10 + (if 70 <? popularityOr0 t then 20 else 0))%Q.

(** * Sample data *)

Definition sampleTrack (trackId : string) (pop : Z) (trackGenres : option (list string))
    : Track :=
  {| id := trackId; name := "Song " +:+ trackId; artists := ["Artist"];
     uri := "spotify:track:" +:+ trackId; duration_ms := Some 180000;
     popularity := Some pop; features := None; extractedGenres := trackGenres |}.

Definition sampleFeatures : AudioFeatures :=
  {| energy := 5 # 10; tempo := 120; danceability := 6 # 10;
     acousticness := 2 # 10; instrumentalness := 0; valence := 7 # 10 |}.

Definition sampleAnalysis : PromptAnalysis :=
  {| genres := ["rock"];
     moods := ["energetic"];
     energy_range := (7 # 10, 9 # 10)%Q;
     tempo_range := (120, 160)%Q;
     danceability_range := (5 # 10, 1)%Q;
     acousticness_range := (0, 3 # 10)%Q;
     instrumentalness_range := (0, 5 # 10)%Q;
     valence_range := (5 # 10, 1)%Q;
     description := "Upbeat workout songs";
     filter_logic := "Prioritize high ENERGY and tempo";
     popularity_level := "any" |}.

(** * Reasoning about programs *)

(** Whatever the world answers, every call the program makes satisfies [P]. *)
Inductive Calls (P : Event -> Prop) {A : Type} : Prog A -> Prop :=
  | Calls_Ret (a : A) : Calls P (Ret a)
  | Calls_Throw (error : string) : Calls P (Throw error)
  | Calls_Vis {X : Type} (c : Call X) (k : X -> Prog A) :
      P (event c) -> (forall x, Calls P (k x)) -> Calls P (Vis c k).

(** [x] is an answer the world [w] can give to the call [c]. *)
Definition Answer {S X} (w : World S) (c : Call X) (x : X) : Prop :=
  exists s m, (step w c s m).1.1 = x.

(** From every state, the program [p] in the world [w] returns a value and
    a trace that satisfy [Q], or throws an error with a trace that satisfy [E]. *)
Definition Triple {S A} (w : World S) (p : Prog A)
    (Q : A -> list Event -> Prop) (E : string -> list Event -> Prop) : Prop :=
  forall s m,
    match outcome (run w p s m) with
    | Returned a => Q a (trace (run w p s m))
    | Thrown error => E error (trace (run w p s m))
    end.

(** The program returns, with [Q]. *)
Definition Ensures {S A} (w : World S) (p : Prog A)
    (Q : A -> list Event -> Prop) : Prop :=
  Triple w p Q (fun _ _ => False).

Definition isGetRecommendations (e : Event) : Prop :=
  match projT2 e with
  | GetRecommendations _ _ _ => True
  | _ => False
  end.

(** The selection [s] with the recommendations flag set to [b]. *)
Definition withRecommendations (s : PlaylistSources) (b : bool) : PlaylistSources :=
  {| useLikedSongs := useLikedSongs s; useTopTracks := useTopTracks s;
     useRecommendations := b; playlists := playlists s |}.

(** The call is not an invocation of getRecommendations. *)
Definition notRecommendations (e : Event) : Prop := ~ isGetRecommendations e.

(** The program throws in no world. *)
Inductive Safe {A : Type} : Prog A -> Prop :=
  | Safe_Ret (a : A) : Safe (Ret a)
  | Safe_Vis {X : Type} (c : Call X) (k : X -> Prog A) :
      (forall x, Safe (k x)) -> Safe (Vis c k).

(** The default analysis, field by field. *)
Definition IsDefaultAnalysis (a : PromptAnalysis) : Prop :=
  genres a = []
  /\ moods a = ["general"]
  /\ energy_range a = (0, 1)%Q
  /\ tempo_range a = (0, 300)%Q
  /\ danceability_range a = (0, 1)%Q
  /\ acousticness_range a = (0, 1)%Q
  /\ instrumentalness_range a = (0, 1)%Q
  /\ valence_range a = (0, 1)%Q
  /\ description a = "General playlist based on popular tracks"
  /\ filter_logic a = "Sort by popularity as fallback"
  /\ popularity_level a = "medium".

(** The description the analyzer returns for the model's description [d]. *)
Definition spec_description (d : string) : string :=
  if (100 <? String.length d)%nat then String.substring 0 97 d +:+ "..." else d.

(** [a] is the model's answer [llm] with each missing field taken from the
    defaults, and the description cut to 100 characters. *)
Definition Backfilled (llm : LLMAnalysis) (a : PromptAnalysis) : Prop :=
  genres a = default [] (llm_genres llm)
  /\ moods a = default ["general"] (llm_moods llm)
  /\ energy_range a = default (0, 1)%Q (llm_energy_range llm)
  /\ tempo_range a = default (0, 300)%Q (llm_tempo_range llm)
  /\ danceability_range a = default (0, 1)%Q (llm_danceability_range llm)
  /\ acousticness_range a = default (0, 1)%Q (llm_acousticness_range llm)
  /\ instrumentalness_range a = default (0, 1)%Q (llm_instrumentalness_range llm)
  /\ valence_range a = default (0, 1)%Q (llm_valence_range llm)
  /\ description a
     = default "General playlist based on popular tracks"
               (spec_description <$> llm_description llm)
  /\ filter_logic a = default "Sort by popularity as fallback" (llm_filter_logic llm)
  /\ popularity_level a = default "medium" (llm_popularity_level llm)
  /\ (String.length (description a) <= 100
      \/ llm_description llm = None)%nat.

(** A sample world and a stand-in for [JSON.parse] that knows two
    answers of the model.  The world's state is the clock, which advances by a second at
    every reading; the listings hold a few tracks, one of them both liked
    and in the playlists; the batch lookup of features is refused and the
    single lookup knows the track a only. *)

Definition emptyLLMAnalysis : LLMAnalysis :=
  {| llm_genres := None; llm_moods := None; llm_energy_range := None;
     llm_tempo_range := None; llm_danceability_range := None;
     llm_acousticness_range := None; llm_instrumentalness_range := None;
     llm_valence_range := None; llm_description := None;
     llm_filter_logic := None; llm_popularity_level := None |}.

Definition sampleParse (content : string) : option LLMAnalysis :=
  if String.eqb content "{}" then Some emptyLLMAnalysis
  else if String.eqb content "{genres:[rock]}"
  then Some {| llm_genres := Some ["rock"]; llm_moods := None;
               llm_energy_range := None; llm_tempo_range := None;
               llm_danceability_range := None; llm_acousticness_range := None;
               llm_instrumentalness_range := None; llm_valence_range := None;
               llm_description := None; llm_filter_logic := None;
               llm_popularity_level := None |}
  else None.

Definition sampleItems (e : Endpoint) : list (itemOf e) :=
  match e return list (itemOf e) with
  | SavedTracks => [sampleTrack "a" 10 None; sampleTrack "b" 90 None]
  | TopTracks _ => [sampleTrack "b" 91 None; sampleTrack "c" 5 None]
  | PlaylistTracks _ => [Some (sampleTrack "a" 11 None); None;
                         Some (sampleTrack "d" 30 None)]
  end.

Definition samplePlaylist : SpotifyPlaylist :=
  {| playlist_id := "PL1"; playlist_image := None; playlist_external_url := None |}.

Definition sampleWorld (hasTracks : bool) (addAnswer : FetchResult unit) : World Z :=
  fun X c clock =>
    match c in Call X return X * Z with
    | Now => (clock, clock + 1000)
    | ConsoleError _ => (tt, clock)
    | MapGet _ => (None, clock)
    | MapSet _ _ => (tt, clock)
    | MapDelete _ => (tt, clock)
    | OpenAIChat _ => (LLMCompletion [Some "{}"], clock)
    | FetchAllPages e _ _ _ => (if hasTracks then sampleItems e else [], clock)
    | FetchLimitedItems e _ _ => (if hasTracks then sampleItems e else [], clock)
    | GetAvailableGenreSeeds _ => (["rock"; "pop"], clock)
    | GetRecommendations _ _ _ => ([], clock)
    | FetchMyPlaylists _ => (Rejected "network", clock)
    | FetchCreatePlaylist _ _ _ _ => (RespOk (Some samplePlaylist), clock)
    | FetchAudioFeatures _ _ => (RespNotOk 403 "Forbidden" None, clock)
    | FetchTrackFeatures _ trackId =>
        (if String.eqb trackId "a" then RespOk (Some sampleFeatures)
         else RespNotOk 404 "Not Found" None, clock)
    | FetchAddTracks _ _ _ => (addAnswer, clock)
    | PlaylistCreate _ => (false, clock)
    end.

Definition sampleSources : PlaylistSources :=
  {| useLikedSongs := true; useTopTracks := true;
     useRecommendations := true; playlists := ["p1"] |}.

Definition sampleRequest : GenerateRequest :=
  {| req_prompt := Some "upbeat workout songs"; req_name := None;
     req_description := None; req_sources := Some sampleSources;
     req_processingMode := Some quick; req_targetTrackCount := Some 3%nat;
     req_accessToken := Some "token"; req_userId := Some "user" |}.

(** * The collector in two parts, for the statement of its properties *)

(** Steps 1 to 3 of collectTracks: the tracks pushed onto [allTracks] by
    the selected sources, in order, with the progress state reached. *)
Definition gatherTracks (accessToken : string) (sources : PlaylistSources)
    (processingMode : ProcessingMode)
    (progressCallback : option (ProcessingProgress -> Prog unit))
    : Prog (list Track * ProcessingProgress) :=
  let config := PROCESSING_CONFIGS processingMode in
  let allTracks : list Track := [] in
  let currentProgress :=
    {| stage := "collecting"; progress := 0;
       message := "Starting track collection...";
       remainingTimeEstimate := 60 |} in
  r ← (if useLikedSongs sources then
         currentProgress ← updateProgress progressCallback "collecting" 10
                             "Fetching your liked songs..." currentProgress;
         likedSongs ← fetchLikedSongs accessToken config;
         mret (allTracks ++ likedSongs, currentProgress)
       else mret (allTracks, currentProgress));
  let allTracks := fst r in
  let currentProgress := snd r in
  r ← (if useTopTracks sources then
         currentProgress ← updateProgress progressCallback "collecting" 30
                             "Fetching your top tracks..." currentProgress;
         topTracks ← fetchTopTracks accessToken config;
         mret (allTracks ++ topTracks, currentProgress)
       else mret (allTracks, currentProgress));
  let allTracks := fst r in
  let currentProgress := snd r in
  match playlists sources with
  | [] => mret (allTracks, currentProgress)
  | _ :: _ =>
      currentProgress ← updateProgress progressCallback "collecting" 40
                          "Fetching tracks from your playlists..." currentProgress;
      let playlistTracksProgress (progress : Z) (current : ProcessingProgress) :=
        updateProgress progressCallback "collecting"
          (40 + Qfloor (inject_Z progress * (4 # 10)))
          ("Fetching playlist tracks: " +:+ pretty progress +:+ "% complete")
          current in
      r ← fetchSelectedPlaylistTracks accessToken (playlists sources) config
            (Some playlistTracksProgress) currentProgress;
      mret (allTracks ++ fst r, snd r)
  end.

(** Steps 4 and 5 of collectTracks, and its return. *)
Definition finishCollect (config : ProcessingConfig)
    (progressCallback : option (ProcessingProgress -> Prog unit))
    (r : list Track * ProcessingProgress) : Prog (list Track) :=
  let allTracks := fst r in
  let currentProgress := snd r in
  currentProgress ← updateProgress progressCallback "processing" 85
                      "Removing duplicate tracks..." currentProgress;
  let uniqueTracks := uniqueById allTracks in
  r ← (if poolCap config uniqueTracks then
         currentProgress ← updateProgress progressCallback "processing" 90
                             "Sampling tracks to optimal size..." currentProgress;
         mret (take (Z.to_nat (targetPoolSize config)) uniqueTracks, currentProgress)
       else mret (uniqueTracks, currentProgress));
  let resultTracks := fst r in
  let currentProgress := snd r in
  updateProgress progressCallback "complete" 100 "Track collection complete"
    currentProgress;;
  mret resultTracks.

(** The pool made of the gathered tracks. *)
Definition poolOf (config : ProcessingConfig) (allTracks : list Track) : list Track :=
  let uniqueTracks := uniqueById allTracks in
  if poolCap config uniqueTracks
  then take (Z.to_nat (targetPoolSize config)) uniqueTracks
  else uniqueTracks.

(** Liked songs and one playlist, which share the track of id a. *)
Definition likedAndPlaylist : PlaylistSources :=
  {| useLikedSongs := true; useTopTracks := false;
     useRecommendations := false; playlists := ["p1"] |}.

(** * The generate-playlist route: what a response says *)

(** The playlist of a success response. *)
Definition createdPlaylist (response : HttpResponse) : option GeneratedPlaylist :=
  match body response with
  | CreatedBody _ playlist _ _ => Some playlist
  | _ => None
  end.

(** The response reports success, 201, with the playlist [playlist] and
    the tracks [tracks]. *)
Definition ReportsCreated (playlist : SpotifyPlaylist) (response : HttpResponse)
    (tracks : list ResponseTrack) : Prop :=
  status response = 201
  /\ exists created,
       createdPlaylist response = Some created
       /\ gen_id created = playlist_id playlist
       /\ gen_tracks created = tracks.

(** The failure to add the tracks was written to the console. *)
Definition AddFailureLogged (t : list Event) : Prop :=
  exists errorData,
    event (ConsoleError ("Failed to add tracks to playlist: " +:+ errorData)) ∈ t.

(** The request passes the route's checks: a prompt, a token, a user id. *)
Definition ValidRequest (req : GenerateRequest) (prompt accessToken userId : string)
    : Prop :=
  truthy (req_prompt req) = Some prompt
  /\ truthy (req_accessToken req) = Some accessToken
  /\ truthy (req_userId req) = Some userId.

(** The world creates the playlist [playlist] whenever it is asked to. *)
Definition CreatesPlaylist {S} (w : World S) (playlist : SpotifyPlaylist) : Prop :=
  forall userId accessToken name description x,
    Answer w (FetchCreatePlaylist userId accessToken name description) x ->
    x = RespOk (Some playlist).

(** The world answers every request to add tracks with a response that is
    not ok, its body an error that can be read. *)
Definition RefusesTracks {S} (w : World S) : Prop :=
  forall playlistId accessToken uris x,
    Answer w (FetchAddTracks playlistId accessToken uris) x ->
    exists status statusText errorData,
      x = RespNotOk status statusText (Some errorData).

(** Every listing of the world is empty. *)
Definition NoTracks {S} (w : World S) : Prop :=
  (forall e accessToken pageLimit delay x,
      Answer w (FetchAllPages e accessToken pageLimit delay) x -> x = [])
  /\ (forall e accessToken limit x,
        Answer w (FetchLimitedItems e accessToken limit) x -> x = []).

(** * Further properties: definitions

    Predicates used below to state what the functions of the pipeline
    guarantee on every input. *)

(** A normalised quantity lies between 0 and 1. *)
Definition InUnit (x : Q) : Prop := (0 <= x /\ x <= 1)%Q.

Definition UnitRange (range : Q * Q) : Prop := InUnit (fst range) /\ InUnit (snd range).

(** The five features the catalogue reports on a scale from 0 to 1. *)
Definition NormalisedFeatures (f : AudioFeatures) : Prop :=
  InUnit (energy f) /\ InUnit (danceability f) /\ InUnit (acousticness f)
  /\ InUnit (instrumentalness f) /\ InUnit (valence f).

(** The ranges the analysis gives for them. *)
Definition NormalisedRanges (analysis : PromptAnalysis) : Prop :=
  UnitRange (energy_range analysis) /\ UnitRange (danceability_range analysis)
  /\ UnitRange (acousticness_range analysis)
  /\ UnitRange (instrumentalness_range analysis)
  /\ UnitRange (valence_range analysis).

(** A score of one dimension lies between 0 and 10. *)
Definition DimensionPoints (x : Q) : Prop := (0 <= x /\ x <= 10)%Q.

(** From every store that satisfies [P], the program returns a value and
    leaves a store that satisfy [Q], or throws and leaves a store that
    satisfies [E]. *)
Definition Hoare {S A} (w : World S) (P : gmap string ProgressEntry -> Prop)
    (p : Prog A) (Q : A -> gmap string ProgressEntry -> Prop)
    (E : string -> gmap string ProgressEntry -> Prop) : Prop :=
  forall s m,
    P m ->
    match outcome (run w p s m) with
    | Returned a => Q a (store (run w p s m))
    | Thrown error => E error (store (run w p s m))
    end.

(** The entry says: this stage, at this percentage, with this message, for
    this processing mode. *)
Definition Records (entry : ProgressEntry) (theStage : string) (percent : Z)
    (text mode : string) : Prop :=
  stage (entryProgress entry) = theStage
  /\ progress (entryProgress entry) = percent
  /\ message (entryProgress entry) = text
  /\ processingMode entry = mode.

(** The answers of the generate-playlist route: the two refusals, the
    failure of the catalogue to create the playlist passed on with its
    status, the failure of anything else, and success. *)
Inductive RouteAnswer : HttpResponse -> Prop :=
  | Answer_noPrompt :
      RouteAnswer {| status := 400; body := MessageBody "Prompt is required" |}
  | Answer_noAuthentication :
      RouteAnswer {| status := 401; body := MessageBody "Authentication required" |}
  | Answer_notCreated (upstream : Z) (errorData : string) :
      RouteAnswer {| status := upstream;
                     body := FailureBody "Failed to create playlist" errorData |}
  | Answer_failed (error : string) :
      RouteAnswer {| status := 500;
                     body := FailureBody "Failed to generate AI playlist" error |}
  | Answer_created (text : string) (created : GeneratedPlaylist)
      (stats : ProcessingStats) :
      RouteAnswer {| status := 201;
                     body := CreatedBody text created stats (gen_id created) |}.

(** The id under which a success response tells the client to follow the
    playlist. *)
Definition refinementId (response : HttpResponse) : option string :=
  match body response with
  | CreatedBody _ _ _ playlistId => Some playlistId
  | _ => None
  end.

(** What a success response says about the selection: no more tracks than
    asked for, with the count reported; and either the selection is by
    audio features, which some analyzed track has, or it is by popularity,
    no analyzed track has features and no selected track carries a score. *)
Definition SelectionReport (target : nat) (created : GeneratedPlaylist)
    (stats : ProcessingStats) : Prop :=
  (length (gen_tracks created) <= target)%nat
  /\ stats_tracksSelected stats = length (gen_tracks created)
  /\ (stats_tracksWithFeatures stats <= stats_tracksAnalyzed stats)%nat
  /\ ((stats_selectionMethod stats = "audio_features"
       /\ stats_audioFeaturesStatus stats = "available"
       /\ (0 < stats_tracksWithFeatures stats)%nat)
      \/ (stats_selectionMethod stats = "popularity"
          /\ stats_audioFeaturesStatus stats = "unavailable"
          /\ stats_tracksWithFeatures stats = 0%nat
          /\ Forall (fun t => rt_score t = None /\ rt_scoreDetails t = None)
                    (gen_tracks created))).

(** The call reads tracks or their features from the catalogue, adds tracks
    to a playlist, or saves a playlist to the database. *)
Definition touchesTracks (e : Event) : Prop :=
  match projT2 e with
  | FetchAllPages _ _ _ _ | FetchLimitedItems _ _ _
  | FetchAudioFeatures _ _ | FetchTrackFeatures _ _
  | FetchAddTracks _ _ _ | PlaylistCreate _ => True
  | _ => False
  end.

Definition leavesTracks (e : Event) : Prop := ~ touchesTracks e.

(** The world refuses every request to create a playlist, with this status
    and this error. *)
Definition RefusesPlaylist {S} (w : World S) (upstream : Z) (errorData : string) : Prop :=
  forall userId accessToken name description x,
    Answer w (FetchCreatePlaylist userId accessToken name description) x ->
    exists statusText, x = RespNotOk upstream statusText (Some errorData).

(** The sample world, but with a catalogue that refuses to create
    playlists. *)
Definition refusingWorld : World Z :=
  fun X c clock =>
    match c in Call X return X * Z with
    | FetchCreatePlaylist _ _ _ _ =>
        (RespNotOk 403 "Forbidden" (Some "Insufficient client scope"), clock)
    | c' => sampleWorld true (RespOk (Some tt)) _ c' clock
    end.

(** The playlist whose tracks a call reads, and the playlists read in the
    course of a run, in order. *)
Definition playlistRead (e : Event) : option string :=
  match projT2 e with
  | FetchAllPages (PlaylistTracks playlistId) _ _ _ => Some playlistId
  | FetchLimitedItems (PlaylistTracks playlistId) _ _ => Some playlistId
  | _ => None
  end.

Definition playlistsRead (t : list Event) : list string := omap playlistRead t.

Definition readsNoPlaylist (e : Event) : Prop := playlistRead e = None.

(** The percentage a call writes to the progress map, and the percentages
    written in the course of a run, in order. *)
Definition percentWritten (e : Event) : option Z :=
  match projT2 e with
  | MapSet _ entry => Some (progress (entryProgress entry))
  | _ => None
  end.

Definition percentsWritten (t : list Event) : list Z := omap percentWritten t.

Definition writesNoPercent (e : Event) : Prop := percentWritten e = None.

(** The callback the generate-playlist route hands to the collector. *)
Definition routeCallback (playlistId mode : string)
    : option (ProcessingProgress -> Prog unit) :=
  Some (fun p => updatePlaylistProgress playlistId (stage p) (progress p) (message p) mode).

(** The percentages climb from [lo] to [hi]: they never decrease and lie
    between the two. *)
Definition Climbs (lo hi : Z) (percents : list Z) : Prop :=
  Sorted Z.le percents /\ Forall (fun x => lo <= x <= hi) percents.

(** The percentages climb from [lo] and end at 100. *)
Definition ClimbsTo100 (lo : Z) (percents : list Z) : Prop :=
  Climbs lo 100 percents /\ last percents = Some 100.

(** The track without its features. *)
Definition withoutFeatures (t : Track) : Track := withFeatures t None.

(** The catalogue answers every batch request for audio features with an
    array of features. *)
Definition AnswersFeatures {S} (w : World S) : Prop :=
  forall accessToken trackIds x,
    Answer w (FetchAudioFeatures accessToken trackIds) x ->
    exists entries, x = RespOk (Some (Some entries)).

(** The sample world, but with a catalogue that knows the features of the
    track a. *)
Definition featuresWorld : World Z :=
  fun X c clock =>
    match c in Call X return X * Z with
    | FetchAudioFeatures _ _ =>
        (RespOk (Some (Some [None; Some ("a", sampleFeatures)])), clock)
    | c' => sampleWorld true (RespOk (Some tt)) _ c' clock
    end.

(** * The estimate route and the helpers of the pipeline *)

(** ** formatTime

    [seconds] is a whole number, the rounded estimate.  [Math.floor(a / b)]
    is the floored quotient [a / b] and [a % b] the remainder [Z.rem a b];
    a number in a template is written in decimal. *)
Definition formatTime (seconds : Z) : string :=
  if seconds <? 60 then pretty seconds +:+ " seconds"
  else if seconds <? 3600 then
    let minutes := seconds / 60 in
    let remainingSeconds := Z.rem seconds 60 in
    pretty minutes +:+ " minute" +:+ (if negb (minutes =? 1) then "s" else "")
    +:+ " " +:+ pretty remainingSeconds +:+ " second"
    +:+ (if negb (remainingSeconds =? 1) then "s" else "")
  else
    let hours := seconds / 3600 in
    let minutes := Z.rem seconds 3600 / 60 in
    pretty hours +:+ " hour" +:+ (if negb (hours =? 1) then "s" else "")
    +:+ " " +:+ pretty minutes +:+ " minute"
    +:+ (if negb (minutes =? 1) then "s" else "").

(** No character of the string is a space. *)
Fixpoint NoSpace (s : string) : Prop :=
  match s with
  | EmptyString => True
  | String c s' => c <> " "%char /\ NoSpace s'
  end.

(** ** Requests of the helpers

    The pipeline calls getAvailableGenreSeeds, getRecommendations,
    fetchAllPages and fetchLimitedItems as wholes.  Here are these
    functions themselves, the middleware and the estimate route, as programs
    over the requests they send. *)

(** A page of a listing: [items] may be missing, [next] is the address of
    the next page or [null]. *)
Record Page (A : Type) := {
  page_items : option (list A);
  page_next : option string
}.
Arguments page_items {A} p.
Arguments page_next {A} p.

(** An entry of [/v1/me/playlists], with the fields the estimate route
    reads. *)
Record PlaylistItem := {
  item_id : string;
  item_name : string;
  item_description : option string;
  item_total : option N;             (* tracks?.total *)
  item_image : option string;        (* images?.[0]?.url *)
  item_collaborative : bool;
  item_public : option bool
}.

(** A value of a query parameter: a text, or a number before it is
    written out. *)
Inductive QueryValue :=
  | Text (s : string)
  | Number (q : Q).

Inductive Request : Type -> Type :=
  | DateNow : Request Z
  | LogError (what : string) : Request unit
  | FetchGenreSeeds (accessToken : string)
      : Request (FetchResult (option (list string)))      (* data.genres *)
  | FetchRecommendations (accessToken : string) (query : list (string * QueryValue))
      : Request (FetchResult (option (list Track)))       (* data.tracks *)
  | FetchProfile (accessToken : string)
      : Request (FetchResult (option string))             (* userData.id *)
  | FetchPage (e : Endpoint) (url accessToken : string)
      : Request (FetchResult (Page (itemOf e)))
  | FetchPlaylistItems (accessToken : string)
      : Request (FetchResult (list PlaylistItem)).        (* data.items || [] *)

Inductive Task (A : Type) : Type :=
  | Done (a : A)
  | Fail (error : string)
  | Ask {X : Type} (r : Request X) (k : X -> Task A).
Arguments Done {A} a.
Arguments Fail {A} error.
Arguments Ask {A X} r k.

Fixpoint andThen {A B} (p : Task A) (f : A -> Task B) : Task B :=
  match p with
  | Done a => f a
  | Fail error => Fail error
  | Ask r k => Ask r (fun x => andThen (k x) f)
  end.

(** [try { p } catch (error) { handler error }] *)
Fixpoint attempt {A} (p : Task A) (handler : string -> Task A) : Task A :=
  match p with
  | Done a => Done a
  | Fail error => handler error
  | Ask r k => Ask r (fun x => attempt (k x) handler)
  end.

Definition ask {X} (r : Request X) : Task X := Ask r Done.

#[global] Instance Task_ret : MRet Task := @Done.
#[global] Instance Task_bind : MBind Task := fun A B f p => andThen p f.

(** The outside answers the requests from a state of its own. *)
Definition Server (S : Type) : Type := forall X, Request X -> S -> X * S.

(** A request that was sent. *)
Definition Sent : Type := { X : Type & Request X }.
Definition sent {X} (r : Request X) : Sent := existT X r.

Record Performed (S A : Type) := {
  result : Outcome A;
  server : S;
  requests : list Sent
}.
Arguments result {S A} p.
Arguments server {S A} p.
Arguments requests {S A} p.

Fixpoint perform {S A} (w : Server S) (p : Task A) (s : S) : Performed S A :=
  match p with
  | Done a => {| result := Returned a; server := s; requests := [] |}
  | Fail error => {| result := Thrown error; server := s; requests := [] |}
  | Ask r k =>
      let (x, s') := w _ r s in
      let rest := perform w (k x) s' in
      {| result := result rest; server := server rest;
         requests := sent r :: requests rest |}
  end.

(** ** getAvailableGenreSeeds

    The two variables of the module that hold the cache are a state passed
    in and out. *)

Record GenreSeedsCache := {
  genreSeedsCache : list string;
  genreSeedsCacheTime : Z
}.

Definition emptyGenreSeedsCache : GenreSeedsCache :=
  {| genreSeedsCache := []; genreSeedsCacheTime := 0 |}.

Definition getAvailableGenreSeeds (accessToken : string) (cache : GenreSeedsCache)
    : Task (list string * GenreSeedsCache) :=
  let cacheValidityPeriod := 24 * 60 * 60 * 1000 in
  cached ←
    match genreSeedsCache cache with
    | [] => mret false
    | _ :: _ =>
        now ← ask DateNow;
        mret (now - genreSeedsCacheTime cache <? cacheValidityPeriod)
    end;
  if (cached : bool) then mret (genreSeedsCache cache, cache)
  else
    attempt
      (response ← ask (FetchGenreSeeds accessToken);
       match response with
       | Rejected message => Fail message
       | RespNotOk _ statusText _ =>
           Fail ("Failed to get genre seeds: " +:+ statusText)
       | RespOk None => Fail "response.json() rejected"
       | RespOk (Some data) =>
           let genres := default [] data in
           now ← ask DateNow;
           let cache := {| genreSeedsCache := genres; genreSeedsCacheTime := now |} in
           mret (genreSeedsCache cache, cache)
       end)
      (fun error =>
         ask (LogError ("Error fetching genre seeds: " +:+ error));;
         mret ([], cache)).

(** ** getRecommendations *)

Record Seeds := {
  seed_genres : list string;
  seed_tracks : list string;
  seed_artists : list string
}.

(** [arr.slice(from, to)] for [0 <= from]. *)
Definition slice {A} (from to : nat) (arr : list A) : list A :=
  take (to - from) (drop from arr).

(** The choice of the seeds, at most [maxSeeds] in all. *)
Definition chooseSeeds (seedGenres seedTracks seedArtists : list string) : Seeds :=
  let maxSeeds := 5%nat in
  let usedSeeds := 0%nat in
  let genres : list string := [] in
  let tracks : list string := [] in
  let artists : list string := [] in
  (* first up to 2 tracks *)
  let '(tracks, usedSeeds) :=
    if (0 <? length seedTracks)%nat then
      let tracksToUse := slice 0 (Nat.min 2 (maxSeeds - usedSeeds)) seedTracks in
      (tracksToUse, (usedSeeds + length tracksToUse)%nat)
    else (tracks, usedSeeds) in
  (* then up to 1 artist *)
  let '(artists, usedSeeds) :=
    if ((0 <? length seedArtists)%nat && (usedSeeds <? maxSeeds)%nat)%bool then
      let artistsToUse := slice 0 (Nat.min 1 (maxSeeds - usedSeeds)) seedArtists in
      (artistsToUse, (usedSeeds + length artistsToUse)%nat)
    else (artists, usedSeeds) in
  (* the remaining slots go to genres *)
  let '(genres, usedSeeds) :=
    if ((0 <? length seedGenres)%nat && (usedSeeds <? maxSeeds)%nat)%bool then
      let genresToUse := slice 0 (maxSeeds - usedSeeds) seedGenres in
      (genresToUse, (usedSeeds + length genresToUse)%nat)
    else (genres, usedSeeds) in
  (* without genres, more artists *)
  let '(artists, usedSeeds) :=
    if ((length genres =? 0)%nat && (length artists <? length seedArtists)%nat
        && (usedSeeds <? maxSeeds)%nat)%bool then
      let additionalArtists :=
        slice (length artists) (length artists + (maxSeeds - usedSeeds)) seedArtists in
      (artists ++ additionalArtists, (usedSeeds + length additionalArtists)%nat)
    else (artists, usedSeeds) in
  (* if there is still space, more tracks *)
  let tracks :=
    if ((usedSeeds <? maxSeeds)%nat && (length tracks <? length seedTracks)%nat)%bool then
      let additionalTracks :=
        slice (length tracks) (length tracks + (maxSeeds - usedSeeds)) seedTracks in
      tracks ++ additionalTracks
    else tracks in
  (* with no seed at all, a default genre *)
  let genres :=
    if ((length genres =? 0)%nat && (length tracks =? 0)%nat
        && (length artists =? 0)%nat)%bool
    then ["pop"] else genres in
  {| seed_genres := genres; seed_tracks := tracks; seed_artists := artists |}.

(** [seedParams.append(key, values.join(','))] when there are values. *)
Definition seedParam (key : string) (values : list string)
    : list (string * QueryValue) :=
  match values with
  | [] => []
  | _ :: _ => [(key, Text (String.concat "," values))]
  end.

(** The parameters that bound the popularity. *)
Definition popularityParams (audioFeatures : PromptAnalysis)
    : list (string * QueryValue) :=
  if negb (String.eqb (popularity_level audioFeatures) "") then
    let level := toLowerCase (popularity_level audioFeatures) in
    if String.eqb level "high" then [("min_popularity", Text "70")]
    else if String.eqb level "medium"
    then [("min_popularity", Text "40"); ("max_popularity", Text "80")]
    else if String.eqb level "low" then [("max_popularity", Text "40")]
    else []
  else
    let filterLogic := toLowerCase (filter_logic audioFeatures) in
    if (includes filterLogic "popular" || includes filterLogic "mainstream")%bool
    then [("min_popularity", Text "70")]
    else if (includes filterLogic "obscure" || includes filterLogic "underground")%bool
    then [("max_popularity", Text "30")]
    else [].

(** The query of the request, in the order of the appends. *)
Definition recommendationQuery (seeds : Seeds) (audioFeatures : PromptAnalysis)
    (limit : Z) : list (string * QueryValue) :=
  let lower (range : Q * Q) := Number (Qmax 0 (fst range * (8 # 10))) in
  let upper (range : Q * Q) := Number (Qmin 1 (snd range * (12 # 10))) in
  seedParam "seed_genres" (seed_genres seeds)
  ++ seedParam "seed_tracks" (seed_tracks seeds)
  ++ seedParam "seed_artists" (seed_artists seeds)
  ++ [("limit", Number (inject_Z limit));
      ("target_energy", Number (midpoint (energy_range audioFeatures)));
      ("target_danceability", Number (midpoint (danceability_range audioFeatures)));
      ("target_acousticness", Number (midpoint (acousticness_range audioFeatures)));
      ("target_instrumentalness",
       Number (midpoint (instrumentalness_range audioFeatures)));
      ("target_valence", Number (midpoint (valence_range audioFeatures)));
      ("min_energy", lower (energy_range audioFeatures));
      ("min_danceability", lower (danceability_range audioFeatures));
      ("min_acousticness", lower (acousticness_range audioFeatures));
      ("min_instrumentalness", lower (instrumentalness_range audioFeatures));
      ("min_valence", lower (valence_range audioFeatures));
      ("max_energy", upper (energy_range audioFeatures));
      ("max_danceability", upper (danceability_range audioFeatures));
      ("max_acousticness", upper (acousticness_range audioFeatures));
      ("max_instrumentalness", upper (instrumentalness_range audioFeatures));
      ("max_valence", upper (valence_range audioFeatures))]
  ++ (if Qgtb (fst (tempo_range audioFeatures)) 0
      then [("min_tempo", Number (Qmax 0 (fst (tempo_range audioFeatures) * (8 # 10))))]
      else [])
  ++ (if Qgtb 300 (snd (tempo_range audioFeatures))
      then [("max_tempo",
             Number (Qmin 300 (snd (tempo_range audioFeatures) * (12 # 10))))]
      else [])
  ++ popularityParams audioFeatures.

Definition getRecommendations (accessToken : string) (seedGenres : list string)
    (audioFeatures : PromptAnalysis) (limit : Z) (seedTracks seedArtists : list string)
    : Task (list Track) :=
  attempt
    (let seeds := chooseSeeds seedGenres seedTracks seedArtists in
     let seedParams := recommendationQuery seeds audioFeatures limit in
     response ← ask (FetchRecommendations accessToken seedParams);
     match response with
     | Rejected message => Fail message
     | RespNotOk _ statusText _ =>
         Fail ("Failed to get recommendations: " +:+ statusText)
     | RespOk None => Fail "response.json() rejected"
     | RespOk (Some data) => mret (default [] data)
     end)
    (fun error =>
       ask (LogError ("Error getting recommendations: " +:+ error));;
       mret []).

(** ** fetchLimitedItems and fetchAllPages

    [e] tells what the listing at the address lists. *)

Definition fetchLimitedItems (e : Endpoint) (accessToken url : string) (limit : Z)
    : Task (list (itemOf e)) :=
  attempt
    (let apiUrl :=
       if includes url "?" then url +:+ "&limit=" +:+ pretty limit
       else url +:+ "?limit=" +:+ pretty limit in
     response ← ask (FetchPage e apiUrl accessToken);
     match response with
     | Rejected message => Fail message
     | RespNotOk status statusText _ =>
         Fail ("API error: " +:+ pretty status +:+ " - " +:+ statusText)
     | RespOk None => Fail "response.json() rejected"
     | RespOk (Some data) => mret (default [] (page_items data))
     end)
    (fun error =>
       ask (LogError ("Error fetching limited items: " +:+ error));;
       mret []).

(** How one round of the loop of fetchAllPages ends. *)
Inductive PageStep (A : Type) :=
  | Break
  | Continue (results : list A) (nextUrl : option string).
Arguments Break {A}.
Arguments Continue {A} results nextUrl.

(** The [while (nextUrl)] loop, for at most [fuel] rounds: [None] when the
    rounds are used up and the listing goes on.  The wait of [delay]
    milliseconds between two rounds has no part in the result and is left
    out. *)
Fixpoint fetchAllPagesLoop (e : Endpoint) (accessToken : string) (fuel : nat)
    (nextUrl : option string) (results : list (itemOf e))
    : Task (option (list (itemOf e))) :=
  match truthy nextUrl with
  | None => mret (Some results)
  | Some url =>
      match fuel with
      | O => mret None
      | S fuel =>
          step ←
            attempt
              (response ← ask (FetchPage e url accessToken);
               match response with
               | Rejected message => Fail message
               | RespNotOk status statusText _ =>
                   ask (LogError ("API error: " +:+ pretty status +:+ " - "
                                  +:+ statusText));;
                   mret Break
               | RespOk None => Fail "response.json() rejected"
               | RespOk (Some data) =>
                   let results :=
                     match page_items data with
                     | Some items => results ++ items
                     | None => results
                     end in
                   mret (Continue results (page_next data))
               end)
              (fun error =>
                 ask (LogError ("Error fetching paginated data: " +:+ error));;
                 mret Break);
          match step with
          | Break => mret (Some results)
          | Continue results nextUrl =>
              fetchAllPagesLoop e accessToken fuel nextUrl results
          end
      end
  end.

(** fetchAllPages (the name is taken by the field of the configuration). *)
Definition fetchAllPagesOf (e : Endpoint) (accessToken initialUrl : string) (fuel : nat)
    : Task (option (list (itemOf e))) :=
  fetchAllPagesLoop e accessToken fuel (Some initialUrl) [].

(** ** setupSpotifyClient *)

(** What the middleware reads of a request: the authorization header, and
    the access token of the session's user when there is a session. *)
Record AuthRequest := {
  auth_header : option string;
  auth_session : option (option string)
}.

(** What the middleware does: it calls [next], having set
    [req.accessToken] and [req.userId], or it answers. *)
Inductive Passed :=
  | Next (accessToken userId : option string)
  | Answered (response : HttpResponse).

(** [authHeader && authHeader.startsWith('Bearer ')], and then
    [authHeader.substring(7)]. *)
Definition bearerToken (authHeader : option string) : option string :=
  match authHeader with
  | Some header =>
      if startsWith header "Bearer "
      then Some (String.substring 7 (String.length header - 7) header)
      else None
  | None => None
  end.

Definition invalidToken : HttpResponse :=
  {| status := 401;
     body := FailureBody "Invalid Spotify token" "Token validation failed" |}.

Definition setupSpotifyClient (req : AuthRequest) : Task Passed :=
  attempt
    (match bearerToken (auth_header req) with
     | Some accessToken =>
         attempt
           (response ← ask (FetchProfile accessToken);
            match response with
            | Rejected message => Fail message
            | RespNotOk _ _ _ => mret (Answered invalidToken)
            | RespOk None => Fail "response.json() rejected"
            | RespOk (Some userId) => mret (Next (Some accessToken) userId)
            end)
           (fun tokenError =>
              ask (LogError ("Token validation failed: " +:+ tokenError));;
              mret (Answered invalidToken))
     | None =>
         match auth_session req with
         | Some userAccessToken => mret (Next userAccessToken None)
         | None =>
             mret (Answered
                     {| status := 401;
                        body := MessageBody "Authentication required for AI operations" |})
         end
     end)
    (fun error =>
       ask (LogError ("Error setting up authentication: " +:+ error));;
       mret (Answered
               {| status := 500;
                  body := FailureBody "Failed to setup authentication" error |})).

(** ** POST /estimate-processing *)

Record EstimateRequest := {
  est_sources : option PlaylistSources;
  est_processingMode : option ProcessingMode;
  est_accessToken : option string
}.

Record PlaylistInfo := {
  info_id : string;
  info_name : string;
  info_description : option string;
  info_trackCount : N;
  info_imageUrl : string;
  info_isCollaborative : bool;
  info_isPublic : option bool
}.

Record ModeEstimate := {
  me_mode : ProcessingMode;
  me_config : ProcessingConfig;
  me_estimatedSeconds : Z;
  me_warningLevel : WarningLevel;
  me_estimatedTime : string
}.

Inductive EstimateBody :=
  | EstimateOk (playlists : list PlaylistInfo) (playlistSizes : gmap string N)
      (selectedMode : ModeEstimate) (availableModes : list ModeEstimate)
  | EstimateMessage (message : string)              (* { message } *)
  | EstimateFailure (message error : string).       (* { message, error } *)

Record EstimateReply := {
  reply_status : Z;
  reply_body : EstimateBody
}.

Definition summaryOf (playlist : PlaylistItem) : PlaylistSummary :=
  {| summary_id := item_id playlist; summary_total := item_total playlist |}.

Definition playlistInfo (playlist : PlaylistItem) : PlaylistInfo :=
  {| info_id := item_id playlist;
     info_name := item_name playlist;
     info_description := item_description playlist;
     info_trackCount := default 0%N (item_total playlist);
     info_imageUrl := default "" (item_image playlist);
     info_isCollaborative := item_collaborative playlist;
     info_isPublic := item_public playlist |}.

Definition modeEstimate (sources : PlaylistSources) (playlistSizes : gmap string N)
    (mode : ProcessingMode) : ModeEstimate :=
  let estimate := estimateProcessingTime sources mode playlistSizes in
  {| me_mode := mode;
     me_config := PROCESSING_CONFIGS mode;
     me_estimatedSeconds := estimatedSeconds estimate;
     me_warningLevel := warningLevel estimate;
     me_estimatedTime := formatTime (estimatedSeconds estimate) |}.

(** [Object.entries(PROCESSING_CONFIGS)], in the order of the literal. *)
Definition allModes : list ProcessingMode := [quick; standard; comprehensive; complete].

Definition estimateReply (sources : PlaylistSources) (processingMode : ProcessingMode)
    (playlists : list PlaylistInfo) (playlistSizes : gmap string N) : EstimateReply :=
  {| reply_status := 200;
     reply_body :=
       EstimateOk playlists playlistSizes
         (modeEstimate sources playlistSizes processingMode)
         (map (modeEstimate sources playlistSizes) allModes) |}.

Definition estimateRoute (req : EstimateRequest) : Task EstimateReply :=
  attempt
    (let sources := default defaultSources (est_sources req) in
     let processingMode := default standard (est_processingMode req) in
     match truthy (est_accessToken req) with
     | None =>
         mret {| reply_status := 401;
                 reply_body := EstimateMessage "Authentication required" |}
     | Some accessToken =>
         answered ←
           match playlists sources with
           | [] => mret None
           | _ :: _ =>
               attempt
                 (playlistsResponse ← ask (FetchPlaylistItems accessToken);
                  match playlistsResponse with
                  | Rejected message => Fail message
                  | RespOk None => Fail "playlistsResponse.json() rejected"
                  | RespOk (Some items) =>
                      let playlistSizes := recordSizes (map summaryOf items) in
                      mret (Some (estimateReply sources processingMode
                                    (map playlistInfo items) playlistSizes))
                  | RespNotOk _ _ _ => mret None
                  end)
                 (fun error =>
                    ask (LogError ("Error fetching playlist metadata: " +:+ error));;
                    mret (Some {| reply_status := 500;
                                  reply_body :=
                                    EstimateFailure error
                                      "Error fetching playlist information" |}))
           end;
         match answered with
         | Some reply => mret reply
         | None => mret (estimateReply sources processingMode [] ∅)
         end
     end)
    (fun error =>
       ask (LogError ("Error estimating processing time: " +:+ error));;
       mret {| reply_status := 500;
               reply_body :=
                 EstimateFailure "Failed to estimate processing time" error |}).

(** * Reasoning about the helpers *)

(** The task fails in no world. *)
Inductive NeverFails {A : Type} : Task A -> Prop :=
  | NeverFails_Done (a : A) : NeverFails (Done a)
  | NeverFails_Ask {X : Type} (r : Request X) (k : X -> Task A) :
      (forall x, NeverFails (k x)) -> NeverFails (Ask r k).

(** A sample server: the clock advances by an hour at every reading; the
    catalogue knows two genres, one user, and a listing of saved tracks in
    two pages. *)
Definition sampleServer : Server Z :=
  fun X r clock =>
    match r in Request X return X * Z with
    | DateNow => (clock, clock + 3600000)
    | LogError _ => (tt, clock)
    | FetchGenreSeeds _ => (RespOk (Some (Some ["rock"; "pop"])), clock)
    | FetchRecommendations _ _ => (RespNotOk 404 "Not Found" None, clock)
    | FetchProfile accessToken =>
        (if String.eqb accessToken "token" then RespOk (Some (Some "user"))
         else RespNotOk 401 "Unauthorized" None, clock)
    | FetchPage e url _ =>
        (match e return FetchResult (Page (itemOf e)) with
         | SavedTracks =>
             if String.eqb url "https://api.spotify.com/v1/me/tracks?limit=50"
             then RespOk (Some {| page_items := Some [sampleTrack "a" 10 None;
                                                      sampleTrack "b" 90 None];
                                  page_next := Some "page2" |})
             else if String.eqb url "page2"
             then RespOk (Some {| page_items := Some [sampleTrack "c" 5 None];
                                  page_next := None |})
             else RespNotOk 404 "Not Found" None
         | _ => RespNotOk 404 "Not Found" None
         end, clock)
    | FetchPlaylistItems _ =>
        (RespOk (Some [{| item_id := "p1"; item_name := "Road trip";
                          item_description := None; item_total := Some 120%N;
                          item_image := None; item_collaborative := false;
                          item_public := Some true |}]), clock)
    end.

(** The number a query gives for a key. *)
Definition queryNumber (key : string) (query : list (string * QueryValue)) : option Q :=
  match List.find (fun entry => String.eqb (fst entry) key) query with
  | Some (_, Number q) => Some q
  | _ => None
  end.

(** A range within 0 and 1, its ends in order. *)
Definition OrderedUnitRange (range : Q * Q) : Prop :=
  (0 <= fst range /\ fst range <= snd range /\ snd range <= 1)%Q.

(** The query asks for a feature between a minimum and a maximum within 0
    and 1, with a target between the two. *)
Definition Bracketed (feature : string) (query : list (string * QueryValue)) : Prop :=
  exists lo target hi,
    queryNumber ("min_" +:+ feature) query = Some lo
    /\ queryNumber ("target_" +:+ feature) query = Some target
    /\ queryNumber ("max_" +:+ feature) query = Some hi
    /\ (0 <= lo /\ lo <= target /\ target <= hi /\ hi <= 1)%Q.

(** What fetchAllPages gathers from an address and in how many rounds, when
    the outside is in state [s]: the listing ends at a next address that is
    missing or empty, and at the first page that cannot be read. *)
Inductive Listing {St : Type} (w : Server St) (e : Endpoint) (accessToken : string)
    : St -> option string -> list (itemOf e) -> nat -> Prop :=
  | Listing_end (s : St) (nextUrl : option string) :
      truthy nextUrl = None ->
      Listing w e accessToken s nextUrl [] 0
  | Listing_page (s : St) (nextUrl : option string) (url : string)
      (data : Page (itemOf e)) (s' : St) (items : list (itemOf e)) (rounds : nat) :
      truthy nextUrl = Some url ->
      w _ (FetchPage e url accessToken) s = (RespOk (Some data), s') ->
      Listing w e accessToken s' (page_next data) items rounds ->
      Listing w e accessToken s nextUrl
        (default [] (page_items data) ++ items) (Datatypes.S rounds)
  | Listing_unread (s : St) (nextUrl : option string) (url : string) :
      truthy nextUrl = Some url ->
      (forall data, (w _ (FetchPage e url accessToken) s).1 <> RespOk (Some data)) ->
      Listing w e accessToken s nextUrl [] 1.

(** The request as the route sees it once the middleware has called
    [next]: [req.accessToken] and [req.userId] are what the middleware
    set. *)
Definition authenticated (passed : Passed) (req : GenerateRequest)
    : option GenerateRequest :=
  match passed with
  | Next accessToken userId =>
      Some {| req_prompt := req_prompt req;
              req_name := req_name req;
              req_description := req_description req;
              req_sources := req_sources req;
              req_processingMode := req_processingMode req;
              req_targetTrackCount := req_targetTrackCount req;
              req_accessToken := accessToken;
              req_userId := userId |}
  | Answered _ => None
  end.

(** The warning levels in their order. *)
Definition levelRank (level : WarningLevel) : nat :=
  match level with
  | low => 0
  | medium => 1
  | high => 2
  end.

(** * Part II: properties *)

(** ** Rationals *)

Lemma Qgtb_false_iff (x y : Q) : Qgtb x y = false <-> (x <= y)%Q.
Proof.
  unfold Qgtb. rewrite negb_false_iff. apply Qle_bool_iff.
Qed.

Lemma Qgtb_true_iff (x y : Q) : Qgtb x y = true <-> (y < x)%Q.
Proof.
  unfold Qgtb. rewrite negb_true_iff. split.
  - intros H. apply Qnot_le_lt. intros Hle. apply Qle_bool_iff in Hle. congruence.
  - intros H. destruct (Qle_bool x y) eqn:E; [|reflexivity].
    apply Qle_bool_iff in E. exfalso. apply (Qlt_not_le _ _ H E).
Qed.

Lemma Qgtb_comp (x x' y : Q) : (x == x')%Q -> Qgtb x y = Qgtb x' y.
Proof.
  intros E. destruct (Qgtb x' y) eqn:H.
  - apply Qgtb_true_iff. apply Qgtb_true_iff in H. now rewrite E.
  - apply Qgtb_false_iff. apply Qgtb_false_iff in H. now rewrite E.
Qed.

Lemma warningLevelOf_comp (x y : Q) : (x == y)%Q -> warningLevelOf x = warningLevelOf y.
Proof.
  intros E. unfold warningLevelOf.
  now rewrite (Qgtb_comp x y 60 E), (Qgtb_comp x y 180 E).
Qed.

(** ** The time estimator *)

Lemma tracksToProcess_spec config sizes pid :
  tracksToProcess config sizes pid = spec_playlistTracks config sizes pid.
Proof.
  unfold tracksToProcess, spec_playlistTracks, playlistSizeOr50.
  destruct (sizes !! pid) as [[|p]|]; simpl;
    destruct (maxTracksPerPlaylist config =? 0); lia.
Qed.

Lemma totalEstimatedTracks_acc config sizes ids acc :
  fold_left (fun total playlistId =>
               total + tracksToProcess config sizes playlistId) ids acc
  = acc + totalEstimatedTracks config sizes ids.
Proof.
  unfold totalEstimatedTracks. revert acc.
  induction ids as [|pid ids IH]; intros acc; simpl; [lia|].
  rewrite IH, (IH (0 + _)). lia.
Qed.

Lemma totalEstimatedTracks_cons config sizes pid ids :
  totalEstimatedTracks config sizes (pid :: ids)
  = tracksToProcess config sizes pid + totalEstimatedTracks config sizes ids.
Proof.
  unfold totalEstimatedTracks at 1. simpl. now rewrite totalEstimatedTracks_acc.
Qed.

Lemma playlistTime_total config sizes ids :
  (playlistTime config sizes ids
   == inject_Z (totalEstimatedTracks config sizes ids) * perTrack config)%Q.
Proof.
  unfold playlistTime, perTrack. destruct ids as [|pid ids].
  - unfold totalEstimatedTracks. simpl. destruct (fetchAllPages config); reflexivity.
  - cbv zeta. destruct (fetchAllPages config); field.
Qed.

Lemma spec_playlistCost_rate config sizes pid :
  (spec_playlistCost config sizes pid
   == inject_Z (tracksToProcess config sizes pid) * perTrack config)%Q.
Proof.
  unfold spec_playlistCost, perTrack. rewrite tracksToProcess_spec. cbv zeta.
  destruct (fetchAllPages config); field.
Qed.

Lemma playlistTime_sum config sizes ids :
  (playlistTime config sizes ids
   == foldr Qplus 0 (map (spec_playlistCost config sizes) ids))%Q.
Proof.
  rewrite playlistTime_total.
  induction ids as [|pid ids IH].
  - unfold totalEstimatedTracks. simpl. ring.
  - rewrite totalEstimatedTracks_cons. simpl.
    rewrite <- IH, spec_playlistCost_rate, inject_Z_plus. ring.
Qed.

Lemma estimatedSecondsRaw_spec sources mode sizes :
  (estimatedSecondsRaw sources mode sizes == spec_estimateSum sources mode sizes)%Q.
Proof.
  unfold estimatedSecondsRaw, spec_estimateSum, audioFeaturesTime. cbv zeta.
  rewrite playlistTime_sum. reflexivity.
Qed.

Lemma warningLevelOf_spec (sum : Q) : warningLevelOf sum = spec_warningLevel sum.
Proof.
  unfold warningLevelOf, spec_warningLevel, Qgtb.
  destruct (Qle_bool sum 60) eqn:E60; destruct (Qle_bool sum 180) eqn:E180;
    simpl; try reflexivity.
  exfalso. apply Qle_bool_iff in E60.
  assert (H : (sum <= 180)%Q) by (eapply Qle_trans; [exact E60 | discriminate]).
  apply Qle_bool_iff in H. congruence.
Qed.



Example estimate_comprehensive :
  estimateProcessingTime
    {| useLikedSongs := true; useTopTracks := false;
       useRecommendations := true; playlists := ["a"; "b"] |}
    comprehensive (<["a" := 250%N]> ∅)
  = {| estimatedSeconds := 36; warningLevel := low |}.
Proof. vm_compute. reflexivity. Qed.

Example estimate_complete_high :
  estimateProcessingTime
    {| useLikedSongs := false; useTopTracks := false;
       useRecommendations := false; playlists := ["big"] |}
    complete (<["big" := 3000%N]> ∅)
  = {| estimatedSeconds := 225; warningLevel := high |}.
Proof. vm_compute. reflexivity. Qed.

Example estimate_unknown_size_is_50 :
  estimateProcessingTime
    {| useLikedSongs := false; useTopTracks := false;
       useRecommendations := false; playlists := ["p"; "q"] |}
    standard (<["p" := 0%N]> ∅)
  = {| estimatedSeconds := 20; warningLevel := low |}.
Proof. vm_compute. reflexivity. Qed.

Lemma tracksToProcess_nonneg mode sizes pid :
  0 <= tracksToProcess (PROCESSING_CONFIGS mode) sizes pid.
Proof.
  unfold tracksToProcess, playlistSizeOr50.
  destruct (sizes !! pid) as [[|p]|]; destruct mode; simpl; lia.
Qed.

Lemma totalEstimatedTracks_nonneg mode sizes ids :
  0 <= totalEstimatedTracks (PROCESSING_CONFIGS mode) sizes ids.
Proof.
  induction ids as [|pid ids IH]; [unfold totalEstimatedTracks; simpl; lia|].
  rewrite totalEstimatedTracks_cons.
  pose proof (tracksToProcess_nonneg mode sizes pid). lia.
Qed.

Lemma totalEstimatedTracks_submseteq mode sizes (ids1 ids2 : list string) :
  ids1 ⊆+ ids2 ->
  totalEstimatedTracks (PROCESSING_CONFIGS mode) sizes ids1
  <= totalEstimatedTracks (PROCESSING_CONFIGS mode) sizes ids2.
Proof.
  induction 1 as [|x l1 l2 _ IH|x y l|x l1 l2 _ IH|l1 l2 l3 _ IH1 _ IH2];
    rewrite ?totalEstimatedTracks_cons; try lia.
  pose proof (tracksToProcess_nonneg mode sizes x). lia.
Qed.

Lemma perTrack_nonneg config : (0 <= perTrack config)%Q.
Proof. unfold perTrack. destruct (fetchAllPages config); discriminate. Qed.

Lemma flagCost_le (b1 b2 : bool) (c : Q) :
  (0 <= c)%Q -> (b1 -> b2) ->
  ((if b1 then c else 0) <= (if b2 then c else 0))%Q.
Proof.
  intros Hc Himp. destruct b1, b2; simpl in *; try apply Qle_refl; try exact Hc.
  exfalso. exact (Himp I).
Qed.

Lemma estimatedSecondsRaw_mono s1 s2 mode sizes :
  selectsNoMore s1 s2 ->
  (estimatedSecondsRaw s1 mode sizes <= estimatedSecondsRaw s2 mode sizes)%Q.
Proof.
  intros (Hl & Ht & Hr & Hp). unfold estimatedSecondsRaw. cbv zeta.
  repeat apply Qplus_le_compat; try apply Qle_refl;
    try (apply flagCost_le; [discriminate | assumption]).
  rewrite !playlistTime_total.
  apply Qmult_le_compat_r; [|apply perTrack_nonneg].
  rewrite <- Zle_Qle. now apply totalEstimatedTracks_submseteq.
Qed.



(** ** Strings *)

Lemma append_empty_l (s : string) : "" +:+ s = s.
Proof. reflexivity. Qed.

Lemma append_String (c : ascii) (s t : string) :
  String c s +:+ t = String c (s +:+ t).
Proof. reflexivity. Qed.

Lemma append_empty_r (s : string) : s +:+ "" = s.
Proof.
  induction s as [|c s IH]; [reflexivity | now rewrite append_String, IH].
Qed.

Lemma startsWith_spec (s needle : string) :
  startsWith s needle = true <-> exists post, s = needle +:+ post.
Proof.
  revert s. induction needle as [|a needle IH]; intros s.
  - split; [intros _; now exists s | intros _; now destruct s].
  - destruct s as [|b s]; simpl.
    + split; [discriminate | intros [post H]; discriminate].
    + rewrite andb_true_iff, IH. split.
      * intros [Hab [post ->]]. apply Ascii.eqb_eq in Hab as ->. now exists post.
      * intros [post H]. rewrite append_String in H. injection H as -> ->.
        split; [apply Ascii.eqb_refl | now exists post].
Qed.

Lemma includes_spec (s needle : string) :
  includes s needle = true <-> Substring needle s.
Proof.
  unfold Substring. induction s as [|b s IH].
  - change (includes "" needle) with (startsWith "" needle || false).
    rewrite orb_false_r, startsWith_spec. split.
    + intros [post H]. now exists "", post.
    + intros (pre & post & H). destruct pre; [now exists post | discriminate].
  - change (includes (String b s) needle)
      with (startsWith (String b s) needle || includes s needle).
    rewrite orb_true_iff, startsWith_spec, IH. split.
    + intros [[post H] | (pre & post & H)].
      * now exists "", post.
      * exists (String b pre), post. now rewrite append_String, H.
    + intros (pre & post & H). destruct pre as [|c pre].
      * left. now exists post.
      * right. rewrite append_String in H. injection H as -> ->. now exists pre, post.
Qed.

Lemma includes_empty (s : string) : includes s "" = true.
Proof. destruct s; reflexivity. Qed.

Lemma includes_refl (s : string) : includes s s = true.
Proof.
  apply includes_spec. exists "", "".
  now rewrite append_empty_l, append_empty_r.
Qed.

Lemma toLowerCase_app (s t : string) :
  toLowerCase (s +:+ t) = toLowerCase s +:+ toLowerCase t.
Proof.
  induction s as [|c s IH]; [reflexivity|].
  rewrite append_String. simpl. now rewrite append_String, IH.
Qed.

Lemma lowerAscii_idemp (c : ascii) : lowerAscii (lowerAscii c) = lowerAscii c.
Proof.
  destruct c as [[] [] [] [] [] [] [] []]; reflexivity.
Qed.

Lemma toLowerCase_idemp (s : string) : toLowerCase (toLowerCase s) = toLowerCase s.
Proof.
  induction s as [|c s IH]; simpl; [reflexivity | now rewrite lowerAscii_idemp, IH].
Qed.

(** A keyword found in a text is found in its lower-cased form. *)
Lemma includes_toLowerCase (s needle : string) :
  includes s needle = true ->
  includes (toLowerCase s) (toLowerCase needle) = true.
Proof.
  rewrite !includes_spec. intros (pre & post & ->).
  exists (toLowerCase pre), (toLowerCase post). now rewrite !toLowerCase_app.
Qed.

(** ** Arrays of strings *)

Lemma arrayIncludes_spec (arr : list string) (x : string) :
  arrayIncludes arr x = true <-> x ∈ arr.
Proof.
  unfold arrayIncludes. rewrite existsb_exists. split.
  - intros (y & Hin & Heq). apply String.eqb_eq in Heq as ->. now apply list_elem_of_In.
  - intros Hin. exists x. split; [now apply list_elem_of_In | apply String.eqb_refl].
Qed.

Lemma indexOf_elem (arr : list string) (x : string) :
  x ∈ arr -> exists i, indexOf arr x = Some i /\ arr !! i = Some x.
Proof.
  induction arr as [|y arr IH]; intros Hin; [now apply elem_of_nil in Hin|].
  simpl. destruct (String.eqb y x) eqn:E.
  - apply String.eqb_eq in E as ->. now exists 0%nat.
  - apply elem_of_cons in Hin as [->|Hin]; [rewrite String.eqb_refl in E; discriminate|].
    destruct (IH Hin) as (i & -> & Hi). now exists (S i).
Qed.

Lemma genreAt_original (availableGenres : list string) (m : string) :
  m ∈ map toLowerCase availableGenres ->
  genreAt availableGenres (indexOf (map toLowerCase availableGenres) m) ∈ availableGenres
  /\ toLowerCase
       (genreAt availableGenres (indexOf (map toLowerCase availableGenres) m)) = m.
Proof.
  intros Hin. destruct (indexOf_elem _ _ Hin) as (i & -> & Hi). simpl.
  rewrite list_lookup_fmap in Hi.
  destruct (availableGenres !! i) as [g|] eqn:Hg; [|discriminate].
  simpl in *. split.
  - apply list_elem_of_lookup. now exists i.
  - congruence.
Qed.

Lemma elem_of_List_filter {A} (f : A -> bool) (l : list A) (x : A) :
  x ∈ List.filter f l <-> x ∈ l /\ f x = true.
Proof. rewrite !list_elem_of_In. apply filter_In. Qed.

Lemma dedupeStrings_elem (arr : list string) (x : string) :
  x ∈ dedupeStrings arr <-> x ∈ arr.
Proof.
  induction arr as [|y arr IH]; simpl; [reflexivity|].
  rewrite !elem_of_cons, elem_of_List_filter, IH. split.
  - intros [->|[H _]]; auto.
  - intros [->|H]; [now left|].
    destruct (String.eqb y x) eqn:E.
    + apply String.eqb_eq in E. now left.
    + right. split; [exact H | reflexivity].
Qed.

Lemma NoDup_List_filter {A} (f : A -> bool) (l : list A) :
  NoDup l -> NoDup (List.filter f l).
Proof.
  induction 1 as [|x l Hx _ IH]; simpl; [constructor|].
  destruct (f x); [|exact IH].
  constructor; [|exact IH]. rewrite elem_of_List_filter. tauto.
Qed.

Lemma NoDup_take_prefix {A} (n : nat) (l : list A) : NoDup l -> NoDup (take n l).
Proof. intros H. eapply sublist_NoDup; [exact H | apply sublist_take]. Qed.

Lemma dedupeStrings_NoDup (arr : list string) : NoDup (dedupeStrings arr).
Proof.
  induction arr as [|y arr IH]; simpl; constructor.
  - rewrite elem_of_List_filter, String.eqb_refl. simpl. intros [_ H]. discriminate.
  - now apply NoDup_List_filter.
Qed.

(** ** The genre matcher *)

Lemma partialMatch_spec (aiGenre g : string) :
  partialMatch aiGenre g = true <-> PartialMatch aiGenre g.
Proof.
  unfold partialMatch, PartialMatch. cbv zeta.
  now rewrite orb_true_iff, !includes_spec.
Qed.

Lemma exactMatches_elem (aiGenres availableGenres : list string) (m : string) :
  m ∈ exactMatches aiGenres availableGenres
  <-> (exists a, a ∈ aiGenres /\ m = toLowerCase a)
      /\ (exists g, g ∈ availableGenres /\ toLowerCase g = m).
Proof.
  unfold exactMatches. cbv zeta.
  rewrite elem_of_List_filter, arrayIncludes_spec, !list_elem_of_fmap.
  split.
  - intros [(a & -> & Ha) (g & Hg & Hin)]. split; [now exists a | now exists g].
  - intros [(a & Ha & ->) (g & Hin & Hg)]. split; [now exists a | now exists g].
Qed.

Lemma partialMatches_elem (aiGenres availableGenres : list string) (g : string) :
  g ∈ partialMatches aiGenres availableGenres
  <-> g ∈ availableGenres /\ exists a, a ∈ aiGenres /\ PartialMatch a g.
Proof.
  unfold partialMatches. rewrite list_elem_of_In, in_flat_map. split.
  - intros (a & Ha & Hg). apply filter_In in Hg as [Hg Hm].
    rewrite <- !list_elem_of_In in *. split; [exact Hg|].
    exists a. split; [exact Ha | now apply partialMatch_spec].
  - intros [Hg (a & Ha & Hm)]. exists a. rewrite <- list_elem_of_In. split; [exact Ha|].
    apply filter_In. rewrite <- list_elem_of_In. split; [exact Hg | now apply partialMatch_spec].
Qed.

Lemma partialMatches_lower (ai ai' availableGenres : list string) :
  map toLowerCase ai' = map toLowerCase ai ->
  partialMatches ai' availableGenres = partialMatches ai availableGenres.
Proof.
  revert ai'. induction ai as [|a ai IH]; intros [|a' ai'] H; try discriminate;
    [reflexivity|].
  simpl in H. injection H as Ha Hrest. unfold partialMatches in *. simpl.
  rewrite (IH ai' Hrest). f_equal.
  unfold partialMatch. cbv zeta. now rewrite Ha.
Qed.

Lemma matchGenres_lower (ai ai' availableGenres : list string) :
  map toLowerCase ai' = map toLowerCase ai ->
  matchGenresToAvailableSeeds ai' availableGenres
  = matchGenresToAvailableSeeds ai availableGenres.
Proof.
  intros H. unfold matchGenresToAvailableSeeds, exactMatches. cbv zeta.
  rewrite (partialMatches_lower ai ai' availableGenres H), H.
  destruct ai, ai'; try discriminate; reflexivity.
Qed.

Lemma exactMatches_original (availableGenres exact : list string) :
  Forall (fun m => m ∈ map toLowerCase availableGenres) exact ->
  Forall2 (fun m g => g ∈ availableGenres /\ toLowerCase g = m) exact
    (map (fun m => genreAt availableGenres
                     (indexOf (map toLowerCase availableGenres) m)) exact).
Proof.
  induction 1 as [|m exact Hm _ IH]; simpl; constructor; [|exact IH].
  now apply genreAt_original.
Qed.

(** C4. The genre matcher ignores letter case in the AI genres; it returns
    nothing for no AI genre; when some AI genre equals an available genre
    up to case, it returns, for each such AI genre in turn, an available
    genre in its original casing; only otherwise it returns the available
    genres that contain or are contained in an AI genre, without
    duplicates, at most five of them; and it gives ["rock"] for ["rock"]
    within ["rock"; "pop"], ["synthpop"] for ["synth"] within ["synthpop"]. *)
Theorem matchGenresToAvailableSeeds_spec (aiGenres availableGenres : list string) :
  let result := matchGenresToAvailableSeeds aiGenres availableGenres in
  let exact := exactMatches aiGenres availableGenres in
  (* case-insensitive *)
  (forall aiGenres', map toLowerCase aiGenres' = map toLowerCase aiGenres ->
     matchGenresToAvailableSeeds aiGenres' availableGenres = result)
  (* no AI genre *)
  /\ matchGenresToAvailableSeeds [] availableGenres = []
  (* the exact matches are the lower-cased AI genres that are an available
     genre in lower case *)
  /\ (forall m, m ∈ exact <->
        (exists a, a ∈ aiGenres /\ m = toLowerCase a)
        /\ (exists g, g ∈ availableGenres /\ toLowerCase g = m))
  (* first pass *)
  /\ (exact <> [] ->
      Forall2 (fun m g => g ∈ availableGenres /\ toLowerCase g = m) exact result)
  (* second pass *)
  /\ (exact = [] ->
      result = take 5 (dedupeStrings (partialMatches aiGenres availableGenres))
      /\ NoDup result
      /\ (length result <= 5)%nat
      /\ (forall g, g ∈ dedupeStrings (partialMatches aiGenres availableGenres) <->
            g ∈ availableGenres /\ exists a, a ∈ aiGenres /\ PartialMatch a g))
  (* the two examples *)
  /\ matchGenresToAvailableSeeds ["rock"] ["rock"; "pop"] = ["rock"]
  /\ matchGenresToAvailableSeeds ["synth"] ["synthpop"] = ["synthpop"].
Proof.
  intros result exact.
  split; [|split; [|split; [|split; [|split; [|split]]]]]; try reflexivity.
  - intros ai' H. now apply matchGenres_lower.
  - intros m. apply exactMatches_elem.
  - intros Hne. subst result. unfold matchGenresToAvailableSeeds. cbv zeta.
    fold exact. destruct aiGenres as [|a ai]; [now destruct Hne|].
    destruct exact as [|m ms] eqn:E; [now destruct Hne|].
    apply exactMatches_original. apply Forall_forall. intros x Hx.
    rewrite <- E in Hx. subst exact. unfold exactMatches in Hx. cbv zeta in Hx.
    apply elem_of_List_filter in Hx as [_ Hx]. now apply arrayIncludes_spec.
  - intros H.
    assert (E : result = take 5 (dedupeStrings (partialMatches aiGenres availableGenres))).
    { subst result. unfold matchGenresToAvailableSeeds. cbv zeta. fold exact.
      rewrite H. now destruct aiGenres. }
    split; [exact E|]. rewrite E. split; [|split].
    + apply NoDup_take_prefix, dedupeStrings_NoDup.
    + rewrite length_take. lia.
    + intros g. rewrite dedupeStrings_elem. apply partialMatches_elem.
Qed.

Lemma matchGenresToAvailableSeeds_spec_witness :
  matchGenresToAvailableSeeds ["Indie Rock"] ["rock"; "pop"; "indie"]
  = ["rock"; "indie"]
  /\ Forall2 (fun m g => g ∈ ["Rock"; "pop"] /\ toLowerCase g = m)
       ["rock"] (matchGenresToAvailableSeeds ["ROCK"; "jazz"] ["Rock"; "pop"]).
Proof.
  split.
  - pose proof (matchGenresToAvailableSeeds_spec ["Indie Rock"] ["rock"; "pop"; "indie"])
      as (_ & _ & _ & _ & H & _).
    destruct (H eq_refl) as (-> & _). reflexivity.
  - pose proof (matchGenresToAvailableSeeds_spec ["ROCK"; "jazz"] ["Rock"; "pop"])
      as (_ & _ & _ & H & _).
    apply H. discriminate.
Defined.

(** ** Stable sorting *)

Section StableSort.
Context {A : Type} (before : A -> A -> bool).
Local Abbreviation inOrder := (inOrder before).

Hypothesis before_asym : forall a b, before a b = true -> before b a = false.

Lemma insertBy_HdRel (x : A) (l : list A) :
  HdRel inOrder x l -> insertBy before x l = x :: l.
Proof.
  intros H. destruct H as [|y l Hxy]; [reflexivity|].
  simpl. unfold inOrder in Hxy. now rewrite Hxy.
Qed.

Lemma stableSort_sorted_id (l : list A) :
  Sorted inOrder l -> stableSort before l = l.
Proof.
  unfold stableSort. induction 1 as [|x l _ IH Hd]; simpl; [reflexivity|].
  rewrite IH. now apply insertBy_HdRel.
Qed.

Lemma insertBy_Sorted (x : A) (l : list A) :
  Sorted inOrder l -> Sorted inOrder (insertBy before x l).
Proof.
  induction 1 as [|y l Hs IH Hd]; simpl.
  - repeat constructor.
  - destruct (before y x) eqn:E.
    + constructor; [exact IH|].
      destruct Hd as [|z l Hyz]; simpl.
      * constructor. unfold inOrder. now apply before_asym.
      * destruct (before z x); constructor;
          [exact Hyz | unfold inOrder; now apply before_asym].
    + constructor; [now constructor | now constructor].
Qed.

Lemma stableSort_Sorted (l : list A) : Sorted inOrder (stableSort before l).
Proof.
  unfold stableSort. induction l as [|x l IH]; simpl; [constructor|].
  now apply insertBy_Sorted.
Qed.

Lemma insertBy_Permutation (x : A) (l : list A) : insertBy before x l ≡ₚ x :: l.
Proof.
  induction l as [|y l IH]; simpl; [reflexivity|].
  destruct (before y x); [|reflexivity].
  rewrite IH. apply Permutation_swap.
Qed.

Lemma stableSort_Permutation (l : list A) : stableSort before l ≡ₚ l.
Proof.
  unfold stableSort. induction l as [|x l IH]; simpl; [reflexivity|].
  now rewrite insertBy_Permutation, IH.
Qed.
End StableSort.

Lemma Sorted_take {A} (R : A -> A -> Prop) (n : nat) (l : list A) :
  Sorted R l -> Sorted R (take n l).
Proof.
  intros H. revert n. induction H as [|x l _ IH Hd]; intros [|n]; simpl;
    try constructor; [apply IH|].
  destruct Hd; destruct n; simpl; now constructor.
Qed.

Lemma Sorted_map {A B} (R : A -> A -> Prop) (R' : B -> B -> Prop) (g : A -> B)
    (P : A -> Prop) (l : list A) :
  (forall a b, P a -> P b -> R a b -> R' (g a) (g b)) ->
  Forall P l -> Sorted R l -> Sorted R' (map g l).
Proof.
  intros Hmono HP H. induction H as [|x l _ IH Hd]; simpl; [constructor|].
  apply Forall_cons in HP as [Hx HP].
  constructor; [now apply IH|].
  destruct Hd as [|y l Hxy]; simpl; constructor.
  apply Forall_cons in HP as [Hy _]. now apply Hmono.
Qed.

Lemma byPopularityDesc_asym (a b : Track) :
  byPopularityDesc a b = true -> byPopularityDesc b a = false.
Proof. unfold byPopularityDesc. lia. Qed.

(** ** The scorer: weights *)

Lemma featureScore_weights (analysis : PromptAnalysis) (f : AudioFeatures) :
  (featureScore analysis f == spec_featureScore analysis f)%Q.
Proof.
  unfold featureScore, spec_featureScore, spec_emphasis. cbv zeta.
  set (fl := toLowerCase (filter_logic analysis)).
  unfold emphasisKeywords, allDimensions. simpl.
  destruct (includes fl "energy"); simpl; [ring|].
  destruct (includes fl "tempo"); simpl; [ring|].
  destruct (includes fl "bpm"); simpl; [ring|].
  destruct (includes fl "dance"); simpl; [ring|].
  destruct (includes fl "acoustic"); simpl; [ring|].
  destruct (includes fl "instrument"); simpl; [ring|].
  destruct (includes fl "valence"); simpl; [ring|].
  destruct (includes fl "happ"); simpl; ring.
Qed.

Lemma genreScoreOf_withFeatures analysis t x :
  genreScoreOf analysis (withFeatures t x) = genreScoreOf analysis t.
Proof. reflexivity. Qed.

Lemma score_with_energy analysis t f e :
  includes (toLowerCase (filter_logic analysis)) "energy" = true ->
  (score (scoreTrack analysis (withFeatures t (Some (withEnergy f e))))
   == 30 * (1 - Qabs (e - midpoint (energy_range analysis)))
      + (tempoScore analysis f * (15 # 10)
         + (danceabilityScore analysis f + valenceScore analysis f
            + acousticnessScore analysis f + instrumentalnessScore analysis f))
      + inject_Z (popularityOr0 t) / 10
      + genreScoreOf analysis t)%Q.
Proof.
  intros Hkw. unfold scoreTrack. cbv zeta. simpl features. cbv iota beta.
  unfold hasFeatures. simpl features. cbv iota. simpl andb. cbv iota.
  rewrite genreScoreOf_withFeatures. unfold featureScore. cbv zeta. rewrite Hkw.
  unfold energyScore, tempoScore, danceabilityScore, valenceScore,
    acousticnessScore, instrumentalnessScore, popularityOr0. simpl.
  field.
Qed.

Lemma filterTracks_scored analysis (tracks : list Track) (maxTracks : nat)
    (s : ScoredTrack) :
  s ∈ filterTracksByAIAnalysis analysis tracks maxTracks ->
  exists t, t ∈ tracks /\ s = scoreTrack analysis t.
Proof.
  unfold filterTracksByAIAnalysis. cbv zeta. intros H.
  apply elem_of_take in H as (i & H & _). apply list_elem_of_lookup_2 in H.
  rewrite stableSort_Permutation in H.
  apply list_elem_of_fmap in H as (t & -> & Ht). exists t. split; [|reflexivity].
  destruct (_ <? _)%nat in Ht.
  - apply elem_of_app in Ht as [Ht|Ht].
    + now apply elem_of_List_filter in Ht as [Ht _].
    + apply elem_of_take in Ht as (j & Ht & _). apply list_elem_of_lookup_2 in Ht.
      rewrite stableSort_Permutation in Ht.
      now apply elem_of_List_filter in Ht as [Ht _].
  - now apply elem_of_List_filter in Ht as [Ht _].
Qed.



(** ** The scorer on tracks without features *)

Lemma List_filter_all {A} (f : A -> bool) (l : list A) :
  Forall (fun x => f x = true) l -> List.filter f l = l.
Proof. induction 1 as [|x l Hx _ IH]; simpl; [reflexivity | now rewrite Hx, IH]. Qed.

Lemma List_filter_none {A} (f : A -> bool) (l : list A) :
  Forall (fun x => f x = false) l -> List.filter f l = [].
Proof. induction 1 as [|x l Hx _ IH]; simpl; [reflexivity | now rewrite Hx, IH]. Qed.

Lemma popularOver70_popularityOr0 (t : Track) :
  popularOver70 t = (70 <? popularityOr0 t).
Proof. unfold popularOver70, popularityOr0. now destruct (popularity t). Qed.

Lemma score_noFeatures analysis (t : Track) :
  features t = None ->
  (score (scoreTrack analysis t) == popularityPoints t + genreScoreOf analysis t)%Q
  /\ scoreDetails (scoreTrack analysis t) = None
  /\ track (scoreTrack analysis t) = t.
Proof.
  intros Hf. unfold scoreTrack, hasFeatures, popularityPoints. cbv zeta. rewrite Hf.
  simpl. rewrite popularOver70_popularityOr0.
  split; [|split; reflexivity].
  destruct (70 <? popularityOr0 t); simpl; ring.
Qed.

Lemma popularityPoints_mono (a b : Track) :
  popularityOr0 b <= popularityOr0 a -> (popularityPoints b <= popularityPoints a)%Q.
Proof.
  intros H. unfold popularityPoints.
  assert (Hq : (inject_Z (popularityOr0 b) <= inject_Z (popularityOr0 a))%Q)
    by now rewrite <- Zle_Qle.
  unfold Qdiv. change (/ 10)%Q with (1 # 10)%Q.
  destruct (70 <? popularityOr0 b) eqn:Eb; destruct (70 <? popularityOr0 a) eqn:Ea;
    try lra.
  exfalso. lia.
Qed.

Lemma existsb_hasFeatures_false (tracks : list Track) :
  Forall (fun t => features t = None) tracks -> existsb hasFeatures tracks = false.
Proof.
  induction 1 as [|t l Ht _ IH]; simpl; [reflexivity|].
  unfold hasFeatures at 1. now rewrite Ht.
Qed.

Lemma filterTracks_noFeatures analysis (tracks : list Track) (maxTracks : nat) :
  Forall (fun t => features t = None) tracks ->
  Forall (fun t => (genreScoreOf analysis t == 0)%Q) tracks ->
  map track (filterTracksByAIAnalysis analysis tracks maxTracks)
  = take maxTracks (stableSort byPopularityDesc tracks).
Proof.
  intros Hnf Hg. unfold filterTracksByAIAnalysis. cbv zeta.
  rewrite (List_filter_none hasFeatures tracks),
          (List_filter_all (fun t => negb (hasFeatures t)) tracks).
  2: { eapply Forall_impl; [exact Hnf|]. intros t Ht. unfold hasFeatures. now rewrite Ht. }
  2: { eapply Forall_impl; [exact Hnf|]. intros t Ht. unfold hasFeatures. now rewrite Ht. }
  simpl length. destruct maxTracks as [|m]; [reflexivity|].
  replace (0 <? S m * 2)%nat with true by (symmetry; apply Nat.ltb_lt; lia).
  simpl app.
  set (sorted := stableSort byPopularityDesc tracks).
  assert (Hperm : sorted ≡ₚ tracks) by apply stableSort_Permutation.
  assert (Hall : Forall (fun t => features t = None /\ (genreScoreOf analysis t == 0)%Q)
                        (take (S m * 3) sorted)).
  { apply Forall_take. rewrite Hperm. apply Forall_and. now split. }
  rewrite stableSort_sorted_id.
  - rewrite firstn_map, map_map.
    rewrite (map_ext_Forall (fun t => track (scoreTrack analysis t)) (fun t => t)).
    + rewrite map_id, take_take. f_equal. lia.
    + apply Forall_take. eapply Forall_impl; [exact Hall|].
      intros t [Ht _]. now apply score_noFeatures.
  - eapply (Sorted_map (inOrder byPopularityDesc)); [|exact Hall|].
    + intros a b [Ha Ga] [Hb Gb] Hab. unfold inOrder, byScoreDesc.
      apply Qgtb_false_iff.
      destruct (score_noFeatures analysis a Ha) as (-> & _).
      destruct (score_noFeatures analysis b Hb) as (-> & _).
      rewrite Ga, Gb. apply Qplus_le_compat; [|apply Qle_refl].
      apply popularityPoints_mono. unfold inOrder, byPopularityDesc in Hab. lia.
    + apply Sorted_take, stableSort_Sorted, byPopularityDesc_asym.
Qed.

Lemma filterTracks_noFeatures_scores analysis (tracks : list Track) (maxTracks : nat) :
  Forall (fun t => features t = None) tracks ->
  Forall (fun s =>
            (score s == popularityPoints (track s) + genreScoreOf analysis (track s))%Q
            /\ scoreDetails s = None /\ features (track s) = None)
         (filterTracksByAIAnalysis analysis tracks maxTracks).
Proof.
  intros Hnf. unfold filterTracksByAIAnalysis. cbv zeta.
  rewrite (List_filter_none hasFeatures tracks).
  2: { eapply Forall_impl; [exact Hnf|]. intros t Ht. unfold hasFeatures. now rewrite Ht. }
  apply Forall_take. rewrite stableSort_Permutation.
  apply Forall_forall. intros s Hs.
  apply list_elem_of_fmap in Hs as (t & -> & Ht).
  assert (Hf : features t = None).
  { destruct (length [] <? maxTracks * 2)%nat in Ht; [|now apply elem_of_nil in Ht].
    simpl in Ht. apply elem_of_take in Ht as (i & Ht & _).
    apply list_elem_of_lookup_2 in Ht. rewrite stableSort_Permutation in Ht.
    apply elem_of_List_filter in Ht as [Ht _].
    rewrite Forall_forall in Hnf. now apply Hnf. }
  destruct (score_noFeatures analysis t Hf) as (Hs & Hd & Ht').
  rewrite Ht'. now repeat split.
Qed.




(** ** Running programs *)

Lemma mbind_bind {A B} (p : Prog A) (f : A -> Prog B) : (p ≫= f) = bind p f.
Proof. reflexivity. Qed.

Lemma mret_Ret {A} (a : A) : mret a = Ret a.
Proof. reflexivity. Qed.

Lemma run_Vis {S A X} (w : World S) (c : Call X) (k : X -> Prog A) s m :
  run w (Vis c k) s m
  = let r := run w (k (step w c s m).1.1) (step w c s m).1.2 (step w c s m).2 in
    {| outcome := outcome r; world := world r; store := store r;
       trace := event c :: trace r |}.
Proof. simpl. now destruct (step w c s m) as [[x s'] m']. Qed.

Lemma run_bind {S A B} (w : World S) (p : Prog A) (f : A -> Prog B) s m :
  run w (bind p f) s m
  = match outcome (run w p s m) with
    | Returned a =>
        let r2 := run w (f a) (world (run w p s m)) (store (run w p s m)) in
        {| outcome := outcome r2; world := world r2; store := store r2;
           trace := trace (run w p s m) ++ trace r2 |}
    | Thrown error =>
        {| outcome := Thrown error; world := world (run w p s m);
           store := store (run w p s m); trace := trace (run w p s m) |}
    end.
Proof.
  revert s m. induction p as [a|error|X c k IH]; intros s m.
  - simpl. now destruct (run w (f a) s m).
  - reflexivity.
  - change (bind (Vis c k) f) with (Vis c (fun x => bind (k x) f)).
    rewrite !run_Vis. cbv zeta. rewrite IH. simpl.
    now destruct (outcome (run w (k _) _ _)).
Qed.

Lemma run_tryCatch {S A} (w : World S) (p : Prog A) (handler : string -> Prog A) s m :
  run w (tryCatch p handler) s m
  = match outcome (run w p s m) with
    | Returned a => run w p s m
    | Thrown error =>
        let r2 := run w (handler error) (world (run w p s m)) (store (run w p s m)) in
        {| outcome := outcome r2; world := world r2; store := store r2;
           trace := trace (run w p s m) ++ trace r2 |}
    end.
Proof.
  revert s m. induction p as [a|error|X c k IH]; intros s m.
  - reflexivity.
  - simpl. now destruct (run w (handler error) s m).
  - change (tryCatch (Vis c k) handler) with (Vis c (fun x => tryCatch (k x) handler)).
    rewrite !run_Vis. cbv zeta. rewrite IH. simpl.
    destruct (outcome (run w (k _) _ _)) eqn:E; simpl; rewrite ?E; reflexivity.
Qed.

(** ** Rules for triples *)

Section Triples.
Context {S : Type} (w : World S).

Lemma Triple_Ret {A} (a : A) Q E : Q a [] -> Triple w (Ret a) Q E.
Proof. intros H s m. exact H. Qed.

Lemma Triple_Throw {A} error (Q : A -> list Event -> Prop) E :
  E error [] -> Triple w (Throw error) Q E.
Proof. intros H s m. exact H. Qed.

Lemma Triple_Vis {A X} (c : Call X) (k : X -> Prog A) Q E :
  (forall x, Answer w c x ->
     Triple w (k x) (fun a t => Q a (event c :: t)) (fun e t => E e (event c :: t))) ->
  Triple w (Vis c k) Q E.
Proof.
  intros H s m. rewrite run_Vis. cbv zeta. simpl.
  apply (H (step w c s m).1.1). now exists s, m.
Qed.

Lemma Triple_bind {A B} (p : Prog A) (f : A -> Prog B) Q1 E1 Q E :
  Triple w p Q1 E1 ->
  (forall a t1, Q1 a t1 ->
     Triple w (f a) (fun b t2 => Q b (t1 ++ t2)) (fun e t2 => E e (t1 ++ t2))) ->
  (forall e t, E1 e t -> E e t) ->
  Triple w (bind p f) Q E.
Proof.
  intros Hp Hf HE s m. rewrite run_bind. specialize (Hp s m).
  destruct (outcome (run w p s m)) as [a|error].
  - cbv zeta. simpl. exact (Hf a _ Hp _ _).
  - simpl. now apply HE.
Qed.

Lemma Triple_tryCatch {A} (p : Prog A) (handler : string -> Prog A) E1 Q E :
  Triple w p Q E1 ->
  (forall e t1, E1 e t1 ->
     Triple w (handler e) (fun a t2 => Q a (t1 ++ t2)) (fun e' t2 => E e' (t1 ++ t2))) ->
  Triple w (tryCatch p handler) Q E.
Proof.
  intros Hp Hh s m. rewrite run_tryCatch. specialize (Hp s m).
  destruct (outcome (run w p s m)) as [a|error] eqn:Ho.
  - now rewrite Ho.
  - cbv zeta. simpl. exact (Hh error _ Hp _ _).
Qed.

Lemma Triple_weaken {A} (p : Prog A) (Q Q' : A -> list Event -> Prop) E E' :
  Triple w p Q E ->
  (forall a t, Q a t -> Q' a t) -> (forall e t, E e t -> E' e t) ->
  Triple w p Q' E'.
Proof.
  intros Hp HQ HE s m. specialize (Hp s m).
  destruct (outcome (run w p s m)); auto.
Qed.

(** What holds of all calls of a program holds of its traces. *)
Lemma Calls_Triple {A} (P : Event -> Prop) (p : Prog A) :
  Calls P p ->
  Triple w p (fun _ t => Forall P t) (fun _ t => Forall P t).
Proof.
  induction 1 as [a|error|X c k Hc _ IH].
  - apply Triple_Ret. constructor.
  - apply Triple_Throw. constructor.
  - apply Triple_Vis. intros x _.
    eapply Triple_weaken; [apply IH| |]; simpl; intros; now constructor.
Qed.
End Triples.

Lemma Calls_trace {S A} (P : Event -> Prop) (w : World S) (p : Prog A) s m :
  Calls P p -> Forall P (trace (run w p s m)).
Proof.
  intros H. pose proof (Calls_Triple w P p H s m) as Ht.
  now destruct (outcome (run w p s m)).
Qed.

(** ** Rules for [Calls] *)

Lemma Calls_bind {A B} (P : Event -> Prop) (p : Prog A) (f : A -> Prog B) :
  Calls P p -> (forall a, Calls P (f a)) -> Calls P (bind p f).
Proof.
  intros Hp Hf. induction Hp as [a|error|X c k Hc _ IH]; simpl.
  - apply Hf.
  - constructor.
  - constructor; [exact Hc | exact IH].
Qed.

Lemma Calls_tryCatch {A} (P : Event -> Prop) (p : Prog A) (handler : string -> Prog A) :
  Calls P p -> (forall e, Calls P (handler e)) -> Calls P (tryCatch p handler).
Proof.
  intros Hp Hh. induction Hp as [a|error|X c k Hc _ IH]; simpl.
  - constructor.
  - apply Hh.
  - constructor; [exact Hc | exact IH].
Qed.

Lemma Calls_call {X} (P : Event -> Prop) (c : Call X) :
  P (event c) -> Calls P (call c).
Proof. intros H. apply Calls_Vis; [exact H | intros x; constructor]. Qed.

Lemma Calls_mbind {A B} (P : Event -> Prop) (p : Prog A) (f : A -> Prog B) :
  Calls P p -> (forall a, Calls P (f a)) -> Calls P (p ≫= f).
Proof. apply Calls_bind. Qed.

Lemma Calls_mret {A} (P : Event -> Prop) (a : A) : Calls P (mret a).
Proof. apply Calls_Ret. Qed.

(** One step of a proof that a program makes no call to getRecommendations. *)
Ltac calls_step :=
  first
    [ apply Calls_mret
    | apply Calls_Ret
    | apply Calls_Throw
    | apply Calls_call; intros []
    | apply Calls_mbind; [|intros ?]
    | apply Calls_bind; [|intros ?]
    | apply Calls_tryCatch; [|intros ?]
    | apply Calls_Vis; [intros [] | intros ?]
    | match goal with
      | |- Calls _ (match ?x with _ => _ end) => destruct x
      | |- Calls _ (if ?x then _ else _) => destruct x
      | |- Calls _ (let _ := _ in _) => cbv zeta
      end ].

Ltac calls := repeat calls_step.

(** ** No part of the pipeline calls getRecommendations *)

Section NoRecommendations.
Variable JSON_parse : string -> option LLMAnalysis.
Local Abbreviation quiet := (Calls notRecommendations).

Lemma quiet_analyzePlaylistPrompt prompt :
  quiet (analyzePlaylistPrompt JSON_parse prompt).
Proof. unfold analyzePlaylistPrompt. calls. Qed.

Lemma quiet_updatePlaylistProgress playlistId stage progress message mode :
  quiet (updatePlaylistProgress playlistId stage progress message mode).
Proof. unfold updatePlaylistProgress. calls. Qed.

Lemma quiet_fetchLikedSongs accessToken config :
  quiet (fetchLikedSongs accessToken config).
Proof. unfold fetchLikedSongs. calls. Qed.

Lemma quiet_fetchTopTracksLoop accessToken ranges allTopTracks :
  quiet (fetchTopTracksLoop accessToken ranges allTopTracks).
Proof.
  revert allTopTracks.
  induction ranges as [|r ranges IH]; intros acc; cbn [fetchTopTracksLoop].
  - calls.
  - repeat first [ apply IH | calls_step ].
Qed.

Lemma quiet_fetchTopTracks accessToken config :
  quiet (fetchTopTracks accessToken config).
Proof.
  unfold fetchTopTracks.
  repeat first [ apply quiet_fetchTopTracksLoop | calls_step ].
Qed.

Lemma quiet_fetchPlaylistTracks accessToken playlistId config :
  quiet (fetchPlaylistTracks accessToken playlistId config).
Proof. unfold fetchPlaylistTracks. calls. Qed.

Lemma quiet_fetchPlaylistsLoop {St} accessToken config
    (callback : option (Z -> St -> Prog St)) count i ids allTracks st :
  (forall f progress st, callback = Some f -> quiet (f progress st)) ->
  quiet (fetchPlaylistsLoop accessToken config callback count i ids allTracks st).
Proof.
  intros Hcb. revert i allTracks st.
  induction ids as [|pid ids IH]; intros i allTracks st; cbn [fetchPlaylistsLoop].
  - calls.
  - apply Calls_mbind; [apply quiet_fetchPlaylistTracks|]. intros tracks.
    apply Calls_mbind; [|intros st'; apply IH].
    destruct callback as [f|]; [now apply Hcb | calls].
Qed.

Lemma quiet_fetchSelectedPlaylistTracks {St} accessToken ids config
    (callback : option (Z -> St -> Prog St)) st :
  (forall f progress st, callback = Some f -> quiet (f progress st)) ->
  quiet (fetchSelectedPlaylistTracks accessToken ids config callback st).
Proof.
  intros Hcb. unfold fetchSelectedPlaylistTracks. cbv zeta.
  apply Calls_mbind; [now apply quiet_fetchPlaylistsLoop | intros r; calls].
Qed.

Lemma quiet_updateProgress callback stage progress message current :
  (forall f p, callback = Some f -> quiet (f p)) ->
  quiet (updateProgress callback stage progress message current).
Proof.
  intros Hcb. unfold updateProgress. cbv zeta.
  destruct callback as [f|]; [|calls].
  apply Calls_mbind; [now apply Hcb | intros ?; calls].
Qed.

Lemma quiet_collectTracks accessToken sources mode callback :
  (forall f p, callback = Some f -> quiet (f p)) ->
  quiet (collectTracks accessToken sources mode callback).
Proof.
  intros Hcb. unfold collectTracks. cbv zeta.
  repeat first
    [ apply quiet_updateProgress; exact Hcb
    | apply quiet_fetchLikedSongs
    | apply quiet_fetchTopTracks
    | apply quiet_fetchSelectedPlaylistTracks;
      intros f progress st [= <-]; apply quiet_updateProgress; exact Hcb
    | calls_step ].
Qed.

Lemma quiet_fetchPlaylistSizes accessToken sources :
  quiet (fetchPlaylistSizes accessToken sources).
Proof. unfold fetchPlaylistSizes. calls. Qed.

Lemma quiet_featuresOneByOne accessToken trackBatch batchWithFeatures :
  quiet (featuresOneByOne accessToken trackBatch batchWithFeatures).
Proof.
  revert batchWithFeatures.
  induction trackBatch as [|t l IH]; intros acc; cbn [featuresOneByOne]; [calls|].
  apply Calls_mbind; [calls | intros entry; apply IH].
Qed.

Lemma quiet_featuresForBatch accessToken trackBatch tracksWithFeatures :
  quiet (featuresForBatch accessToken trackBatch tracksWithFeatures).
Proof.
  unfold featuresForBatch. cbv zeta.
  repeat first [ apply quiet_featuresOneByOne | calls_step ].
Qed.

Lemma quiet_featuresLoop accessToken batches tracksWithFeatures :
  quiet (featuresLoop accessToken batches tracksWithFeatures).
Proof.
  revert tracksWithFeatures.
  induction batches as [|b l IH]; intros acc; cbn [featuresLoop]; [calls|].
  apply Calls_mbind; [apply quiet_featuresForBatch | intros ?; apply IH].
Qed.

Lemma quiet_fetchFeatures accessToken collectedTracks :
  quiet (fetchFeatures accessToken collectedTracks).
Proof.
  unfold fetchFeatures.
  repeat first [ apply quiet_featuresLoop | calls_step ].
Qed.

Lemma quiet_addTracksToPlaylist playlistId accessToken selectedTracks :
  quiet (addTracksToPlaylist playlistId accessToken selectedTracks).
Proof. unfold addTracksToPlaylist. calls. Qed.

Lemma quiet_saveToDatabase record : quiet (saveToDatabase record).
Proof. unfold saveToDatabase. calls. Qed.

Lemma quiet_afterCreate prompt accessToken sources mode target estimated
    analysis matched title desc playlist :
  quiet (afterCreate prompt accessToken sources mode target estimated
           analysis matched title desc playlist).
Proof.
  unfold afterCreate. cbv zeta.
  repeat first
    [ apply quiet_updatePlaylistProgress
    | apply quiet_collectTracks;
      intros f p [= <-]; apply quiet_updatePlaylistProgress
    | apply quiet_fetchFeatures
    | apply quiet_addTracksToPlaylist
    | apply quiet_saveToDatabase
    | calls_step ].
Qed.

Lemma quiet_generatePlaylist req : quiet (generatePlaylist JSON_parse req).
Proof.
  unfold generatePlaylist. cbv zeta.
  repeat first
    [ apply quiet_updatePlaylistProgress
    | apply quiet_analyzePlaylistPrompt
    | apply quiet_fetchPlaylistSizes
    | apply quiet_afterCreate
    | calls_step ].
Qed.

Lemma collectTracks_ignores_recommendations accessToken s1 s2 mode callback :
  useLikedSongs s1 = useLikedSongs s2 ->
  useTopTracks s1 = useTopTracks s2 ->
  playlists s1 = playlists s2 ->
  collectTracks accessToken s1 mode callback
  = collectTracks accessToken s2 mode callback.
Proof.
  destruct s1, s2. simpl. intros -> -> ->. reflexivity.
Qed.

Lemma recommendations_cost (s : PlaylistSources) mode sizes :
  (estimatedSecondsRaw (withRecommendations s true) mode sizes
   == estimatedSecondsRaw (withRecommendations s false) mode sizes + 5)%Q.
Proof. unfold estimatedSecondsRaw. cbv zeta. simpl. ring. Qed.

(** C10. Two selections that differ in useRecommendations only are
    collected by the same program, so the pool, the progress reports and
    the calls made are the same in every world; neither collectTracks
    nor the generate-playlist route ever calls getRecommendations; yet
    the estimate charges 5 seconds for the flag. *)
Theorem recommendations_never_fetched :
  (forall accessToken s1 s2 mode callback,
      useLikedSongs s1 = useLikedSongs s2 ->
      useTopTracks s1 = useTopTracks s2 ->
      playlists s1 = playlists s2 ->
      collectTracks accessToken s1 mode callback
      = collectTracks accessToken s2 mode callback
      /\ forall S (w : World S) st m,
           outcome (run w (collectTracks accessToken s1 mode callback) st m)
           = outcome (run w (collectTracks accessToken s2 mode callback) st m))
  /\ (forall accessToken sources mode callback S (w : World S) st m,
        (forall f p, callback = Some f -> Calls notRecommendations (f p)) ->
        Forall notRecommendations
          (trace (run w (collectTracks accessToken sources mode callback) st m)))
  /\ (forall req S (w : World S) st m,
        Forall notRecommendations
          (trace (run w (generatePlaylist JSON_parse req) st m)))
  /\ (forall s mode sizes,
        (estimatedSecondsRaw (withRecommendations s true) mode sizes
         == estimatedSecondsRaw (withRecommendations s false) mode sizes + 5)%Q).
Proof.
  split; [|split; [|split]].
  - intros tok s1 s2 mode cb Hl Ht Hp.
    pose proof (collectTracks_ignores_recommendations tok s1 s2 mode cb Hl Ht Hp) as E.
    split; [exact E|]. intros. now rewrite E.
  - intros tok sources mode cb S w st m Hcb.
    now apply Calls_trace, quiet_collectTracks.
  - intros req S w st m. apply Calls_trace, quiet_generatePlaylist.
  - apply recommendations_cost.
Qed.
End NoRecommendations.

(** ** Programs that never throw *)

Lemma Safe_bind {A B} (p : Prog A) (f : A -> Prog B) :
  Safe p -> (forall a, Safe (f a)) -> Safe (bind p f).
Proof.
  intros Hp Hf. induction Hp as [a|X c k _ IH]; simpl; [apply Hf|].
  constructor. exact IH.
Qed.

Lemma Safe_mbind {A B} (p : Prog A) (f : A -> Prog B) :
  Safe p -> (forall a, Safe (f a)) -> Safe (p ≫= f).
Proof. apply Safe_bind. Qed.

Lemma Safe_mret {A} (a : A) : Safe (mret a).
Proof. apply Safe_Ret. Qed.

Lemma Safe_call {X} (c : Call X) : Safe (call c).
Proof. constructor. intros x. constructor. Qed.

(** A [try] whose [catch] never throws never throws. *)
Lemma Safe_tryCatch {A} (p : Prog A) (handler : string -> Prog A) :
  (forall e, Safe (handler e)) -> Safe (tryCatch p handler).
Proof.
  intros Hh. induction p as [a|error|X c k IH]; simpl.
  - constructor.
  - apply Hh.
  - constructor. exact IH.
Qed.

Lemma Safe_Triple {S A} (w : World S) (p : Prog A) :
  Safe p -> Triple w p (fun _ _ => True) (fun _ _ => False).
Proof.
  induction 1 as [a|X c k _ IH].
  - now apply Triple_Ret.
  - apply Triple_Vis. intros x _. apply IH.
Qed.

Ltac safe_step :=
  first
    [ apply Safe_mret
    | apply Safe_Ret
    | apply Safe_call
    | apply Safe_tryCatch; intros ?
    | apply Safe_mbind; [|intros ?]
    | apply Safe_bind; [|intros ?]
    | apply Safe_Vis; intros ?
    | match goal with
      | |- Safe (match ?x with _ => _ end) => destruct x
      | |- Safe (if ?x then _ else _) => destruct x
      | |- Safe (let _ := _ in _) => cbv zeta
      end ].

Ltac safe := repeat safe_step.

Section SafePrograms.
Variable JSON_parse : string -> option LLMAnalysis.

Lemma Safe_analyzePlaylistPrompt prompt :
  Safe (analyzePlaylistPrompt JSON_parse prompt).
Proof. unfold analyzePlaylistPrompt. safe. Qed.

Lemma Safe_updatePlaylistProgress playlistId stage progress message mode :
  Safe (updatePlaylistProgress playlistId stage progress message mode).
Proof. unfold updatePlaylistProgress. safe. Qed.

Lemma Safe_fetchLikedSongs accessToken config :
  Safe (fetchLikedSongs accessToken config).
Proof. unfold fetchLikedSongs. safe. Qed.

Lemma Safe_fetchTopTracksLoop accessToken ranges allTopTracks :
  Safe (fetchTopTracksLoop accessToken ranges allTopTracks).
Proof.
  revert allTopTracks.
  induction ranges as [|r ranges IH]; intros acc; cbn [fetchTopTracksLoop].
  - safe.
  - repeat first [ apply IH | safe_step ].
Qed.

Lemma Safe_fetchTopTracks accessToken config :
  Safe (fetchTopTracks accessToken config).
Proof.
  unfold fetchTopTracks.
  repeat first [ apply Safe_fetchTopTracksLoop | safe_step ].
Qed.

Lemma Safe_fetchPlaylistTracks accessToken playlistId config :
  Safe (fetchPlaylistTracks accessToken playlistId config).
Proof. unfold fetchPlaylistTracks. safe. Qed.

Lemma Safe_fetchPlaylistsLoop {St} accessToken config
    (callback : option (Z -> St -> Prog St)) count i ids allTracks st :
  (forall f progress st, callback = Some f -> Safe (f progress st)) ->
  Safe (fetchPlaylistsLoop accessToken config callback count i ids allTracks st).
Proof.
  intros Hcb. revert i allTracks st.
  induction ids as [|pid ids IH]; intros i allTracks st; cbn [fetchPlaylistsLoop].
  - safe.
  - apply Safe_mbind; [apply Safe_fetchPlaylistTracks|]. intros tracks.
    apply Safe_mbind; [|intros st'; apply IH].
    destruct callback as [f|]; [now apply Hcb | safe].
Qed.

Lemma Safe_fetchSelectedPlaylistTracks {St} accessToken ids config
    (callback : option (Z -> St -> Prog St)) st :
  (forall f progress st, callback = Some f -> Safe (f progress st)) ->
  Safe (fetchSelectedPlaylistTracks accessToken ids config callback st).
Proof.
  intros Hcb. unfold fetchSelectedPlaylistTracks. cbv zeta.
  apply Safe_mbind; [now apply Safe_fetchPlaylistsLoop | intros r; safe].
Qed.

Lemma Safe_updateProgress callback stage progress message current :
  (forall f p, callback = Some f -> Safe (f p)) ->
  Safe (updateProgress callback stage progress message current).
Proof.
  intros Hcb. unfold updateProgress. cbv zeta.
  destruct callback as [f|]; [|safe].
  apply Safe_mbind; [now apply Hcb | intros ?; safe].
Qed.

Lemma Safe_collectTracks accessToken sources mode callback :
  (forall f p, callback = Some f -> Safe (f p)) ->
  Safe (collectTracks accessToken sources mode callback).
Proof.
  intros Hcb. unfold collectTracks. cbv zeta.
  repeat first
    [ apply Safe_updateProgress; exact Hcb
    | apply Safe_fetchLikedSongs
    | apply Safe_fetchTopTracks
    | apply Safe_fetchSelectedPlaylistTracks;
      intros f progress st [= <-]; apply Safe_updateProgress; exact Hcb
    | safe_step ].
Qed.

Lemma Safe_fetchPlaylistSizes accessToken sources :
  Safe (fetchPlaylistSizes accessToken sources).
Proof. unfold fetchPlaylistSizes. safe. Qed.

Lemma Safe_fetchFeatures accessToken collectedTracks :
  Safe (fetchFeatures accessToken collectedTracks).
Proof. unfold fetchFeatures. safe. Qed.

Lemma Safe_saveToDatabase record : Safe (saveToDatabase record).
Proof. unfold saveToDatabase. safe. Qed.
End SafePrograms.

(** ** The prompt analyzer *)

Lemma fallbackAnalysis_default : IsDefaultAnalysis fallbackAnalysis.
Proof. unfold IsDefaultAnalysis. repeat split. Qed.

Lemma length_substring_97 (d : string) :
  (97 <= String.length d)%nat -> String.length (String.substring 0 97 d) = 97%nat.
Proof.
  generalize 97%nat. intros n. revert d.
  induction n as [|n IH]; intros d H.
  - now destruct d.
  - destruct d as [|c d]; simpl in *; [lia|]. rewrite IH; [reflexivity | lia].
Qed.

Lemma length_append (s t : string) :
  String.length (s +:+ t) = (String.length s + String.length t)%nat.
Proof.
  induction s as [|c s IH]; [reflexivity|].
  rewrite append_String. simpl. now rewrite IH.
Qed.

Lemma truncated_length (d : string) :
  (String.length (spec_description d) <= 100)%nat.
Proof.
  unfold spec_description. destruct (100 <? String.length d)%nat eqn:E.
  - apply Nat.ltb_lt in E. rewrite length_append, length_substring_97 by lia.
    simpl. lia.
  - apply Nat.ltb_ge in E. exact E.
Qed.

Lemma truncateDescription_spec (llm : LLMAnalysis) :
  llm_description (truncateDescription llm) = spec_description <$> llm_description llm
  /\ llm_genres (truncateDescription llm) = llm_genres llm
  /\ llm_moods (truncateDescription llm) = llm_moods llm
  /\ llm_energy_range (truncateDescription llm) = llm_energy_range llm
  /\ llm_tempo_range (truncateDescription llm) = llm_tempo_range llm
  /\ llm_danceability_range (truncateDescription llm) = llm_danceability_range llm
  /\ llm_acousticness_range (truncateDescription llm) = llm_acousticness_range llm
  /\ llm_instrumentalness_range (truncateDescription llm)
     = llm_instrumentalness_range llm
  /\ llm_valence_range (truncateDescription llm) = llm_valence_range llm
  /\ llm_filter_logic (truncateDescription llm) = llm_filter_logic llm
  /\ llm_popularity_level (truncateDescription llm) = llm_popularity_level llm.
Proof.
  unfold truncateDescription, spec_description.
  destruct (llm_description llm) as [d|] eqn:Ed; [|rewrite Ed; now repeat split].
  destruct (100 <? String.length d)%nat eqn:E.
  - assert (Hne : String.eqb d "" = false).
    { destruct d; [discriminate | reflexivity]. }
    rewrite Hne. simpl. rewrite E. now repeat split.
  - rewrite andb_false_r. rewrite Ed. simpl. rewrite E. now repeat split.
Qed.

Lemma mergeAnalysis_backfilled (llm : LLMAnalysis) :
  Backfilled llm (mergeAnalysis defaultAnalysis (truncateDescription llm)).
Proof.
  destruct (truncateDescription_spec llm)
    as (Hd & Hg & Hm & He & Ht & Hda & Ha & Hi & Hv & Hf & Hp).
  unfold Backfilled, mergeAnalysis. simpl.
  rewrite Hd, Hg, Hm, He, Ht, Hda, Ha, Hi, Hv, Hf, Hp.
  repeat (split; [reflexivity|]).
  destruct (llm_description llm) as [d|]; [left | now right].
  simpl. apply truncated_length.
Qed.

Section Analyzer.
Variable JSON_parse : string -> option LLMAnalysis.
Context {S : Type} (w : World S).

End Analyzer.

(** ** Reading the progress *)

Lemma outcome_run_Vis {S A X} (w : World S) (c : Call X) (k : X -> Prog A) s m :
  outcome (run w (Vis c k) s m)
  = outcome (run w (k (step w c s m).1.1) (step w c s m).1.2 (step w c s m).2).
Proof. now rewrite run_Vis. Qed.

Lemma progressRoute_known {S} (w : World S) (key : string) s m entry :
  key <> "" -> m !! key = Some entry ->
  outcome (run w (progressRoute (Some key)) s m)
  = Returned {| status := 200;
                body := EntryBody (withRemaining entry
                                     (remainingEstimate entry (w _ Now s).1)) |}.
Proof.
  intros Hkey Hm. unfold progressRoute.
  destruct key as [|c key]; [congruence|].
  change (call (MapGet ?k) ≫= ?f) with (Vis (MapGet k) f).
  cbn [tryCatch]. rewrite outcome_run_Vis. cbn [step fst snd]. rewrite Hm.
  change (call Now ≫= ?f) with (Vis Now f).
  cbn [tryCatch]. rewrite outcome_run_Vis. unfold step.
  now destruct (w _ Now s).
Qed.

Lemma progressRoute_unknown {S} (w : World S) (key : string) s m :
  key <> "" -> m !! key = None ->
  outcome (run w (progressRoute (Some key)) s m)
  = Returned {| status := 200; body := ProgressBody defaultProgress |}.
Proof.
  intros Hkey Hm. unfold progressRoute.
  destruct key as [|c key]; [congruence|].
  change (call (MapGet ?k) ≫= ?f) with (Vis (MapGet k) f).
  cbn [tryCatch]. rewrite outcome_run_Vis. cbn [step fst snd]. now rewrite Hm.
Qed.

Lemma Safe_progressRoute playlistId : Safe (progressRoute playlistId).
Proof. unfold progressRoute. safe. Qed.

Lemma Safe_returns {S A} (w : World S) (p : Prog A) s m :
  Safe p -> exists a, outcome (run w p s m) = Returned a.
Proof.
  intros H. pose proof (Safe_Triple w p H s m) as Ht.
  destruct (outcome (run w p s m)) as [a|e]; [now exists a | destruct Ht].
Qed.

Lemma remainingEstimate_bounds (entry : ProgressEntry) (now : Z) :
  (0 <= remainingEstimate entry now)%Q
  /\ (progress (entryProgress entry) < 20 ->
      (inject_Z (getEstimatedTimeForMode (processingMode entry)) * (8 # 10)
       <= remainingEstimate entry now)%Q).
Proof.
  unfold remainingEstimate. cbv zeta.
  destruct (progress (entryProgress entry) <? 20) eqn:E.
  - split; [|intros _; apply Q.le_max_r].
    eapply Qle_trans; [|apply Q.le_max_l]. apply Q.le_max_l.
  - split; [apply Q.le_max_l | intros H; apply Z.ltb_ge in E; lia].
Qed.




(** ** The collector *)

Example uniqueById_keeps_last :
  uniqueById [sampleTrack "a" 10 None; sampleTrack "b" 90 None;
              sampleTrack "a" 11 None]
  = [sampleTrack "a" 11 None; sampleTrack "b" 90 None].
Proof. reflexivity. Qed.

Lemma run_mbind_assoc {S A B C} (w : World S) (p : Prog A) (f : A -> Prog B)
    (g : B -> Prog C) s m :
  run w ((p ≫= f) ≫= g) s m = run w (p ≫= (fun a => f a ≫= g)) s m.
Proof.
  rewrite !mbind_bind. rewrite (run_bind w (bind p f) g), (run_bind w p f).
  rewrite (run_bind w p (fun a => f a ≫= g)).
  destruct (outcome (run w p s m)) as [a|error]; [|reflexivity].
  cbv zeta. cbn [outcome world store trace].
  rewrite mbind_bind, (run_bind w (f a) g).
  destruct (outcome (run w (f a) _ _)) as [b|error]; cbn [outcome world store trace].
  - now rewrite app_assoc.
  - reflexivity.
Qed.

Lemma run_mbind_ext {S A B} (w : World S) (p : Prog A) (f g : A -> Prog B) s m :
  (forall a s m, run w (f a) s m = run w (g a) s m) ->
  run w (p ≫= f) s m = run w (p ≫= g) s m.
Proof.
  intros H. rewrite !mbind_bind, !run_bind.
  destruct (outcome (run w p s m)) as [a|error]; [|reflexivity].
  cbv zeta. now rewrite H.
Qed.

Lemma run_collectTracks_split {S} (w : World S) accessToken sources mode callback s m :
  run w (collectTracks accessToken sources mode callback) s m
  = run w (gatherTracks accessToken sources mode callback
           ≫= finishCollect (PROCESSING_CONFIGS mode) callback) s m.
Proof.
  unfold gatherTracks. cbv zeta.
  rewrite run_mbind_assoc. unfold collectTracks. cbv zeta.
  apply run_mbind_ext. intros r1 s1 m1.
  rewrite run_mbind_assoc.
  apply run_mbind_ext. intros r2 s2 m2. reflexivity.
Qed.

Lemma Triple_mbind {S A B} (w : World S) (p : Prog A) (f : A -> Prog B) Q1 E1 Q E :
  Triple w p Q1 E1 ->
  (forall a t1, Q1 a t1 ->
     Triple w (f a) (fun b t2 => Q b (t1 ++ t2)) (fun e t2 => E e (t1 ++ t2))) ->
  (forall e t, E1 e t -> E e t) ->
  Triple w (p ≫= f) Q E.
Proof. apply Triple_bind. Qed.

(** Every program returns or throws. *)
Lemma Triple_any {S A} (w : World S) (p : Prog A) :
  Triple w p (fun _ _ => True) (fun _ _ => True).
Proof. intros s m. now destruct (outcome (run w p s m)). Qed.

Lemma Triple_outcome {S A} (w : World S) (p : Prog A) Q E s m a :
  Triple w p Q E -> outcome (run w p s m) = Returned a -> Q a (trace (run w p s m)).
Proof. intros H Ho. specialize (H s m). now rewrite Ho in H. Qed.

(** Past a part of the program of which nothing needs to be known. *)
Ltac triple_skip :=
  eapply Triple_mbind; [apply Triple_any | intros ? ? _; cbv beta | trivial].

Lemma finishCollect_pool {S} (w : World S) config callback r :
  Triple w (finishCollect config callback r)
    (fun pool _ => pool = poolOf config (fst r)) (fun _ _ => True).
Proof.
  unfold finishCollect, poolOf. cbv zeta.
  triple_skip.
  eapply Triple_mbind with
    (Q1 := fun r' _ => fst r' = if poolCap config (uniqueById r.1)
                                then take (Z.to_nat (targetPoolSize config))
                                          (uniqueById r.1)
                                else uniqueById r.1)
    (E1 := fun _ _ => True); [| |trivial].
  - destruct (poolCap config (uniqueById r.1)).
    + triple_skip. now apply Triple_Ret.
    + now apply Triple_Ret.
  - intros r' t' Hr'. cbv beta. triple_skip. now apply Triple_Ret.
Qed.

Lemma finishCollect_returns {S} (w : World S) config callback r s m pool :
  outcome (run w (finishCollect config callback r) s m) = Returned pool ->
  pool = poolOf config (fst r).
Proof. intros H. exact (Triple_outcome _ _ _ _ _ _ _ (finishCollect_pool w _ _ _) H). Qed.

Lemma collectTracks_pool {S} (w : World S) accessToken sources mode callback s m
    allTracks cur pool :
  outcome (run w (gatherTracks accessToken sources mode callback) s m)
  = Returned (allTracks, cur) ->
  outcome (run w (collectTracks accessToken sources mode callback) s m)
  = Returned pool ->
  pool = poolOf (PROCESSING_CONFIGS mode) allTracks.
Proof.
  intros Hg Hc. rewrite run_collectTracks_split, mbind_bind, run_bind, Hg in Hc.
  cbv zeta in Hc. cbn [outcome] in Hc.
  now apply finishCollect_returns in Hc.
Qed.

(** ** Removing duplicates with a [Map] *)

Lemma List_filter_ext_in {A} (f g : A -> bool) (l : list A) :
  (forall x, x ∈ l -> f x = g x) -> List.filter f l = List.filter g l.
Proof.
  induction l as [|x l IH]; intros H; simpl; [reflexivity|].
  rewrite (H x) by apply list_elem_of_here.
  rewrite IH; [reflexivity|]. intros y Hy. apply H. now apply list_elem_of_further.
Qed.

Lemma List_filter_filter {A} (f g : A -> bool) (l : list A) :
  List.filter f (List.filter g l) = List.filter (fun x => g x && f x) l.
Proof.
  induction l as [|x l IH]; simpl; [reflexivity|].
  destruct (g x); simpl; [destruct (f x)|]; now rewrite IH.
Qed.

Lemma arrayIncludes_app (l1 l2 : list string) (x : string) :
  arrayIncludes (l1 ++ l2) x = arrayIncludes l1 x || arrayIncludes l2 x.
Proof. unfold arrayIncludes. apply existsb_app. Qed.

Lemma arrayIncludes_false (arr : list string) (x : string) :
  arrayIncludes arr x = false <-> x ∉ arr.
Proof.
  rewrite <- arrayIncludes_spec. destruct (arrayIncludes arr x); split; congruence.
Qed.

Lemma mapSet_keys (key : string) (value : Track) (entries : list (string * Track)) :
  map fst (mapSet key value entries)
  = if arrayIncludes (map fst entries) key
    then map fst entries else map fst entries ++ [key].
Proof.
  induction entries as [|[k v] rest IH]; simpl; [reflexivity|].
  rewrite (String.eqb_sym key k).
  destruct (String.eqb k key) eqn:E; simpl; [reflexivity|].
  rewrite IH. unfold arrayIncludes. now destruct (existsb _ _).
Qed.

Lemma mapSet_NoDup (key : string) (value : Track) (entries : list (string * Track)) :
  NoDup (map fst entries) -> NoDup (map fst (mapSet key value entries)).
Proof.
  intros H. rewrite mapSet_keys.
  destruct (arrayIncludes (map fst entries) key) eqn:E; [exact H|].
  apply arrayIncludes_false in E. apply NoDup_app. split; [exact H|]. split.
  - intros x Hx Hx'. apply list_elem_of_singleton in Hx' as ->. contradiction.
  - apply NoDup_singleton.
Qed.

Lemma mapSet_elem (key : string) (value : Track) (entries : list (string * Track))
    (k : string) (v : Track) :
  NoDup (map fst entries) ->
  (k, v) ∈ mapSet key value entries ->
  (k = key /\ v = value) \/ ((k, v) ∈ entries /\ k <> key).
Proof.
  induction entries as [|[k0 v0] rest IH]; simpl; intros Hnd H.
  - apply list_elem_of_singleton in H. injection H as -> ->. now left.
  - apply NoDup_cons in Hnd as [Hk0 Hnd].
    destruct (String.eqb k0 key) eqn:E.
    + apply String.eqb_eq in E as ->.
      apply elem_of_cons in H as [H|H].
      * injection H as -> ->. now left.
      * right. split; [now apply list_elem_of_further|].
        intros ->. apply Hk0. apply list_elem_of_fmap. now exists (key, v).
    + apply String.eqb_neq in E. apply elem_of_cons in H as [H|H].
      * injection H as -> ->. right. split; [apply list_elem_of_here | exact E].
      * destruct (IH Hnd H) as [?|[? ?]]; [now left|].
        right. split; [now apply list_elem_of_further | assumption].
Qed.

Lemma newMap_from_elem (pairs acc : list (string * Track)) (k : string) (v : Track) :
  NoDup (map fst acc) ->
  (k, v) ∈ fold_left (fun entries kv => mapSet (fst kv) (snd kv) entries) pairs acc ->
  (exists l1 l2, pairs = l1 ++ (k, v) :: l2 /\ k ∉ map fst l2)
  \/ ((k, v) ∈ acc /\ k ∉ map fst pairs).
Proof.
  revert acc. induction pairs as [|[k0 v0] rest IH]; intros acc Hnd H; simpl in *.
  - right. split; [exact H | apply not_elem_of_nil].
  - destruct (IH _ (mapSet_NoDup k0 v0 acc Hnd) H) as [(l1 & l2 & -> & Hl2)|[Hin Hk]].
    + left. now exists ((k0, v0) :: l1), l2.
    + destruct (mapSet_elem _ _ _ _ _ Hnd Hin) as [[-> ->]|[Hacc Hne]].
      * left. now exists [], rest.
      * right. split; [exact Hacc|]. intros Hc.
        apply elem_of_cons in Hc as [Hc|Hc]; [now apply Hne | now apply Hk].
Qed.

Lemma newMap_from_keys (pairs acc : list (string * Track)) :
  map fst (fold_left (fun entries kv => mapSet (fst kv) (snd kv) entries) pairs acc)
  = map fst acc
    ++ List.filter (fun k => negb (arrayIncludes (map fst acc) k))
                   (dedupeStrings (map fst pairs)).
Proof.
  revert acc. induction pairs as [|[k0 v0] rest IH]; intros acc; simpl.
  - now rewrite app_nil_r.
  - rewrite IH, mapSet_keys.
    destruct (arrayIncludes (map fst acc) k0) eqn:E; simpl.
    + f_equal. rewrite List_filter_filter. apply List_filter_ext_in. intros x _.
      destruct (String.eqb k0 x) eqn:Ex; simpl; [|reflexivity].
      apply String.eqb_eq in Ex as <-. now rewrite E.
    + rewrite <- app_assoc. simpl. f_equal. f_equal.
      rewrite List_filter_filter. apply List_filter_ext_in. intros x _.
      rewrite arrayIncludes_app. unfold arrayIncludes at 2. simpl.
      rewrite orb_false_r, negb_orb, (String.eqb_sym x k0). apply andb_comm.
Qed.

Lemma List_filter_true {A} (l : list A) : List.filter (fun _ => true) l = l.
Proof. induction l as [|x l IH]; simpl; [reflexivity | now rewrite IH]. Qed.

Lemma newMap_keys (pairs : list (string * Track)) :
  map fst (newMap pairs) = dedupeStrings (map fst pairs).
Proof. unfold newMap. rewrite newMap_from_keys. simpl. apply List_filter_true. Qed.

Lemma newMap_elem (pairs : list (string * Track)) (k : string) (v : Track) :
  (k, v) ∈ newMap pairs ->
  exists l1 l2, pairs = l1 ++ (k, v) :: l2 /\ k ∉ map fst l2.
Proof.
  intros H. destruct (newMap_from_elem pairs [] k v (NoDup_nil_2) H) as [?|[Hin _]];
    [assumption | now apply elem_of_nil in Hin].
Qed.

(** The element kept for an id is the last one gathered with that id. *)
Lemma uniqueById_last (tracks : list Track) (t : Track) :
  t ∈ uniqueById tracks ->
  exists earlier later, tracks = earlier ++ t :: later /\ id t ∉ map id later.
Proof.
  unfold uniqueById. intros H.
  apply list_elem_of_fmap in H as ([k v] & -> & H). simpl.
  destruct (newMap_elem _ _ _ H) as (l1 & l2 & Hpairs & Hk).
  apply fmap_app_inv in Hpairs as (earlier & rest & -> & Hrest & ->).
  symmetry in Hrest. apply fmap_cons_inv in Hrest as (t' & later & Ht' & -> & ->).
  injection Ht' as -> ->.
  exists earlier, later. split; [reflexivity|].
  intros Hc. apply Hk. rewrite <- list_fmap_compose. exact Hc.
Qed.

(** The ids kept are the distinct ids gathered, in order of first occurrence. *)
Lemma uniqueById_ids (tracks : list Track) :
  map id (uniqueById tracks) = dedupeStrings (map id tracks).
Proof.
  unfold uniqueById.
  replace (map id tracks) with (map fst (map (fun t => (id t, t)) tracks))
    by (now rewrite map_map).
  rewrite <- newMap_keys, map_map. apply map_ext_Forall, Forall_forall. intros [k v] H.
  destruct (newMap_elem _ _ _ H) as (l1 & l2 & Hpairs & _). simpl.
  apply fmap_app_inv in Hpairs as (earlier & rest & _ & Hrest & _).
  symmetry in Hrest. apply fmap_cons_inv in Hrest as (t' & later & Ht' & _).
  now injection Ht' as -> ->.
Qed.

Lemma poolOf_ids (config : ProcessingConfig) (allTracks : list Track) :
  exists n, map id (poolOf config allTracks)
            = take n (dedupeStrings (map id allTracks))
            /\ (poolCap config (uniqueById allTracks) = false ->
                (length (dedupeStrings (map id allTracks)) <= n)%nat).
Proof.
  unfold poolOf. cbv zeta. destruct (poolCap config (uniqueById allTracks)).
  - exists (Z.to_nat (targetPoolSize config)).
    split; [|discriminate]. now rewrite <- uniqueById_ids, firstn_map.
  - exists (length (dedupeStrings (map id allTracks))).
    split; [|reflexivity]. now rewrite firstn_all, uniqueById_ids.
Qed.

(** C2 (as amended). Whatever the sources return, an id gathered more than
    once is in the pool at most once: the pool holds the distinct ids in the
    order of their first occurrence, cut to the target pool size; it holds
    every gathered id when that cut does not apply; and the track kept for an
    id is the last one gathered with it, so a later source replaces the data
    of an earlier one. *)
Theorem collectTracks_dedup {S : Type} (w : World S) (accessToken : string)
    (sources : PlaylistSources) (mode : ProcessingMode)
    (callback : option (ProcessingProgress -> Prog unit))
    (s : S) (m : gmap string ProgressEntry)
    (allTracks : list Track) (cur : ProcessingProgress) (pool : list Track) :
  outcome (run w (gatherTracks accessToken sources mode callback) s m)
  = Returned (allTracks, cur) ->
  outcome (run w (collectTracks accessToken sources mode callback) s m)
  = Returned pool ->
  pool = poolOf (PROCESSING_CONFIGS mode) allTracks
  /\ NoDup (map id pool)
  /\ (exists n, map id pool = take n (dedupeStrings (map id allTracks)))
  /\ (forall t, t ∈ pool ->
        exists earlier later,
          allTracks = earlier ++ t :: later /\ id t ∉ map id later)
  /\ (poolCap (PROCESSING_CONFIGS mode) (uniqueById allTracks) = false ->
      forall t, t ∈ allTracks -> id t ∈ map id pool).
Proof.
  intros Hg Hc.
  pose proof (collectTracks_pool w _ _ _ _ _ _ _ _ _ Hg Hc) as ->.
  destruct (poolOf_ids (PROCESSING_CONFIGS mode) allTracks) as (n & Hn & Hfull).
  split; [reflexivity|]. split; [|split; [|split]].
  - rewrite Hn. apply NoDup_take_prefix, dedupeStrings_NoDup.
  - now exists n.
  - intros t Ht. apply uniqueById_last. unfold poolOf in Ht. cbv zeta in Ht.
    destruct (poolCap _ _); [|exact Ht].
    apply elem_of_take in Ht as (i & Ht & _). now apply list_elem_of_lookup_2 in Ht.
  - intros Hcap t Ht. rewrite Hn, firstn_all2 by now apply Hfull.
    apply dedupeStrings_elem. apply list_elem_of_fmap. now exists t.
Qed.

Lemma collectTracks_dedup_witness :
  NoDup (map id [sampleTrack "a" 11 None; sampleTrack "b" 90 None;
                 sampleTrack "d" 30 None])
  /\ exists earlier later,
       [sampleTrack "a" 10 None; sampleTrack "b" 90 None;
        sampleTrack "a" 11 None; sampleTrack "d" 30 None]
       = earlier ++ sampleTrack "a" 11 None :: later
       /\ id (sampleTrack "a" 11 None) ∉ map id later.
Proof.
  assert (Hg : exists cur,
             outcome (run (sampleWorld true (RespOk (Some tt)))
                          (gatherTracks "token" likedAndPlaylist quick None) 0 ∅)
             = Returned ([sampleTrack "a" 10 None; sampleTrack "b" 90 None;
                          sampleTrack "a" 11 None; sampleTrack "d" 30 None], cur))
    by (eexists; vm_compute; reflexivity).
  destruct Hg as [cur Hg].
  assert (Hc : outcome (run (sampleWorld true (RespOk (Some tt)))
                            (collectTracks "token" likedAndPlaylist quick None) 0 ∅)
               = Returned [sampleTrack "a" 11 None; sampleTrack "b" 90 None;
                           sampleTrack "d" 30 None])
    by (vm_compute; reflexivity).
  destruct (collectTracks_dedup _ _ _ _ _ _ _ _ _ _ Hg Hc) as (_ & Hnd & _ & Hlast & _).
  split; [exact Hnd|]. apply Hlast. apply list_elem_of_here.
Defined.

(** C2 as stated fails: the track kept for an id gathered from the liked
    songs and then from a playlist carries the playlist's data. *)
Lemma collectTracks_dedup_counterexample :
  (exists cur,
      outcome (run (sampleWorld true (RespOk (Some tt)))
                   (gatherTracks "token" likedAndPlaylist quick None) 0 ∅)
      = Returned ([sampleTrack "a" 10 None; sampleTrack "b" 90 None;
                   sampleTrack "a" 11 None; sampleTrack "d" 30 None], cur))
  /\ outcome (run (sampleWorld true (RespOk (Some tt)))
                  (collectTracks "token" likedAndPlaylist quick None) 0 ∅)
     = Returned [sampleTrack "a" 11 None; sampleTrack "b" 90 None;
                 sampleTrack "d" 30 None]
  /\ sampleTrack "a" 10 None ∉ [sampleTrack "a" 11 None; sampleTrack "b" 90 None;
                               sampleTrack "d" 30 None].
Proof.
  split; [eexists; vm_compute; reflexivity|].
  split; [vm_compute; reflexivity|].
  intros H. repeat (apply elem_of_cons in H as [H|H]; [discriminate H|]).
  now apply elem_of_nil in H.
Qed.

Lemma recommendations_never_fetched_witness :
  collectTracks "token" (withRecommendations sampleSources true) quick None
  = collectTracks "token" (withRecommendations sampleSources false) quick None
  /\ Forall notRecommendations
       (trace (run (sampleWorld true (RespOk (Some tt)))
                   (generatePlaylist sampleParse sampleRequest) 0 ∅)).
Proof.
  destruct (recommendations_never_fetched sampleParse) as (Hsame & _ & Hroute & _).
  split.
  - apply (Hsame "token" (withRecommendations sampleSources true)
             (withRecommendations sampleSources false) quick None); reflexivity.
  - apply Hroute.
Defined.

(** ** The generate-playlist route *)

Lemma Triple_call {S A X} (w : World S) (c : Call X) (f : X -> Prog A) Q E :
  (forall x, Answer w c x ->
     Triple w (f x) (fun a t => Q a (event c :: t)) (fun e t => E e (event c :: t))) ->
  Triple w (call c ≫= f) Q E.
Proof. intros H. apply (Triple_Vis w c (fun x => f x)). exact H. Qed.

(** Past a part of the program that never throws. *)
Ltac triple_safe lemma :=
  eapply Triple_mbind;
  [ apply Safe_Triple; lemma | intros ? ? _; cbv beta | intros ? ? [] ].

Lemma AddFailureLogged_app_r (t1 t2 : list Event) :
  AddFailureLogged t2 -> AddFailureLogged (t1 ++ t2).
Proof. intros [e H]. exists e. apply elem_of_app. now right. Qed.

Lemma AddFailureLogged_app_l (t1 t2 : list Event) :
  AddFailureLogged t1 -> AddFailureLogged (t1 ++ t2).
Proof. intros [e H]. exists e. apply elem_of_app. now left. Qed.

Lemma AddFailureLogged_cons (c : Event) (t : list Event) :
  AddFailureLogged t -> AddFailureLogged (c :: t).
Proof. intros [e H]. exists e. now apply list_elem_of_further. Qed.

Section Route.
Variable JSON_parse : string -> option LLMAnalysis.
Context {S : Type} (w : World S).

Lemma addTracks_refused playlistId accessToken selectedTracks :
  RefusesTracks w ->
  Triple w (addTracksToPlaylist playlistId accessToken selectedTracks)
    (fun _ t => selectedTracks <> [] -> AddFailureLogged t)
    (fun _ _ => False).
Proof.
  intros Hw. unfold addTracksToPlaylist.
  destruct selectedTracks as [|t0 rest]; [now apply Triple_Ret|].
  cbv zeta. apply Triple_call. intros x Hx.
  destruct (Hw _ _ _ _ Hx) as (status & statusText & errorData & ->).
  apply (Triple_Vis w). intros [] _. apply Triple_Ret. intros _.
  exists errorData. apply list_elem_of_further, list_elem_of_here.
Qed.

Lemma afterCreate_add_refused prompt accessToken sources mode target estimated
    analysis matched title desc playlist :
  RefusesTracks w ->
  Triple w (afterCreate prompt accessToken sources mode target estimated
              analysis matched title desc playlist)
    (fun response t =>
       exists tracks, ReportsCreated playlist response tracks
                      /\ (tracks <> [] -> AddFailureLogged t))
    (fun _ _ => False).
Proof.
  intros Hw. unfold afterCreate. cbv zeta.
  triple_safe ltac:(apply Safe_call).
  triple_safe ltac:(safe).
  triple_safe ltac:(apply Safe_updatePlaylistProgress).
  triple_safe ltac:(apply Safe_collectTracks; intros f p [= <-];
                    apply Safe_updatePlaylistProgress).
  triple_safe ltac:(apply Safe_updatePlaylistProgress).
  triple_safe ltac:(apply Safe_fetchFeatures).
  triple_safe ltac:(apply Safe_updatePlaylistProgress).
  triple_safe ltac:(apply Safe_updatePlaylistProgress).
  eapply Triple_mbind; [apply addTracks_refused, Hw | | intros ? ? []].
  intros [] tadd Hlogged. cbv beta.
  triple_safe ltac:(apply Safe_updatePlaylistProgress).
  triple_safe ltac:(apply Safe_saveToDatabase).
  triple_safe ltac:(apply Safe_updatePlaylistProgress).
  triple_safe ltac:(apply Safe_call).
  triple_safe ltac:(apply Safe_call).
  apply Triple_Ret. eexists. split.
  - split; [reflexivity|]. eexists. split; [reflexivity|]. split; reflexivity.
  - intros Hne.
    assert (Hl : AddFailureLogged tadd).
    { apply Hlogged. intros Hnil. apply Hne. simpl. now rewrite Hnil. }
    repeat first [ apply AddFailureLogged_app_l; exact Hl
                 | apply AddFailureLogged_app_r ].
Qed.

(** *** A world without tracks *)

Lemma fetchLikedSongs_none accessToken config :
  NoTracks w ->
  Triple w (fetchLikedSongs accessToken config)
    (fun tracks _ => tracks = []) (fun _ _ => False).
Proof.
  intros [Hall Hlim]. unfold fetchLikedSongs.
  destruct (fetchAllPages config); apply Triple_call; intros x Hx;
    apply Triple_Ret;
    [ exact (Hall SavedTracks _ _ _ x Hx) | exact (Hlim SavedTracks _ _ x Hx) ].
Qed.

Lemma fetchTopTracksLoop_none accessToken ranges allTopTracks :
  NoTracks w ->
  Triple w (fetchTopTracksLoop accessToken ranges allTopTracks)
    (fun tracks _ => tracks = allTopTracks) (fun _ _ => False).
Proof.
  intros [Hall Hlim]. revert allTopTracks.
  induction ranges as [|r ranges IH]; intros acc; cbn [fetchTopTracksLoop].
  - now apply Triple_Ret.
  - apply Triple_call. intros x Hx.
    rewrite (Hlim (TopTracks r) _ _ x Hx), app_nil_r. eapply Triple_weaken; [apply IH | auto | auto].
Qed.

Lemma fetchTopTracks_none accessToken config :
  NoTracks w ->
  Triple w (fetchTopTracks accessToken config)
    (fun tracks _ => tracks = []) (fun _ _ => False).
Proof.
  intros Hw. unfold fetchTopTracks.
  eapply Triple_mbind; [now apply fetchTopTracksLoop_none | | intros ? ? []].
  intros tracks t1 ->. now apply Triple_Ret.
Qed.

Lemma fetchPlaylistTracks_none accessToken playlistId config :
  NoTracks w ->
  Triple w (fetchPlaylistTracks accessToken playlistId config)
    (fun tracks _ => tracks = []) (fun _ _ => False).
Proof.
  intros [Hall Hlim]. unfold fetchPlaylistTracks.
  eapply Triple_mbind with (Q1 := fun tracks _ => tracks = [])
      (E1 := fun _ _ => False);
    [| | intros ? ? []].
  - destruct (fetchAllPages config); apply Triple_call; intros x Hx;
      apply Triple_Ret;
      [ rewrite (Hall (PlaylistTracks playlistId) _ _ _ x Hx)
      | rewrite (Hlim (PlaylistTracks playlistId) _ _ x Hx) ]; reflexivity.
  - intros tracks t1 ->. cbv zeta. apply Triple_Ret.
    destruct (_ && _)%bool; [apply take_nil | reflexivity].
Qed.

Lemma fetchPlaylistsLoop_none {St} accessToken config
    (callback : option (Z -> St -> Prog St)) count i ids allTracks st :
  NoTracks w ->
  (forall f progress st, callback = Some f -> Safe (f progress st)) ->
  Triple w (fetchPlaylistsLoop accessToken config callback count i ids allTracks st)
    (fun r _ => fst r = allTracks) (fun _ _ => False).
Proof.
  intros Hw Hcb. revert i allTracks st.
  induction ids as [|pid ids IH]; intros i allTracks st; cbn [fetchPlaylistsLoop].
  - now apply Triple_Ret.
  - eapply Triple_mbind; [now apply fetchPlaylistTracks_none | | intros ? ? []].
    intros tracks t1 ->. cbv zeta. rewrite app_nil_r.
    triple_safe ltac:(destruct callback as [f|]; [now apply Hcb | safe]).
    eapply Triple_weaken; [apply IH | auto | auto].
Qed.

Lemma fetchSelectedPlaylistTracks_none {St} accessToken ids config
    (callback : option (Z -> St -> Prog St)) st :
  NoTracks w ->
  (forall f progress st, callback = Some f -> Safe (f progress st)) ->
  Triple w (fetchSelectedPlaylistTracks accessToken ids config callback st)
    (fun r _ => fst r = []) (fun _ _ => False).
Proof.
  intros Hw Hcb. unfold fetchSelectedPlaylistTracks. cbv zeta.
  eapply Triple_mbind; [now apply fetchPlaylistsLoop_none | | intros ? ? []].
  intros r t1 Hr. apply Triple_Ret. simpl. now rewrite Hr.
Qed.

Lemma collectTracks_none accessToken sources mode callback :
  NoTracks w ->
  (forall f p, callback = Some f -> Safe (f p)) ->
  Triple w (collectTracks accessToken sources mode callback)
    (fun pool _ => pool = []) (fun _ _ => False).
Proof.
  intros Hw Hcb. unfold collectTracks. cbv zeta.
  eapply Triple_mbind with (Q1 := fun r _ => fst r = [])
      (E1 := fun _ _ => False); [| | intros ? ? []].
  { destruct (useLikedSongs sources); [|now apply Triple_Ret].
    triple_safe ltac:(now apply Safe_updateProgress).
    eapply Triple_mbind; [now apply fetchLikedSongs_none | | intros ? ? []].
    intros tracks t' ->. now apply Triple_Ret. }
  intros r1 t1 Hr1. cbv beta.
  eapply Triple_mbind with (Q1 := fun r _ => fst r = [])
      (E1 := fun _ _ => False); [| | intros ? ? []].
  { destruct (useTopTracks sources); [|now apply Triple_Ret].
    triple_safe ltac:(now apply Safe_updateProgress).
    eapply Triple_mbind; [now apply fetchTopTracks_none | | intros ? ? []].
    intros tracks t' ->. apply Triple_Ret. simpl. now rewrite Hr1. }
  intros r2 t2 Hr2. cbv beta.
  eapply Triple_mbind with (Q1 := fun r _ => fst r = [])
      (E1 := fun _ _ => False); [| | intros ? ? []].
  { destruct (playlists sources) as [|pid ids]; [now apply Triple_Ret|].
    triple_safe ltac:(now apply Safe_updateProgress).
    eapply Triple_mbind;
      [ apply fetchSelectedPlaylistTracks_none;
        [exact Hw | intros f progress st [= <-]; now apply Safe_updateProgress]
      | | intros ? ? [] ].
    intros r t' Hr. apply Triple_Ret. simpl. now rewrite Hr2, Hr. }
  intros r3 t3 Hr3. cbv beta. rewrite Hr3.
  triple_safe ltac:(now apply Safe_updateProgress).
  assert (Hcap : poolCap (PROCESSING_CONFIGS mode) (uniqueById []) = false)
    by (now destruct mode).
  rewrite Hcap.
  eapply Triple_mbind with (Q1 := fun r _ => fst r = [])
      (E1 := fun _ _ => False);
    [now apply Triple_Ret | | intros ? ? []].
  intros r4 t4 Hr4. cbv beta.
  triple_safe ltac:(now apply Safe_updateProgress).
  now apply Triple_Ret.
Qed.

Lemma selectTracks_nil analysis target : selectTracks [] [] analysis target = [].
Proof. unfold selectTracks. simpl. now rewrite take_nil. Qed.

Lemma afterCreate_no_tracks prompt accessToken sources mode target estimated
    analysis matched title desc playlist :
  NoTracks w ->
  Triple w (afterCreate prompt accessToken sources mode target estimated
              analysis matched title desc playlist)
    (fun response _ => ReportsCreated playlist response [])
    (fun _ _ => False).
Proof.
  intros Hw. unfold afterCreate. cbv zeta.
  triple_safe ltac:(apply Safe_call).
  triple_safe ltac:(safe).
  triple_safe ltac:(apply Safe_updatePlaylistProgress).
  eapply Triple_mbind;
    [ apply collectTracks_none;
      [exact Hw | intros f p [= <-]; apply Safe_updatePlaylistProgress]
    | | intros ? ? [] ].
  intros collected tc ->. cbv beta.
  triple_safe ltac:(apply Safe_updatePlaylistProgress).
  eapply Triple_mbind with (Q1 := fun twf _ => twf = [])
      (E1 := fun _ _ => False);
    [now apply Triple_Ret | | intros ? ? []].
  intros twf tf ->. cbv beta. rewrite selectTracks_nil.
  triple_safe ltac:(apply Safe_updatePlaylistProgress).
  triple_safe ltac:(apply Safe_updatePlaylistProgress).
  triple_safe ltac:(apply Safe_Ret).
  triple_safe ltac:(apply Safe_updatePlaylistProgress).
  triple_safe ltac:(apply Safe_saveToDatabase).
  triple_safe ltac:(apply Safe_updatePlaylistProgress).
  triple_safe ltac:(apply Safe_call).
  triple_safe ltac:(apply Safe_call).
  apply Triple_Ret.
  split; [reflexivity|]. eexists. split; [reflexivity|]. split; reflexivity.
Qed.

(** *** From the request to the created playlist *)

Lemma generatePlaylist_created (Q : HttpResponse -> list Event -> Prop)
    req prompt accessToken userId playlist :
  ValidRequest req prompt accessToken userId ->
  CreatesPlaylist w playlist ->
  (forall response t pre, Q response t -> Q response (pre ++ t)) ->
  (forall response t c, Q response t -> Q response (c :: t)) ->
  (forall sources mode target estimated analysis matched title desc,
      Triple w (afterCreate prompt accessToken sources mode target estimated
                  analysis matched title desc playlist)
             Q (fun _ _ => False)) ->
  Triple w (generatePlaylist JSON_parse req) Q (fun _ _ => False).
Proof.
  intros (Hprompt & Htoken & Huser) Hcreate Hpre Hcons Hafter.
  unfold generatePlaylist. cbv zeta.
  eapply Triple_tryCatch with (E1 := fun _ _ => False); [|intros ? ? []].
  rewrite Hprompt, Htoken, Huser.
  triple_safe ltac:(apply Safe_fetchPlaylistSizes).
  triple_safe ltac:(apply Safe_updatePlaylistProgress).
  triple_safe ltac:(apply Safe_analyzePlaylistPrompt).
  triple_safe ltac:(apply Safe_updatePlaylistProgress).
  triple_safe ltac:(apply Safe_call).
  triple_safe ltac:(apply Safe_updatePlaylistProgress).
  apply Triple_call. intros x Hx. apply Hcreate in Hx as ->.
  eapply Triple_weaken; [apply Hafter | | intros ? ? []].
  intros response t HQ. cbv beta.
  repeat first [ apply Hpre | apply Hcons ]. exact HQ.
Qed.

Lemma Ensures_returns {A} (p : Prog A) (Q : A -> list Event -> Prop) s m :
  Triple w p Q (fun _ _ => False) ->
  exists a, outcome (run w p s m) = Returned a /\ Q a (trace (run w p s m)).
Proof.
  intros H. specialize (H s m).
  destruct (outcome (run w p s m)) as [a|e]; [now exists a | destruct H].
Qed.

End Route.

Lemma sampleWorld_creates hasTracks addAnswer :
  CreatesPlaylist (sampleWorld hasTracks addAnswer) samplePlaylist.
Proof. intros userId accessToken name description x (s & m & <-). reflexivity. Qed.



(** * Part III: further properties of the pipeline *)

(** ** The scorer on every input *)

Lemma byScoreDesc_asym (a b : ScoredTrack) :
  byScoreDesc a b = true -> byScoreDesc b a = false.
Proof.
  unfold byScoreDesc. intros H. apply Qgtb_true_iff in H. apply Qgtb_false_iff.
  now apply Qlt_le_weak.
Qed.

Lemma List_filter_split_length {A} (f : A -> bool) (l : list A) :
  (length (List.filter f l) + length (List.filter (fun x => negb (f x)) l)
   = length l)%nat.
Proof.
  induction l as [|x l IH]; simpl; [reflexivity|].
  destruct (f x); simpl; lia.
Qed.

Lemma List_filter_split_Permutation {A} (f : A -> bool) (l : list A) :
  List.filter f l ++ List.filter (fun x => negb (f x)) l ≡ₚ l.
Proof.
  induction l as [|x l IH]; simpl; [reflexivity|].
  destruct (f x); simpl.
  - now rewrite IH.
  - now rewrite <- Permutation_middle, IH.
Qed.

Lemma List_filter_submseteq {A} (f : A -> bool) (l : list A) :
  List.filter f l ⊆+ l.
Proof.
  induction l as [|x l IH]; simpl; [reflexivity|].
  destruct (f x); [now apply submseteq_skip | now apply submseteq_cons].
Qed.

Lemma length_stableSort {A} (before : A -> A -> bool) (l : list A) :
  length (stableSort before l) = length l.
Proof. apply Permutation_length, stableSort_Permutation. Qed.

Lemma track_scoreTrack analysis (t : Track) : track (scoreTrack analysis t) = t.
Proof. reflexivity. Qed.

(** The tracks that are scored: all those with features, and, when these
    are fewer than twice the number asked for, the most popular of the
    others. *)
Lemma candidates_submseteq (tracks : list Track) (n : nat) (few : bool) :
  (if few
   then List.filter hasFeatures tracks
        ++ take n (stableSort byPopularityDesc
                     (List.filter (fun t => negb (hasFeatures t)) tracks))
   else List.filter hasFeatures tracks) ⊆+ tracks.
Proof.
  destruct few; [|apply List_filter_submseteq].
  rewrite <- (List_filter_split_Permutation hasFeatures tracks) at 3.
  apply submseteq_app; [reflexivity|].
  etransitivity; [apply sublist_submseteq, sublist_take|].
  now rewrite stableSort_Permutation.
Qed.


(** ** Bounds on the scores *)

Lemma exactGenreScore_nonneg trackGenres promptGenres acc :
  (0 <= acc)%Q ->
  (0 <= fold_left (fun genreScore genre =>
                     if arrayIncludes trackGenres genre
                     then genreScore + 3 else genreScore) promptGenres acc)%Q.
Proof.
  revert acc. induction promptGenres as [|g l IH]; intros acc H; simpl; [exact H|].
  apply IH. destruct (arrayIncludes trackGenres g); lra.
Qed.

Lemma partialGenreScore_inner_nonneg trackGenreLower promptGenres acc :
  (0 <= acc)%Q ->
  (0 <= fold_left (fun genreScore promptGenre =>
                     if (includes trackGenreLower promptGenre
                         || includes promptGenre trackGenreLower)%bool
                     then genreScore + (15 # 10) else genreScore)
                  promptGenres acc)%Q.
Proof.
  revert acc. induction promptGenres as [|g l IH]; intros acc H; simpl; [exact H|].
  apply IH. destruct (_ || _)%bool; lra.
Qed.

Lemma partialGenreScore_nonneg extracted promptGenres acc :
  (0 <= acc)%Q ->
  (0 <= fold_left (fun genreScore trackGenre =>
                     let trackGenreLower := toLowerCase trackGenre in
                     fold_left (fun genreScore promptGenre =>
                                  if (includes trackGenreLower promptGenre
                                      || includes promptGenre trackGenreLower)%bool
                                  then genreScore + (15 # 10) else genreScore)
                               promptGenres genreScore)
                  extracted acc)%Q.
Proof.
  revert acc. induction extracted as [|g l IH]; intros acc H; simpl; [exact H|].
  apply IH. now apply partialGenreScore_inner_nonneg.
Qed.

Lemma genreScoreOf_bounds analysis (t : Track) :
  (0 <= genreScoreOf analysis t /\ genreScoreOf analysis t <= 15)%Q.
Proof.
  unfold genreScoreOf.
  destruct (extractedGenres t) as [extracted|]; [|lra].
  destruct (genres analysis) as [|g gs]; [lra|]. cbv zeta.
  split; [|apply Q.le_min_l].
  apply Q.min_glb; [lra|].
  destruct (Qeq_bool _ 0).
  - unfold partialGenreScore. apply partialGenreScore_nonneg. lra.
  - unfold exactGenreScore. apply exactGenreScore_nonneg. lra.
Qed.

Lemma midpoint_unit (range : Q * Q) : UnitRange range -> InUnit (midpoint range).
Proof.
  unfold UnitRange, InUnit, midpoint. intros [[? ?] [? ?]].
  unfold Qdiv. change (/ 2)%Q with (1 # 2)%Q. split; lra.
Qed.

Lemma unit_distance_points (x ideal : Q) :
  InUnit x -> InUnit ideal -> DimensionPoints (10 * (1 - Qabs (x - ideal))).
Proof.
  unfold InUnit, DimensionPoints. intros [? ?] [? ?].
  assert (Habs : (0 <= Qabs (x - ideal) /\ Qabs (x - ideal) <= 1)%Q).
  { split; [apply Qabs_nonneg|]. apply Qabs_Qle_condition. split; lra. }
  split; lra.
Qed.

Lemma tempoScore_points analysis (f : AudioFeatures) :
  DimensionPoints (tempoScore analysis f).
Proof.
  unfold tempoScore, DimensionPoints. cbv zeta.
  set (d := (Qabs (tempo f - midpoint (tempo_range analysis)) / 200)%Q).
  assert (Hd : (0 <= d)%Q).
  { subst d. unfold Qdiv. change (/ 200)%Q with (1 # 200)%Q.
    pose proof (Qabs_nonneg (tempo f - midpoint (tempo_range analysis))). lra. }
  assert (Hmin : (0 <= Qmin 1 d /\ Qmin 1 d <= 1)%Q).
  { split; [apply Q.min_glb; lra | apply Q.le_min_l]. }
  split; lra.
Qed.



(** ** The progress map *)

Section Stores.
Context {S : Type} (w : World S).
Local Abbreviation Store := (gmap string ProgressEntry).

Lemma Hoare_Ret {A} (a : A) (P : Store -> Prop) Q E :
  (forall m, P m -> Q a m) -> Hoare w P (Ret a) Q E.
Proof. intros H s m Hm. now apply H. Qed.

Lemma Hoare_Throw {A} error (P : Store -> Prop) (Q : A -> Store -> Prop) E :
  (forall m, P m -> E error m) -> Hoare w P (Throw error) Q E.
Proof. intros H s m Hm. now apply H. Qed.

Lemma Hoare_bind {A B} (p : Prog A) (f : A -> Prog B) (P : Store -> Prop) Q1 Q E :
  Hoare w P p Q1 E ->
  (forall a, Hoare w (Q1 a) (f a) Q E) ->
  Hoare w P (p ≫= f) Q E.
Proof.
  intros Hp Hf s m Hm. rewrite mbind_bind, run_bind. specialize (Hp s m Hm).
  destruct (outcome (run w p s m)) as [a|error].
  - cbv zeta. simpl. exact (Hf a _ _ Hp).
  - exact Hp.
Qed.

Lemma Hoare_tryCatch {A} (p : Prog A) handler (P : Store -> Prop) Q E1 E :
  Hoare w P p Q E1 ->
  (forall error, Hoare w (E1 error) (handler error) Q E) ->
  Hoare w P (tryCatch p handler) Q E.
Proof.
  intros Hp Hh s m Hm. rewrite run_tryCatch. specialize (Hp s m Hm).
  destruct (outcome (run w p s m)) as [a|error] eqn:Ho.
  - now rewrite Ho.
  - cbv zeta. simpl. exact (Hh error _ _ Hp).
Qed.

Lemma Hoare_weaken {A} (p : Prog A) (P P' : Store -> Prop)
    (Q Q' : A -> Store -> Prop) (E E' : string -> Store -> Prop) :
  Hoare w P p Q E ->
  (forall m, P' m -> P m) ->
  (forall a m, Q a m -> Q' a m) -> (forall e m, E e m -> E' e m) ->
  Hoare w P' p Q' E'.
Proof.
  intros Hp HP HQ HE s m Hm. specialize (Hp s m (HP m Hm)).
  destruct (outcome (run w p s m)); auto.
Qed.

(** Of a part of the program nothing needs to be known. *)
Lemma Hoare_any {A} (p : Prog A) (P : Store -> Prop) :
  Hoare w P p (fun _ _ => True) (fun _ _ => True).
Proof. intros s m _. now destruct (outcome (run w p s m)). Qed.

(** A part that never throws. *)
Lemma Hoare_Safe {A} (p : Prog A) (P : Store -> Prop) E :
  Safe p -> Hoare w P p (fun _ _ => True) E.
Proof.
  intros H s m _. destruct (Safe_returns w p s m H) as [a ->]. exact I.
Qed.

(** A call to the outside leaves the store as it is. *)
Lemma Hoare_Now (P : Store -> Prop) E :
  Hoare w P (call Now) (fun _ m => P m) E.
Proof.
  intros s m Hm. unfold call. rewrite run_Vis. unfold step.
  destruct (w _ Now s). exact Hm.
Qed.

Lemma run_updatePlaylistProgress playlistId stage progress message mode s m :
  let r := run w (updatePlaylistProgress playlistId stage progress message mode) s m in
  outcome r = Returned tt
  /\ exists entry,
       store r = <[playlistId := entry]> m
       /\ Records entry stage progress message mode
       /\ match m !! playlistId with
          | Some existing =>
              startTime entry = startTime existing
              /\ remainingTimeEstimate (entryProgress entry)
                 = remainingTimeEstimate (entryProgress existing)
              /\ world r = s
          | None =>
              startTime entry = (w _ Now s).1
              /\ remainingTimeEstimate (entryProgress entry)
                 = inject_Z (getEstimatedTimeForMode mode)
              /\ world r = (w _ Now s).2
          end.
Proof.
  cbv zeta. unfold updatePlaylistProgress.
  change (call (MapGet ?k) ≫= ?f) with (Vis (MapGet k) f).
  rewrite run_Vis. cbn [step fst snd]. cbv zeta.
  destruct (m !! playlistId) as [existing|].
  - cbn [mbind Prog_bind bind mret Prog_ret]. unfold call. rewrite run_Vis.
    cbn [step fst snd run outcome store world]. split; [reflexivity|].
    eexists. split; [reflexivity|]. repeat split.
  - change (call Now ≫= ?f) with (Vis Now f).
    cbn [mbind Prog_bind bind]. rewrite run_Vis. unfold step.
    destruct (w _ Now s) as [now s'] eqn:Ew. cbn [fst snd].
    cbn [mbind Prog_bind bind mret Prog_ret]. unfold call. rewrite run_Vis.
    cbn [step fst snd run outcome store world]. split; [reflexivity|].
    eexists. split; [reflexivity|]. repeat split.
Qed.

(** After a write the entry of the key says what was written. *)
Lemma Hoare_updatePlaylistProgress playlistId stage progress message mode
    (P : Store -> Prop) E :
  Hoare w P (updatePlaylistProgress playlistId stage progress message mode)
    (fun _ m => exists entry, m !! playlistId = Some entry
                              /\ Records entry stage progress message mode)
    E.
Proof.
  intros s m _.
  destruct (run_updatePlaylistProgress playlistId stage progress message mode s m)
    as (-> & entry & -> & Hrec & _).
  exists entry. split; [apply lookup_insert_eq | exact Hrec].
Qed.
End Stores.

(** X3. Writing the progress of a playlist never throws, touches no other
    key, and stores the stage, percentage, message and mode given; the
    start time and the stored estimate are those of the entry that was
    there, or the current time and the total of the mode when there was
    none.  A read that follows answers 200 with the entry written, its
    remaining time recomputed and never negative. *)
Theorem progress_write_then_read {S : Type} (w : World S)
    (playlistId theStage : string) (percent : Z) (text mode : string)
    (s : S) (m : gmap string ProgressEntry) :
  playlistId <> "" ->
  let written := run w (updatePlaylistProgress playlistId theStage percent text mode) s m in
  outcome written = Returned tt
  /\ (forall other, other <> playlistId -> store written !! other = m !! other)
  /\ exists entry remaining,
       store written !! playlistId = Some entry
       /\ Records entry theStage percent text mode
       /\ startTime entry
          = match m !! playlistId with
            | Some existing => startTime existing
            | None => (w _ Now s).1
            end
       /\ remainingTimeEstimate (entryProgress entry)
          = match m !! playlistId with
            | Some existing => remainingTimeEstimate (entryProgress existing)
            | None => inject_Z (getEstimatedTimeForMode mode)
            end
       /\ outcome (run w (progressRoute (Some playlistId)) (world written) (store written))
          = Returned {| status := 200;
                        body := EntryBody (withRemaining entry remaining) |}
       /\ (0 <= remaining)%Q.
Proof.
  intros Hkey. cbv zeta.
  destruct (run_updatePlaylistProgress w playlistId theStage percent text mode s m)
    as (Ho & entry & Hs & Hrec & Hold).
  split; [exact Ho|]. split.
  - intros other Hother. rewrite Hs. now apply lookup_insert_ne.
  - exists entry. eexists.
    assert (Hlook : store (run w (updatePlaylistProgress playlistId theStage percent
                                    text mode) s m) !! playlistId = Some entry)
      by (rewrite Hs; apply lookup_insert_eq).
    split; [exact Hlook|]. split; [exact Hrec|].
    split; [destruct (m !! playlistId); tauto|].
    split; [destruct (m !! playlistId); tauto|].
    split; [now apply progressRoute_known|].
    apply remainingEstimate_bounds.
Qed.

Lemma progress_write_then_read_witness :
  exists entry,
    store (run (sampleWorld true (RespOk (Some tt)))
               (updatePlaylistProgress "PL1" "collecting" 20
                  "Collecting tracks from selected sources..." "quick") 5000 ∅)
      !! "PL1" = Some entry
    /\ Records entry "collecting" 20 "Collecting tracks from selected sources..." "quick"
    /\ startTime entry = 5000.
Proof.
  assert (Hkey : "PL1" <> "") by discriminate.
  destruct (progress_write_then_read (sampleWorld true (RespOk (Some tt)))
              "PL1" "collecting" 20 "Collecting tracks from selected sources..."
              "quick" 5000 ∅ Hkey)
    as (_ & _ & entry & remaining & Hlook & Hrec & Hstart & _).
  exists entry. split; [exact Hlook|]. split; [exact Hrec|]. exact Hstart.
Defined.

(** ** The generate-playlist route and the progress map *)

(** Past a part of the program of which nothing needs to be known. *)
Ltac hoare_skip :=
  eapply Hoare_bind; [apply Hoare_any | intros ?; cbv beta].

Section RouteStore.
Variable JSON_parse : string -> option LLMAnalysis.
Context {S : Type} (w : World S).

Lemma afterCreate_complete prompt accessToken sources mode target estimated
    analysis matched title desc playlist (P : gmap string ProgressEntry -> Prop) :
  Hoare w P
    (afterCreate prompt accessToken sources mode target estimated
       analysis matched title desc playlist)
    (fun response m =>
       RouteAnswer response /\ refinementId response = Some (playlist_id playlist)
       /\ exists entry,
              m !! playlist_id playlist = Some entry
              /\ Records entry "complete" 100 "Playlist created successfully!"
                   (modeName mode))
    (fun _ _ => True).
Proof.
  unfold afterCreate. cbv zeta.
  do 11 hoare_skip.
  eapply Hoare_bind; [apply Hoare_updatePlaylistProgress|].
  intros []. cbv beta.
  eapply Hoare_bind; [apply Hoare_Now|]. intros now1. cbv beta.
  eapply Hoare_bind; [apply Hoare_Now|]. intros now2. cbv beta.
  apply Hoare_Ret. intros m Hm.
  split; [|split; [reflexivity | exact Hm]].
  match goal with
  | |- RouteAnswer {| status := _; body := CreatedBody ?t ?c ?st _ |} =>
      exact (Answer_created t c st)
  end.
Qed.

(** The route answers with a refusal or a failure, or goes on from the
    created playlist with the settings of the request. *)
Lemma generatePlaylist_cases req
    (Q : HttpResponse -> gmap string ProgressEntry -> Prop) :
  (forall response m,
      RouteAnswer response -> refinementId response = None -> Q response m) ->
  (forall prompt accessToken estimated analysis matched playlist,
      Hoare w (fun _ => True)
        (afterCreate prompt accessToken
           (default defaultSources (req_sources req))
           (default standard (req_processingMode req))
           (default 20%nat (req_targetTrackCount req))
           estimated analysis matched
           (default "AI Playlist" (truthy (req_name req)))
           (playlistDescription (req_description req) analysis) playlist)
        Q (fun _ _ => True)) ->
  Hoare w (fun _ => True) (generatePlaylist JSON_parse req) Q (fun _ _ => False).
Proof.
  intros Hother Hafter. unfold generatePlaylist. cbv zeta.
  apply Hoare_tryCatch with (E1 := fun _ _ => True).
  2: { intros error.
       eapply Hoare_bind; [apply Hoare_Safe, Safe_call | intros ?].
       apply Hoare_Ret. intros m _. apply Hother; [constructor | reflexivity]. }
  destruct (truthy (req_prompt req)) as [prompt|].
  2: { apply Hoare_Ret. intros m _. apply Hother; [constructor | reflexivity]. }
  destruct (truthy (req_accessToken req)) as [accessToken|].
  2: { apply Hoare_Ret. intros m _. apply Hother; [constructor | reflexivity]. }
  destruct (truthy (req_userId req)) as [userId|].
  2: { apply Hoare_Ret. intros m _. apply Hother; [constructor | reflexivity]. }
  do 7 hoare_skip.
  match goal with |- Hoare _ _ (match ?x with _ => _ end) _ _ => destruct x as
      [message | [playlist|] | upstream statusText [errorData|]] end.
  - now apply Hoare_Throw.
  - eapply Hoare_weaken; [apply Hafter | auto | auto | auto].
  - now apply Hoare_Throw.
  - hoare_skip. apply Hoare_Ret. intros m _.
    apply Hother; [constructor | reflexivity].
  - now apply Hoare_Throw.
Qed.

Lemma generatePlaylist_answers req :
  Hoare w (fun _ => True) (generatePlaylist JSON_parse req)
    (fun response m =>
       RouteAnswer response
       /\ forall playlistId,
            refinementId response = Some playlistId ->
            exists entry,
              m !! playlistId = Some entry
              /\ Records entry "complete" 100 "Playlist created successfully!"
                   (modeName (default standard (req_processingMode req))))
    (fun _ _ => False).
Proof.
  apply generatePlaylist_cases.
  - intros response m Hr Hid. split; [exact Hr|]. intros ?. congruence.
  - intros. eapply Hoare_weaken;
      [apply afterCreate_complete with (P := fun _ => True) | auto | | auto].
    intros response m (Hr & Hid & Hentry). split; [exact Hr|].
    intros playlistId Hp. rewrite Hid in Hp. injection Hp as <-. exact Hentry.
Qed.
End RouteStore.

(** X4. The generate-playlist route never throws: in every world and for
    every request it answers, and its answer is one of five: 400 without a
    prompt, 401 without a token or a user id, the status of the catalogue
    when the catalogue refuses to create the playlist, 500 with the message
    of the error when anything else fails, or 201 with the playlist made. *)
Theorem generatePlaylist_always_answers (JSON_parse : string -> option LLMAnalysis)
    {S : Type} (w : World S) (req : GenerateRequest) (s : S)
    (m : gmap string ProgressEntry) :
  exists response,
    outcome (run w (generatePlaylist JSON_parse req) s m) = Returned response
    /\ RouteAnswer response.
Proof.
  pose proof (generatePlaylist_answers JSON_parse w req s m I) as H.
  destruct (outcome (run w (generatePlaylist JSON_parse req) s m)) as [response|error];
    [|destruct H].
  exists response. split; [reflexivity | apply H].
Qed.

(** X5. When the generate-playlist route answers with success, the progress
    map holds, under the id the answer gives, the stage complete at 100
    percent for the mode of the request; a read of the progress of that id
    that follows answers 200 with that stage and percentage. *)
Theorem generatePlaylist_marks_complete (JSON_parse : string -> option LLMAnalysis)
    {S : Type} (w : World S) (req : GenerateRequest) (s : S)
    (m : gmap string ProgressEntry) (response : HttpResponse) (playlistId : string) :
  let r := run w (generatePlaylist JSON_parse req) s m in
  outcome r = Returned response ->
  refinementId response = Some playlistId ->
  status response = 201
  /\ (exists entry,
        store r !! playlistId = Some entry
        /\ Records entry "complete" 100 "Playlist created successfully!"
             (modeName (default standard (req_processingMode req))))
  /\ (playlistId <> "" ->
      exists entry,
        outcome (run w (progressRoute (Some playlistId)) (world r) (store r))
        = Returned {| status := 200; body := EntryBody entry |}
        /\ stage (entryProgress entry) = "complete"
        /\ progress (entryProgress entry) = 100).
Proof.
  cbv zeta. intros Ho Hid.
  pose proof (generatePlaylist_answers JSON_parse w req s m I) as H.
  rewrite Ho in H. destruct H as [Hanswer H].
  destruct (H playlistId Hid) as (entry & Hlook & Hrec).
  split; [|split].
  - destruct Hanswer; try discriminate Hid. reflexivity.
  - now exists entry.
  - intros Hne.
    exists (withRemaining entry
              (remainingEstimate entry
                 (w _ Now (world (run w (generatePlaylist JSON_parse req) s m))).1)).
    split; [apply progressRoute_known; assumption|].
    destruct Hrec as (Hstage & Hprogress & _). now split.
Qed.

Lemma generatePlaylist_marks_complete_witness :
  let r := run (sampleWorld true (RespOk (Some tt)))
               (generatePlaylist sampleParse sampleRequest) 0 ∅ in
  exists entry,
    store r !! "PL1" = Some entry
    /\ Records entry "complete" 100 "Playlist created successfully!" "quick".
Proof.
  cbv zeta.
  assert (Ho : exists response,
             outcome (run (sampleWorld true (RespOk (Some tt)))
                          (generatePlaylist sampleParse sampleRequest) 0 ∅)
             = Returned response
             /\ refinementId response = Some "PL1")
    by (eexists; split; vm_compute; reflexivity).
  destruct Ho as (response & Ho & Hid).
  exact (proj1 (proj2 (generatePlaylist_marks_complete sampleParse
                         (sampleWorld true (RespOk (Some tt))) sampleRequest 0 ∅
                         response "PL1" Ho Hid))).
Defined.

(** X6. Without a prompt the generate-playlist route answers 400, and with
    a prompt but without a token or without a user id it answers 401; in
    both cases it makes no call to the outside and leaves the progress map
    as it is. *)
Theorem generatePlaylist_refuses (JSON_parse : string -> option LLMAnalysis)
    {S : Type} (w : World S) (req : GenerateRequest) (s : S)
    (m : gmap string ProgressEntry) :
  let r := run w (generatePlaylist JSON_parse req) s m in
  (truthy (req_prompt req) = None ->
   r = {| outcome := Returned {| status := 400;
                                 body := MessageBody "Prompt is required" |};
          world := s; store := m; trace := [] |})
  /\ (truthy (req_prompt req) <> None ->
      truthy (req_accessToken req) = None \/ truthy (req_userId req) = None ->
      r = {| outcome := Returned {| status := 401;
                                    body := MessageBody "Authentication required" |};
             world := s; store := m; trace := [] |}).
Proof.
  cbv zeta. unfold generatePlaylist. cbv zeta. split.
  - intros ->. reflexivity.
  - intros Hp Hauth. destruct (truthy (req_prompt req)); [|congruence].
    destruct Hauth as [-> | Hu]; [reflexivity|].
    rewrite Hu. now destruct (truthy (req_accessToken req)).
Qed.

Lemma generatePlaylist_refuses_witness :
  outcome (run (sampleWorld true (RespOk (Some tt)))
               (generatePlaylist sampleParse
                  {| req_prompt := Some ""; req_name := None;
                     req_description := None; req_sources := None;
                     req_processingMode := None; req_targetTrackCount := None;
                     req_accessToken := Some "token"; req_userId := Some "user" |})
               0 ∅)
  = Returned {| status := 400; body := MessageBody "Prompt is required" |}
  /\ trace (run (sampleWorld true (RespOk (Some tt)))
                (generatePlaylist sampleParse
                   {| req_prompt := Some "jazz"; req_name := None;
                      req_description := None; req_sources := None;
                      req_processingMode := None; req_targetTrackCount := None;
                      req_accessToken := Some "token"; req_userId := None |})
                0 ∅)
     = [].
Proof.
  split.
  - rewrite (proj1 (generatePlaylist_refuses sampleParse
                      (sampleWorld true (RespOk (Some tt))) _ 0 ∅)); reflexivity.
  - rewrite (proj2 (generatePlaylist_refuses sampleParse
                      (sampleWorld true (RespOk (Some tt))) _ 0 ∅));
      [reflexivity | discriminate | now right].
Defined.

(** ** What a success response reports *)

Lemma length_substring_le (n : nat) (s : string) :
  (String.length (String.substring 0 n s) <= n)%nat.
Proof.
  revert s. induction n as [|n IH]; intros [|c s]; simpl; try lia.
  specialize (IH s). lia.
Qed.

Lemma playlistDescription_length (requestDescription : option string)
    (analysis : PromptAnalysis) :
  (String.length (playlistDescription requestDescription analysis) <= 250)%nat.
Proof.
  unfold playlistDescription. cbv zeta.
  match goal with |- context [(250 <? String.length ?d)%nat] =>
    destruct (250 <? String.length d)%nat eqn:E end.
  - apply length_substring_le.
  - now apply Nat.ltb_ge in E.
Qed.

Lemma selectTracks_length collected withF analysis (target : nat) :
  (length (selectTracks collected withF analysis target) <= target)%nat.
Proof.
  unfold selectTracks. destruct (existsb hasFeatures withF); rewrite length_map.
  - unfold filterTracksByAIAnalysis. cbv zeta. rewrite length_take. lia.
  - rewrite length_take. lia.
Qed.

Lemma existsb_filter_length {A} (f : A -> bool) (l : list A) :
  existsb f l = (0 <? length (List.filter f l))%nat.
Proof.
  induction l as [|x l IH]; simpl; [reflexivity|].
  destruct (f x); simpl; [reflexivity | exact IH].
Qed.

Lemma selectTracks_report collected withF analysis (target : nat) created stats :
  gen_tracks created = map responseTrack (selectTracks collected withF analysis target) ->
  stats_tracksAnalyzed stats = length withF ->
  stats_tracksSelected stats = length (selectTracks collected withF analysis target) ->
  stats_tracksWithFeatures stats = length (List.filter hasFeatures withF) ->
  stats_audioFeaturesStatus stats
  = (if existsb hasFeatures withF then "available" else "unavailable") ->
  stats_selectionMethod stats
  = (if existsb hasFeatures withF then "audio_features" else "popularity") ->
  SelectionReport target created stats.
Proof.
  intros Ht Ha Hs Hf Hst Hm. unfold SelectionReport.
  rewrite Ht, Hs, Hf, Ha, Hst, Hm, length_map.
  split; [apply selectTracks_length|]. split; [reflexivity|].
  split.
  { pose proof (List_filter_split_length hasFeatures withF). lia. }
  rewrite existsb_filter_length.
  destruct (0 <? length (List.filter hasFeatures withF))%nat eqn:E.
  - left. apply Nat.ltb_lt in E. now repeat split.
  - right. apply Nat.ltb_ge in E. repeat split; [lia|].
    unfold selectTracks.
    assert (Hex : existsb hasFeatures withF = false).
    { rewrite existsb_filter_length. apply Nat.ltb_ge. lia. }
    rewrite Hex. apply Forall_forall. intros t Hin.
    apply list_elem_of_fmap in Hin as (sel & -> & Hin).
    apply list_elem_of_fmap in Hin as (c & -> & _). now split.
Qed.

Section RouteReport.
Variable JSON_parse : string -> option LLMAnalysis.
Context {S : Type} (w : World S).

Lemma afterCreate_report prompt accessToken sources mode target estimated
    analysis matched title playlist requestDescription :
  Hoare w (fun _ => True)
    (afterCreate prompt accessToken sources mode target estimated
       analysis matched title (playlistDescription requestDescription analysis)
       playlist)
    (fun response _ =>
       forall text created stats playlistId,
         body response = CreatedBody text created stats playlistId ->
         SelectionReport target created stats
         /\ gen_name created = title
         /\ (String.length (gen_description created) <= 250)%nat
         /\ stats_mode stats = mode
         /\ stats_estimatedSeconds stats = estimated
         /\ gen_genresUsed created = matched)
    (fun _ _ => True).
Proof.
  unfold afterCreate. cbv zeta.
  do 14 hoare_skip.
  apply Hoare_Ret. intros m _ text created stats playlistId Hbody.
  cbn [body] in Hbody. injection Hbody as <- <- <- <-.
  split; [eapply selectTracks_report; reflexivity|].
  cbn [gen_name gen_description stats_mode stats_estimatedSeconds gen_genresUsed].
  repeat split. apply playlistDescription_length.
Qed.

Lemma generatePlaylist_report req :
  Hoare w (fun _ => True) (generatePlaylist JSON_parse req)
    (fun response _ =>
       forall text created stats playlistId,
         body response = CreatedBody text created stats playlistId ->
         SelectionReport (default 20%nat (req_targetTrackCount req)) created stats
         /\ gen_name created = default "AI Playlist" (truthy (req_name req))
         /\ (String.length (gen_description created) <= 250)%nat
         /\ stats_mode stats = default standard (req_processingMode req))
    (fun _ _ => False).
Proof.
  apply generatePlaylist_cases.
  - intros response m Hr Hid text created stats playlistId Hbody.
    unfold refinementId in Hid. now rewrite Hbody in Hid.
  - intros. eapply Hoare_weaken; [apply afterCreate_report | auto | | auto].
    intros response m H text created stats playlistId Hbody.
    destruct (H text created stats playlistId Hbody) as (? & ? & ? & ? & _).
    split; [assumption|]. split; [assumption|]. split; assumption.
Qed.
End RouteReport.

(** X7. A success response of the generate-playlist route lists no more
    tracks than the request asked for (20 when it gives no count) and
    reports their number; it names the playlist as the request did, or AI
    Playlist; its description has at most 250 characters; and it reports
    the selection as made by audio features exactly when some analyzed
    track has features, and otherwise as made by popularity, no track then
    carrying a score. *)
Theorem generatePlaylist_created_response (JSON_parse : string -> option LLMAnalysis)
    {S : Type} (w : World S) (req : GenerateRequest) (s : S)
    (m : gmap string ProgressEntry) (response : HttpResponse)
    (text : string) (created : GeneratedPlaylist) (stats : ProcessingStats)
    (playlistId : string) :
  outcome (run w (generatePlaylist JSON_parse req) s m) = Returned response ->
  body response = CreatedBody text created stats playlistId ->
  SelectionReport (default 20%nat (req_targetTrackCount req)) created stats
  /\ gen_name created = default "AI Playlist" (truthy (req_name req))
  /\ (String.length (gen_description created) <= 250)%nat
  /\ stats_mode stats = default standard (req_processingMode req).
Proof.
  intros Ho Hbody.
  pose proof (generatePlaylist_report JSON_parse w req s m I) as H.
  rewrite Ho in H. now apply (H text created stats playlistId).
Qed.

Lemma generatePlaylist_created_response_witness :
  exists created stats,
    SelectionReport 3 created stats
    /\ gen_name created = "AI Playlist"
    /\ map rt_id (gen_tracks created) = ["a"; "b"; "d"]
    /\ stats_selectionMethod stats = "audio_features".
Proof.
  assert (Ho : exists response text created stats playlistId,
             outcome (run (sampleWorld true (RespOk (Some tt)))
                          (generatePlaylist sampleParse sampleRequest) 0 ∅)
             = Returned response
             /\ body response = CreatedBody text created stats playlistId
             /\ map rt_id (gen_tracks created) = ["a"; "b"; "d"]
             /\ stats_selectionMethod stats = "audio_features").
  { eexists _, _, _, _, _. split; [vm_compute; reflexivity|].
    split; [reflexivity|]. split; vm_compute; reflexivity. }
  destruct Ho as (response & text & created & stats & playlistId & Ho & Hb & Hids & Hm).
  destruct (generatePlaylist_created_response sampleParse
              (sampleWorld true (RespOk (Some tt))) sampleRequest 0 ∅
              response text created stats playlistId Ho Hb) as (Hsel & Hname & _).
  exists created, stats.
  split; [exact Hsel|]. split; [exact Hname|]. split; [exact Hids | exact Hm].
Defined.

(** ** The request that creates the playlist *)

Section RouteCreate.
Variable JSON_parse : string -> option LLMAnalysis.
Context {S : Type} (w : World S).

Lemma generatePlaylist_not_created req prompt accessToken userId upstream errorData :
  ValidRequest req prompt accessToken userId ->
  RefusesPlaylist w upstream errorData ->
  Triple w (generatePlaylist JSON_parse req)
    (fun response t =>
       response = {| status := upstream;
                     body := FailureBody "Failed to create playlist" errorData |}
       /\ Forall leavesTracks t)
    (fun _ _ => False).
Proof.
  intros (Hprompt & Htoken & Huser) Hw. unfold generatePlaylist. cbv zeta.
  eapply Triple_tryCatch with (E1 := fun _ _ => False); [|intros ? ? []].
  rewrite Hprompt, Htoken, Huser.
  assert (Hstep : forall {A} (p : Prog A) (f : A -> Prog HttpResponse) Q,
             Calls leavesTracks p ->
             (forall a, Triple w (f a)
                          (fun r t => Q r /\ Forall leavesTracks t)
                          (fun _ _ => False)) ->
             Safe p ->
             Triple w (p ≫= f)
               (fun r t => Q r /\ Forall leavesTracks t) (fun _ _ => False)).
  { intros A p f Q Hc Hf Hs.
    eapply Triple_mbind with (Q1 := fun _ t => Forall leavesTracks t)
                             (E1 := fun _ _ => False); [| |intros ? ? []].
    - intros s m. pose proof (Calls_trace leavesTracks w p s m Hc) as Ht.
      destruct (Safe_returns w p s m Hs) as [a ->]. exact Ht.
    - intros a t1 Ht1. eapply Triple_weaken; [apply Hf | | intros ? ? []].
      intros r t2 [Hr Ht2]. split; [exact Hr|]. now apply Forall_app. }
  apply Hstep; [unfold fetchPlaylistSizes; calls | intros sizes
               | apply Safe_fetchPlaylistSizes].
  apply Hstep; [unfold updatePlaylistProgress; calls | intros []
               | apply Safe_updatePlaylistProgress].
  apply Hstep; [unfold analyzePlaylistPrompt; calls | intros analysis
               | apply Safe_analyzePlaylistPrompt].
  apply Hstep; [unfold updatePlaylistProgress; calls | intros []
               | apply Safe_updatePlaylistProgress].
  apply Hstep; [calls | intros available | apply Safe_call].
  apply Hstep; [unfold updatePlaylistProgress; calls | intros []
               | apply Safe_updatePlaylistProgress].
  apply Triple_call. intros x Hx. destruct (Hw _ _ _ _ _ Hx) as [statusText ->].
  apply (Triple_Vis w). intros [] _. apply Triple_Ret.
  split; [reflexivity|]. repeat constructor; intros [].
Qed.
End RouteCreate.

(** X8. When the catalogue refuses to create the playlist, the
    generate-playlist route answers with the status of the catalogue and its
    error, and it reads no tracks and no audio features, adds no tracks and
    saves nothing to the database. *)
Theorem generatePlaylist_not_created_stops (JSON_parse : string -> option LLMAnalysis)
    {S : Type} (w : World S) (req : GenerateRequest)
    (prompt accessToken userId : string) (upstream : Z) (errorData : string)
    (s : S) (m : gmap string ProgressEntry) :
  ValidRequest req prompt accessToken userId ->
  RefusesPlaylist w upstream errorData ->
  outcome (run w (generatePlaylist JSON_parse req) s m)
  = Returned {| status := upstream;
                body := FailureBody "Failed to create playlist" errorData |}
  /\ Forall leavesTracks (trace (run w (generatePlaylist JSON_parse req) s m)).
Proof.
  intros Hreq Hw.
  pose proof (generatePlaylist_not_created JSON_parse w req prompt accessToken userId
                upstream errorData Hreq Hw s m) as H.
  destruct (outcome (run w (generatePlaylist JSON_parse req) s m)) as [r|e];
    [|destruct H].
  destruct H as [-> Ht]. now split.
Qed.

Lemma generatePlaylist_not_created_stops_witness :
  outcome (run refusingWorld (generatePlaylist sampleParse sampleRequest) 0 ∅)
  = Returned {| status := 403;
                body := FailureBody "Failed to create playlist"
                          "Insufficient client scope" |}
  /\ Forall leavesTracks
            (trace (run refusingWorld (generatePlaylist sampleParse sampleRequest) 0 ∅)).
Proof.
  apply (generatePlaylist_not_created_stops sampleParse refusingWorld sampleRequest
           "upbeat workout songs" "token" "user").
  - repeat split.
  - intros userId accessToken name description x (s & m & <-).
    now exists "Forbidden".
Defined.

(** ** The size of the pool *)

Lemma poolOf_length (mode : ProcessingMode) (allTracks : list Track) :
  Z.of_nat (length (poolOf (PROCESSING_CONFIGS mode) allTracks))
  <= targetPoolSize (PROCESSING_CONFIGS mode).
Proof.
  unfold poolOf. cbv zeta.
  destruct (poolCap _ _) eqn:E.
  - rewrite length_take, Nat2Z.inj_min, Z2Nat.id; [lia|].
    now destruct mode.
  - unfold poolCap in E. apply andb_false_iff in E as [E|E]; apply Z.ltb_ge in E;
      [destruct mode; simpl in E; lia | exact E].
Qed.

Lemma collectTracks_gathered {S} (w : World S) accessToken sources mode callback s m pool :
  outcome (run w (collectTracks accessToken sources mode callback) s m) = Returned pool ->
  exists allTracks, pool = poolOf (PROCESSING_CONFIGS mode) allTracks.
Proof.
  intros Hc. rewrite run_collectTracks_split, mbind_bind, run_bind in Hc.
  destruct (outcome (run w (gatherTracks accessToken sources mode callback) s m))
    as [[allTracks cur]|error]; [|discriminate].
  cbv zeta in Hc. cbn [outcome] in Hc.
  exists allTracks. now apply finishCollect_returns in Hc.
Qed.

(** X9. The pool the collector returns never holds more tracks than the
    target pool size of the mode (200, 500, 1000 or 5000), and no id twice,
    whatever the sources return and however many are selected. *)
Theorem collectTracks_pool_bounded {S : Type} (w : World S) (accessToken : string)
    (sources : PlaylistSources) (mode : ProcessingMode)
    (callback : option (ProcessingProgress -> Prog unit))
    (s : S) (m : gmap string ProgressEntry) (pool : list Track) :
  outcome (run w (collectTracks accessToken sources mode callback) s m) = Returned pool ->
  Z.of_nat (length pool) <= targetPoolSize (PROCESSING_CONFIGS mode)
  /\ targetPoolSize (PROCESSING_CONFIGS mode) <= 5000
  /\ NoDup (map id pool).
Proof.
  intros Hc. apply collectTracks_gathered in Hc as [allTracks ->].
  split; [apply poolOf_length|]. split; [destruct mode; simpl; lia|].
  destruct (poolOf_ids (PROCESSING_CONFIGS mode) allTracks) as (n & -> & _).
  apply NoDup_take_prefix, dedupeStrings_NoDup.
Qed.

Lemma collectTracks_pool_bounded_witness :
  exists pool,
    outcome (run (sampleWorld true (RespOk (Some tt)))
                 (collectTracks "token" sampleSources quick None) 0 ∅)
    = Returned pool
    /\ Z.of_nat (length pool) <= 200
    /\ NoDup (map id pool).
Proof.
  assert (Ho : exists pool,
             outcome (run (sampleWorld true (RespOk (Some tt)))
                          (collectTracks "token" sampleSources quick None) 0 ∅)
             = Returned pool) by (eexists; vm_compute; reflexivity).
  destruct Ho as [pool Ho]. exists pool. split; [exact Ho|].
  destruct (collectTracks_pool_bounded _ _ _ _ _ _ _ _ Ho) as (Hlen & _ & Hnd).
  split; [exact Hlen | exact Hnd].
Defined.

(** ** The playlists the collector reads *)

Lemma playlistsRead_app (t1 t2 : list Event) :
  playlistsRead (t1 ++ t2) = playlistsRead t1 ++ playlistsRead t2.
Proof. apply omap_app. Qed.

Lemma playlistsRead_none (t : list Event) :
  Forall readsNoPlaylist t -> playlistsRead t = [].
Proof.
  induction 1 as [|e t He _ IH]; [reflexivity|].
  unfold playlistsRead in *. simpl. unfold readsNoPlaylist in He. now rewrite He.
Qed.

(** One step of a proof that a program reads no playlist. *)
Ltac unread_step :=
  first
    [ apply Calls_mret
    | apply Calls_Ret
    | apply Calls_Throw
    | apply Calls_call; reflexivity
    | apply Calls_mbind; [|intros ?]
    | apply Calls_bind; [|intros ?]
    | apply Calls_tryCatch; [|intros ?]
    | apply Calls_Vis; [reflexivity | intros ?]
    | match goal with
      | |- Calls _ (match ?x with _ => _ end) => destruct x
      | |- Calls _ (if ?x then _ else _) => destruct x
      | |- Calls _ (let _ := _ in _) => cbv zeta
      end ].

Section PlaylistsRead.
Context {S : Type} (w : World S).

(** The program returns, having read the playlists [ids]. *)
Local Abbreviation Reads p ids :=
  (Triple w p (fun _ t => playlistsRead t = ids) (fun _ _ => False)).

Lemma Reads_none {A} (p : Prog A) :
  Safe p -> Calls readsNoPlaylist p -> Reads p [].
Proof.
  intros Hs Hc s m. destruct (Safe_returns w p s m Hs) as [a ->].
  apply playlistsRead_none. now apply Calls_trace.
Qed.

Lemma Reads_bind {A B} (p : Prog A) (f : A -> Prog B) ids1 ids2 :
  Reads p ids1 -> (forall a, Reads (f a) ids2) -> Reads (p ≫= f) (ids1 ++ ids2).
Proof.
  intros Hp Hf. eapply Triple_mbind; [exact Hp | | intros ? ? []].
  intros a t1 Ht1. eapply Triple_weaken; [apply Hf | | intros ? ? []].
  intros b t2 Ht2. cbv beta. now rewrite playlistsRead_app, Ht1, Ht2.
Qed.

Lemma Reads_ret {A} (a : A) : Reads (mret a) [].
Proof. now apply Triple_Ret. Qed.

Lemma Reads_fetchPlaylistTracks accessToken playlistId config :
  Reads (fetchPlaylistTracks accessToken playlistId config) [playlistId].
Proof.
  unfold fetchPlaylistTracks. cbv zeta.
  apply (Reads_bind _ _ [playlistId] []); [|intros tracks; apply Reads_ret].
  destruct (fetchAllPages config).
  - apply (Reads_bind _ _ [playlistId] []); [|intros; apply Reads_ret].
    apply (Triple_Vis w). intros x _. now apply Triple_Ret.
  - apply (Reads_bind _ _ [playlistId] []); [|intros; apply Reads_ret].
    apply (Triple_Vis w). intros x _. now apply Triple_Ret.
Qed.

Lemma Reads_fetchPlaylistsLoop {St} accessToken config
    (callback : option (Z -> St -> Prog St)) count i ids allTracks st :
  (forall f progress st, callback = Some f ->
     Safe (f progress st) /\ Calls readsNoPlaylist (f progress st)) ->
  Reads (fetchPlaylistsLoop accessToken config callback count i ids allTracks st) ids.
Proof.
  intros Hcb. revert i allTracks st.
  induction ids as [|pid ids IH]; intros i allTracks st; cbn [fetchPlaylistsLoop].
  - apply Reads_ret.
  - apply (Reads_bind _ _ [pid] ids); [apply Reads_fetchPlaylistTracks|].
    intros tracks. cbv zeta.
    apply (Reads_bind _ _ [] ids); [|intros st'; apply IH].
    destruct callback as [f|]; [|apply Reads_ret].
    destruct (Hcb f (mathRound (inject_Z (Z.of_nat (i + 1))
                                / inject_Z (Z.of_nat count) * 100)) st eq_refl).
    now apply Reads_none.
Qed.

Lemma Reads_fetchTopTracks accessToken config :
  Reads (fetchTopTracks accessToken config) [].
Proof.
  apply Reads_none; [apply Safe_fetchTopTracks|].
  unfold fetchTopTracks, timeRanges. cbn [fetchTopTracksLoop]. repeat unread_step.
Qed.

Lemma Reads_updateProgress callback stage progress message current :
  (forall f p, callback = Some f -> Safe (f p) /\ Calls readsNoPlaylist (f p)) ->
  Reads (updateProgress callback stage progress message current) [].
Proof.
  intros Hcb. apply Reads_none.
  - apply Safe_updateProgress. intros f p Hf. now apply Hcb.
  - unfold updateProgress. cbv zeta. destruct callback as [f|]; [|unread_step].
    apply Calls_mbind; [now apply Hcb | intros ?; unread_step].
Qed.

Lemma Reads_collectTracks accessToken sources mode callback :
  (forall f p, callback = Some f -> Safe (f p) /\ Calls readsNoPlaylist (f p)) ->
  Reads (collectTracks accessToken sources mode callback)
        (take (Z.to_nat (maxPlaylists (PROCESSING_CONFIGS mode))) (playlists sources)).
Proof.
  intros Hcb. unfold collectTracks. cbv zeta.
  set (limited := take _ (playlists sources)).
  apply (Reads_bind _ _ [] limited).
  { destruct (useLikedSongs sources); [|apply Reads_ret].
    apply (Reads_bind _ _ [] []); [now apply Reads_updateProgress | intros ?].
    apply (Reads_bind _ _ [] []); [|intros ?; apply Reads_ret].
    apply Reads_none; [apply Safe_fetchLikedSongs|].
    unfold fetchLikedSongs. repeat unread_step. }
  intros r1.
  apply (Reads_bind _ _ [] limited).
  { destruct (useTopTracks sources); [|apply Reads_ret].
    apply (Reads_bind _ _ [] []); [now apply Reads_updateProgress | intros ?].
    apply (Reads_bind _ _ [] []); [|intros ?; apply Reads_ret].
    apply Reads_fetchTopTracks. }
  intros r2.
  replace limited with (limited ++ []) by apply app_nil_r.
  apply (Reads_bind _ _ limited []).
  { subst limited. destruct (playlists sources) as [|pid ids] eqn:E.
    - rewrite take_nil. apply Reads_ret.
    - set (lim := take _ (pid :: ids)).
      apply (Reads_bind _ _ [] lim); [now apply Reads_updateProgress | intros ?].
      replace lim with (lim ++ []) by apply app_nil_r.
      apply (Reads_bind _ _ lim []); [|intros ?; apply Reads_ret].
      unfold fetchSelectedPlaylistTracks. cbv zeta.
      replace lim with (lim ++ []) by apply app_nil_r.
      apply (Reads_bind _ _ lim []); [|intros ?; apply Reads_ret].
      apply Reads_fetchPlaylistsLoop.
      intros f progress st [= <-].
      split; [apply Safe_updateProgress; intros; now apply Hcb|].
      unfold updateProgress. cbv zeta. destruct callback as [g|]; [|unread_step].
      apply Calls_mbind; [now apply Hcb | intros ?; unread_step]. }
  intros r3.
  apply (Reads_bind _ _ [] []); [now apply Reads_updateProgress | intros ?].
  apply (Reads_bind _ _ [] []).
  { destruct (poolCap _ _); [|apply Reads_ret].
    apply (Reads_bind _ _ [] []); [now apply Reads_updateProgress | intros ?].
    apply Reads_ret. }
  intros r4.
  apply (Reads_bind _ _ [] []); [now apply Reads_updateProgress | intros ?].
  apply Reads_ret.
Qed.
End PlaylistsRead.

(** X10. The collector reads the tracks of the first playlists of the
    selection, as many as the mode allows (5, 10, 20 or 50), each once and
    in the order of the selection, and of no other playlist. *)
Theorem collectTracks_reads_playlists {S : Type} (w : World S) (accessToken : string)
    (sources : PlaylistSources) (mode : ProcessingMode)
    (callback : option (ProcessingProgress -> Prog unit))
    (s : S) (m : gmap string ProgressEntry) :
  (forall f p, callback = Some f -> Safe (f p) /\ Calls readsNoPlaylist (f p)) ->
  playlistsRead (trace (run w (collectTracks accessToken sources mode callback) s m))
  = take (Z.to_nat (maxPlaylists (PROCESSING_CONFIGS mode))) (playlists sources)
  /\ (length (playlistsRead
                (trace (run w (collectTracks accessToken sources mode callback) s m)))
      <= 50)%nat.
Proof.
  intros Hcb.
  pose proof (Reads_collectTracks w accessToken sources mode callback Hcb s m) as H.
  destruct (outcome (run w (collectTracks accessToken sources mode callback) s m));
    [|destruct H].
  rewrite H. split; [reflexivity|].
  rewrite length_take. etransitivity; [apply Nat.le_min_l|].
  apply Nat2Z.inj_le. rewrite Z2Nat.id; now destruct mode.
Qed.

Lemma collectTracks_reads_playlists_witness :
  playlistsRead
    (trace (run (sampleWorld true (RespOk (Some tt)))
                (collectTracks "token"
                   {| useLikedSongs := true; useTopTracks := false;
                      useRecommendations := false;
                      playlists := ["p1"; "p2"; "p3"; "p4"; "p5"; "p6"; "p7"] |}
                   quick None) 0 ∅))
  = ["p1"; "p2"; "p3"; "p4"; "p5"].
Proof.
  rewrite (proj1 (collectTracks_reads_playlists (sampleWorld true (RespOk (Some tt)))
                    "token" _ quick None 0 ∅
                    ltac:(intros f p; discriminate))).
  reflexivity.
Defined.

(** ** The progress the collector reports *)

Lemma percentsWritten_app (t1 t2 : list Event) :
  percentsWritten (t1 ++ t2) = percentsWritten t1 ++ percentsWritten t2.
Proof. apply omap_app. Qed.

Lemma percentsWritten_none (t : list Event) :
  Forall writesNoPercent t -> percentsWritten t = [].
Proof.
  induction 1 as [|e t He _ IH]; [reflexivity|].
  unfold percentsWritten in *. simpl. unfold writesNoPercent in He. now rewrite He.
Qed.

Lemma Climbs_nil lo hi : Climbs lo hi [].
Proof. split; constructor. Qed.

Lemma Climbs_one x : Climbs x x [x].
Proof. split; repeat constructor; lia. Qed.

Lemma Sorted_le_app (l1 l2 : list Z) (mid : Z) :
  Sorted Z.le l1 -> Sorted Z.le l2 ->
  Forall (fun x => x <= mid) l1 -> Forall (fun x => mid <= x) l2 ->
  Sorted Z.le (l1 ++ l2).
Proof.
  intros H1 H2 Hl1 Hl2. induction H1 as [|x l1 _ IH Hd]; simpl; [exact H2|].
  apply Forall_cons in Hl1 as [Hx Hl1].
  constructor; [now apply IH|].
  destruct Hd as [|y l1 Hxy]; simpl.
  - destruct Hl2 as [|z l2 Hz _]; constructor. lia.
  - now constructor.
Qed.

Lemma Climbs_app lo1 hi1 lo2 hi2 (l1 l2 : list Z) :
  Climbs lo1 hi1 l1 -> Climbs lo2 hi2 l2 ->
  lo1 <= lo2 -> hi1 <= lo2 -> hi1 <= hi2 ->
  Climbs lo1 hi2 (l1 ++ l2).
Proof.
  intros [S1 F1] [S2 F2] Hlo Hmid Hhi. split.
  - apply (Sorted_le_app l1 l2 hi1); [exact S1 | exact S2 | |].
    + eapply Forall_impl; [exact F1|]. simpl. lia.
    + eapply Forall_impl; [exact F2|]. simpl. lia.
  - apply Forall_app. split; (eapply Forall_impl; [eassumption|]); simpl; lia.
Qed.

Lemma Climbs_weaken lo hi lo' hi' (l : list Z) :
  Climbs lo hi l -> lo' <= lo -> hi <= hi' -> Climbs lo' hi' l.
Proof.
  intros [Hs Hf] Hlo Hhi. split; [exact Hs|].
  eapply Forall_impl; [exact Hf|]. simpl. lia.
Qed.

(** The percentage reported after playlist [i] of [count]. *)
Lemma playlistPercent_bounds (i count : nat) :
  (i < count)%nat ->
  0 <= mathRound (inject_Z (Z.of_nat (i + 1)) / inject_Z (Z.of_nat count) * 100) <= 100.
Proof.
  intros Hi. unfold mathRound.
  set (x := (inject_Z (Z.of_nat (i + 1)) / inject_Z (Z.of_nat count) * 100)%Q).
  assert (Hc : (0 < inject_Z (Z.of_nat count))%Q).
  { change 0%Q with (inject_Z 0). rewrite <- Zlt_Qlt. lia. }
  assert (Hx : (0 <= x /\ x <= 100)%Q).
  { subst x. split.
    - apply Qmult_le_0_compat; [|lra]. apply Qle_shift_div_l; [exact Hc|].
      rewrite Qmult_0_l. change 0%Q with (inject_Z 0). rewrite <- Zle_Qle. lia.
    - assert (Hle : (inject_Z (Z.of_nat (i + 1)) / inject_Z (Z.of_nat count) <= 1)%Q).
      { apply Qle_shift_div_r; [exact Hc|]. rewrite Qmult_1_l.
        rewrite <- Zle_Qle. lia. }
      lra. }
  split.
  - change 0 with (Qfloor 0). apply Qfloor_resp_le. lra.
  - change 100 with (Qfloor (100 + (1 # 2))). apply Qfloor_resp_le. lra.
Qed.

Lemma playlistPercent_mono (i j count : nat) :
  (i <= j)%nat -> (0 < count)%nat ->
  mathRound (inject_Z (Z.of_nat (i + 1)) / inject_Z (Z.of_nat count) * 100)
  <= mathRound (inject_Z (Z.of_nat (j + 1)) / inject_Z (Z.of_nat count) * 100).
Proof.
  intros Hij Hc. unfold mathRound. apply Qfloor_resp_le.
  assert (Hcq : (0 < inject_Z (Z.of_nat count))%Q).
  { change 0%Q with (inject_Z 0). rewrite <- Zlt_Qlt. lia. }
  assert (Hle : (inject_Z (Z.of_nat (i + 1)) / inject_Z (Z.of_nat count)
                 <= inject_Z (Z.of_nat (j + 1)) / inject_Z (Z.of_nat count))%Q).
  { unfold Qdiv. apply Qmult_le_compat_r.
    - rewrite <- Zle_Qle. lia.
    - apply Qlt_le_weak, Qinv_lt_0_compat, Hcq. }
  lra.
Qed.

Lemma scaledPercent_mono (p q : Z) :
  p <= q -> Qfloor (inject_Z p * (4 # 10)) <= Qfloor (inject_Z q * (4 # 10)).
Proof.
  intros H. apply Qfloor_resp_le.
  assert (inject_Z p <= inject_Z q)%Q by now rewrite <- Zle_Qle. lra.
Qed.

Lemma scaledPercent_bounds (p : Z) :
  0 <= p <= 100 -> 0 <= Qfloor (inject_Z p * (4 # 10)) <= 40.
Proof.
  intros [H0 H100]. split.
  - change 0 with (Qfloor (inject_Z 0 * (4 # 10))). now apply scaledPercent_mono.
  - change 40 with (Qfloor (inject_Z 100 * (4 # 10))). now apply scaledPercent_mono.
Qed.

Section Reports.
Context {S : Type} (w : World S).
Variables (playlistId mode : string).

(** The program returns, and the percentages it wrote satisfy [R]. *)
Local Abbreviation Writes p R :=
  (Triple w p (fun _ t => R (percentsWritten t)) (fun _ _ => False)).

Lemma Writes_none {A} (p : Prog A) lo hi :
  Safe p -> Calls writesNoPercent p -> Writes p (Climbs lo hi).
Proof.
  intros Hs Hc s m. destruct (Safe_returns w p s m Hs) as [a ->].
  rewrite percentsWritten_none; [apply Climbs_nil | now apply Calls_trace].
Qed.

Lemma Writes_ret {A} (a : A) lo hi : Writes (mret a) (Climbs lo hi).
Proof. apply Triple_Ret, Climbs_nil. Qed.

Lemma Writes_bind {A B} (p : Prog A) (f : A -> Prog B) lo1 hi1 lo2 hi2 :
  lo1 <= lo2 -> hi1 <= lo2 -> hi1 <= hi2 ->
  Writes p (Climbs lo1 hi1) -> (forall a, Writes (f a) (Climbs lo2 hi2)) ->
  Writes (p ≫= f) (Climbs lo1 hi2).
Proof.
  intros Hlo Hmid Hhi Hp Hf. eapply Triple_mbind; [exact Hp | | intros ? ? []].
  intros a t1 Ht1. eapply Triple_weaken; [apply Hf | | intros ? ? []].
  intros b t2 Ht2. cbv beta. rewrite percentsWritten_app.
  now apply (Climbs_app lo1 hi1 lo2 hi2).
Qed.

Lemma updatePlaylistProgress_writes theStage percent text :
  Triple w (updatePlaylistProgress playlistId theStage percent text mode)
    (fun _ t => percentsWritten t = [percent]) (fun _ _ => False).
Proof.
  unfold updatePlaylistProgress. apply Triple_call. intros found _.
  destruct found as [existing|].
  - cbn [mbind Prog_bind bind mret Prog_ret]. unfold call.
    apply (Triple_Vis w). intros [] _. now apply Triple_Ret.
  - apply Triple_call. intros now _.
    cbn [mbind Prog_bind bind mret Prog_ret]. unfold call.
    apply (Triple_Vis w). intros [] _. now apply Triple_Ret.
Qed.

Lemma updateProgress_writes_one theStage percent text current :
  Writes (updateProgress (routeCallback playlistId mode) theStage percent text current)
         (fun percents => percents = [percent]).
Proof.
  unfold updateProgress, routeCallback. cbv zeta.
  eapply Triple_mbind; [apply updatePlaylistProgress_writes | | intros ? ? []].
  intros [] t1 Ht1. apply Triple_Ret. cbn [progress] in Ht1.
  now rewrite app_nil_r, Ht1.
Qed.

Lemma updateProgress_writes theStage percent text current :
  Writes (updateProgress (routeCallback playlistId mode) theStage percent text current)
         (Climbs percent percent).
Proof.
  eapply Triple_weaken; [apply updateProgress_writes_one | | intros ? ? []].
  intros a t ->. apply Climbs_one.
Qed.

Lemma Safe_routeCallback f p :
  routeCallback playlistId mode = Some f -> Safe (f p).
Proof. intros [= <-]. apply Safe_updatePlaylistProgress. Qed.

Lemma playlistsLoop_writes accessToken config count i ids allTracks current :
  (i + length ids = count)%nat ->
  Writes (fetchPlaylistsLoop accessToken config
            (Some (fun (progress : Z) (current : ProcessingProgress) =>
                     updateProgress (routeCallback playlistId mode) "collecting"
                       (40 + Qfloor (inject_Z progress * (4 # 10)))
                       ("Fetching playlist tracks: " +:+ pretty progress
                        +:+ "% complete")
                       current))
            count i ids allTracks current)
         (Climbs (40 + Qfloor (inject_Z (mathRound
                    (inject_Z (Z.of_nat (i + 1)) / inject_Z (Z.of_nat count) * 100))
                    * (4 # 10)))
                 80).
Proof.
  revert i allTracks current.
  induction ids as [|pid ids IH]; intros i allTracks current Hcount;
    cbn [fetchPlaylistsLoop].
  - apply Writes_ret.
  - simpl in Hcount.
    set (here := 40 + Qfloor (inject_Z (mathRound
                   (inject_Z (Z.of_nat (i + 1)) / inject_Z (Z.of_nat count) * 100))
                   * (4 # 10))).
    assert (Hhere : 40 <= here <= 80).
    { subst here.
      pose proof (scaledPercent_bounds _ (playlistPercent_bounds i count ltac:(lia))).
      lia. }
    apply (Writes_bind _ _ here here here 80); [lia | lia | lia | |].
    { apply Writes_none; [apply Safe_fetchPlaylistTracks|].
      unfold fetchPlaylistTracks. repeat unread_step. }
    intros tracks. cbv zeta.
    destruct ids as [|pid' ids'].
    + apply (Writes_bind _ _ here here here 80); [lia | lia | lia | |].
      * apply updateProgress_writes.
      * intros current'. cbn [fetchPlaylistsLoop]. apply Writes_ret.
    + set (next := 40 + Qfloor (inject_Z (mathRound
                     (inject_Z (Z.of_nat (Datatypes.S i + 1))
                      / inject_Z (Z.of_nat count) * 100)) * (4 # 10))).
      assert (Hnext : here <= next).
      { subst here next. apply Z.add_le_mono_l, scaledPercent_mono.
        apply playlistPercent_mono; lia. }
      assert (Hn80 : next <= 80).
      { subst next. simpl in Hcount.
        pose proof (scaledPercent_bounds _
                      (playlistPercent_bounds (Datatypes.S i) count ltac:(lia))).
        lia. }
      apply (Writes_bind _ _ here here next 80); [lia | lia | lia | |].
      * apply updateProgress_writes.
      * intros current'. apply IH. simpl in *. lia.
Qed.
Lemma Writes_bind_to100 {A B} (p : Prog A) (f : A -> Prog B) lo1 hi1 lo2 :
  lo1 <= lo2 -> hi1 <= lo2 -> hi1 <= 100 ->
  Writes p (Climbs lo1 hi1) -> (forall a, Writes (f a) (ClimbsTo100 lo2)) ->
  Writes (p ≫= f) (ClimbsTo100 lo1).
Proof.
  intros Hlo Hmid Hhi Hp Hf. eapply Triple_mbind; [exact Hp | | intros ? ? []].
  intros a t1 Ht1. eapply Triple_weaken; [apply Hf | | intros ? ? []].
  intros b t2 [Ht2 Hlast]. cbv beta. rewrite percentsWritten_app. split.
  - now apply (Climbs_app lo1 hi1 lo2 100).
  - destruct (percentsWritten t2) as [|x l] using rev_ind; [discriminate|].
    rewrite app_assoc, last_snoc. now rewrite last_snoc in Hlast.
Qed.

Lemma collectTracks_writes accessToken sources processingMode :
  Writes (collectTracks accessToken sources processingMode
            (routeCallback playlistId mode))
         (ClimbsTo100 10).
Proof.
  unfold collectTracks. cbv zeta.
  apply (Writes_bind_to100 _ _ 10 10 30); [lia | lia | lia | |].
  { destruct (useLikedSongs sources); [|apply Writes_ret].
    apply (Writes_bind _ _ 10 10 10 10); [lia | lia | lia | |].
    - apply updateProgress_writes.
    - intros current. apply Writes_none.
      + apply Safe_mbind; [apply Safe_fetchLikedSongs | intros ?; apply Safe_mret].
      + unfold fetchLikedSongs. repeat unread_step. }
  intros r1.
  apply (Writes_bind_to100 _ _ 30 30 40); [lia | lia | lia | |].
  { destruct (useTopTracks sources); [|apply Writes_ret].
    apply (Writes_bind _ _ 30 30 30 30); [lia | lia | lia | |].
    - apply updateProgress_writes.
    - intros current. apply Writes_none.
      + apply Safe_mbind; [apply Safe_fetchTopTracks | intros ?; apply Safe_mret].
      + unfold fetchTopTracks, timeRanges. cbn [fetchTopTracksLoop].
        repeat unread_step. }
  intros r2.
  apply (Writes_bind_to100 _ _ 40 80 85); [lia | lia | lia | |].
  { destruct (playlists sources) as [|pid ids]; [apply Writes_ret|].
    apply (Writes_bind _ _ 40 40 40 80); [lia | lia | lia | |].
    - apply updateProgress_writes.
    - intros current.
      apply (Writes_bind _ _ 40 80 80 80); [lia | lia | lia | |];
        [|intros ?; apply Writes_ret].
      unfold fetchSelectedPlaylistTracks. cbv zeta.
      apply (Writes_bind _ _ 40 80 80 80); [lia | lia | lia | |];
        [|intros ?; apply Writes_ret].
      eapply Triple_weaken; [apply playlistsLoop_writes; reflexivity | | intros ? ? []].
      intros r t Ht. cbv beta. eapply Climbs_weaken; [exact Ht | | lia].
      set (limited := take _ (pid :: ids)).
      destruct limited as [|pid' limited'] eqn:E.
      + vm_compute. discriminate.
      + pose proof (scaledPercent_bounds _
                      (playlistPercent_bounds 0 (length (pid' :: limited'))
                         ltac:(simpl; lia))).
        lia. }
  intros r3.
  apply (Writes_bind_to100 _ _ 85 85 90); [lia | lia | lia | |].
  { apply updateProgress_writes. }
  intros current.
  apply (Writes_bind_to100 _ _ 90 90 100); [lia | lia | lia | |].
  { destruct (poolCap _ _); [|apply Writes_ret].
    apply (Writes_bind _ _ 90 90 90 90); [lia | lia | lia | |].
    - apply updateProgress_writes.
    - intros ?. apply Writes_ret. }
  intros r4.
  eapply Triple_mbind; [apply updateProgress_writes_one | | intros ? ? []].
  intros current' t1 Ht1. apply Triple_Ret. rewrite app_nil_r, Ht1.
  split; [apply Climbs_one | reflexivity].
Qed.
End Reports.

(** X11. With the callback of the generate-playlist route, which writes
    every report of the collector to the progress map, the percentages
    written during a collection never decrease, lie between 10 and 100, and
    end at 100, whatever the sources return. *)
Theorem collectTracks_progress_climbs {S : Type} (w : World S)
    (playlistId mode accessToken : string) (sources : PlaylistSources)
    (processingMode : ProcessingMode) (s : S) (m : gmap string ProgressEntry) :
  let written :=
    percentsWritten
      (trace (run w (collectTracks accessToken sources processingMode
                       (routeCallback playlistId mode)) s m)) in
  Sorted Z.le written
  /\ Forall (fun x => 10 <= x <= 100) written
  /\ last written = Some 100.
Proof.
  cbv zeta.
  pose proof (collectTracks_writes w playlistId mode accessToken sources
                processingMode s m) as H.
  destruct (outcome (run w (collectTracks accessToken sources processingMode
                              (routeCallback playlistId mode)) s m));
    [|destruct H].
  destruct H as [[Hs Hf] Hl]. now repeat split.
Qed.

Example collectTracks_progress_sample :
  percentsWritten
    (trace (run (sampleWorld true (RespOk (Some tt)))
                (collectTracks "token"
                   {| useLikedSongs := true; useTopTracks := true;
                      useRecommendations := false;
                      playlists := ["p1"; "p2"; "p3"] |}
                   quick (routeCallback "PL1" "quick")) 0 ∅))
  = [10; 30; 40; 53; 66; 80; 85; 100].
Proof. vm_compute. reflexivity. Qed.

(** ** The top tracks *)

(** X12. Whatever the mode, the top tracks are read with three requests,
    for the short, the medium and the long term in this order, 50 tracks
    each; the function never throws and returns the tracks answered, short
    term first, each id once. *)
Theorem fetchTopTracks_three_ranges {S : Type} (w : World S) (accessToken : string)
    (config : ProcessingConfig) (s : S) (m : gmap string ProgressEntry) :
  let r := run w (fetchTopTracks accessToken config) s m in
  trace r = [event (FetchLimitedItems (TopTracks "short_term") accessToken 50);
             event (FetchLimitedItems (TopTracks "medium_term") accessToken 50);
             event (FetchLimitedItems (TopTracks "long_term") accessToken 50)]
  /\ exists short medium long,
       Answer w (FetchLimitedItems (TopTracks "short_term") accessToken 50) short
       /\ Answer w (FetchLimitedItems (TopTracks "medium_term") accessToken 50) medium
       /\ Answer w (FetchLimitedItems (TopTracks "long_term") accessToken 50) long
       /\ outcome r = Returned (uniqueById (short ++ medium ++ long))
       /\ map id (uniqueById (short ++ medium ++ long))
          = dedupeStrings (map id (short ++ medium ++ long))
       /\ NoDup (map id (uniqueById (short ++ medium ++ long))).
Proof.
  cbv zeta.
  assert (H : Triple w (fetchTopTracks accessToken config)
                (fun tracks t =>
                   t = [event (FetchLimitedItems (TopTracks "short_term") accessToken 50);
                        event (FetchLimitedItems (TopTracks "medium_term") accessToken 50);
                        event (FetchLimitedItems (TopTracks "long_term") accessToken 50)]
                   /\ exists short medium long,
                        Answer w (FetchLimitedItems (TopTracks "short_term")
                                    accessToken 50) short
                        /\ Answer w (FetchLimitedItems (TopTracks "medium_term")
                                       accessToken 50) medium
                        /\ Answer w (FetchLimitedItems (TopTracks "long_term")
                                       accessToken 50) long
                        /\ tracks = uniqueById (short ++ medium ++ long))
                (fun _ _ => False)).
  { unfold fetchTopTracks, timeRanges. cbn [fetchTopTracksLoop].
    rewrite !mbind_bind. cbn [bind call].
    apply (Triple_Vis w). intros short Hs.
    apply (Triple_Vis w). intros medium Hm.
    apply (Triple_Vis w). intros long Hl.
    apply Triple_Ret. split; [reflexivity|].
    exists short, medium, long. rewrite <- app_assoc. now repeat split. }
  specialize (H s m).
  destruct (outcome (run w (fetchTopTracks accessToken config) s m)) as [tracks|];
    [|destruct H].
  destruct H as (Ht & short & medium & long & Hs & Hm & Hl & ->).
  split; [exact Ht|]. exists short, medium, long.
  repeat (split; [assumption || reflexivity|]).
  split; [apply uniqueById_ids|].
  rewrite uniqueById_ids. apply dedupeStrings_NoDup.
Qed.

(** ** The audio features of the pool *)

Lemma take_add_app {A} (a b : nat) (l : list A) :
  take (a + b) l = take a l ++ take b (drop a l).
Proof.
  revert l. induction a as [|a IH]; intros l; [reflexivity|].
  destruct l as [|x l]; simpl; [now rewrite take_nil | now rewrite IH].
Qed.

Lemma concat_batches {A} (size : nat) (l : list A) (k : nat) :
  concat (map (fun j => take size (drop (j * size) l)) (seq 0 k)) = take (k * size) l.
Proof.
  induction k as [|k IH]; [reflexivity|].
  rewrite seq_S, map_app, concat_app, IH. simpl.
  rewrite app_nil_r, <- take_add_app. f_equal. lia.
Qed.

Lemma concat_batchesOf (size : nat) (l : list Track) :
  (0 < size)%nat -> concat (batchesOf size l) = l.
Proof.
  intros Hsize. unfold batchesOf. rewrite concat_batches.
  apply firstn_all2.
  pose proof (Nat.div_mod_eq (length l + size - 1) size) as Hdm.
  pose proof (Nat.mod_upper_bound (length l + size - 1) size ltac:(lia)) as Hub.
  nia.
Qed.

Lemma withoutFeatures_withFeatures (t : Track) (f : option AudioFeatures) :
  withoutFeatures (withFeatures t f) = withoutFeatures t.
Proof. reflexivity. Qed.

Lemma concat_ids_nonempty (batch : list Track) :
  batch <> [] -> Forall (fun t => id t <> "") batch ->
  String.concat "," (map id batch) <> "".
Proof.
  intros Hne Hids. destruct batch as [|t batch]; [congruence|].
  apply Forall_cons in Hids as [Ht _]. simpl.
  destruct (id t) as [|c rest] eqn:E; [congruence|].
  destruct (map id batch); simpl; discriminate.
Qed.

Section Features.
Context {S : Type} (w : World S).

Lemma featuresOneByOne_keeps accessToken trackBatch batchWithFeatures :
  Triple w (featuresOneByOne accessToken trackBatch batchWithFeatures)
    (fun result _ =>
       exists added, result = batchWithFeatures ++ added
                     /\ map withoutFeatures added = map withoutFeatures trackBatch)
    (fun _ _ => False).
Proof.
  revert batchWithFeatures.
  induction trackBatch as [|track rest IH]; intros acc; cbn [featuresOneByOne].
  - apply Triple_Ret. exists []. now rewrite app_nil_r.
  - eapply Triple_mbind with
      (Q1 := fun entry _ => withoutFeatures entry = withoutFeatures track)
      (E1 := fun _ _ => False); [| |intros ? ? []].
    + eapply Triple_tryCatch with (E1 := fun _ _ => True).
      * apply Triple_call. intros x _.
        destruct x as [message | [trackFeature|] | status statusText errorData];
          first [now apply Triple_Ret | now apply Triple_Throw].
      * intros e t1 _. eapply Triple_mbind with (E1 := fun _ _ => False);
          [apply Safe_Triple, Safe_call | | intros ? ? []].
        intros [] t2 _. now apply Triple_Ret.
    + intros entry t1 Hentry. eapply Triple_weaken; [apply IH | | intros ? ? []].
      intros result t2 (added & -> & Hadded). cbv beta.
      exists (entry :: added). rewrite <- app_assoc. split; [reflexivity|].
      simpl. now rewrite Hentry, Hadded.
Qed.

Lemma featuresForBatch_keeps accessToken trackBatch tracksWithFeatures :
  Triple w (featuresForBatch accessToken trackBatch tracksWithFeatures)
    (fun result _ =>
       exists added, result = tracksWithFeatures ++ added
                     /\ (added = []
                         \/ map withoutFeatures added = map withoutFeatures trackBatch))
    (fun _ _ => True).
Proof.
  unfold featuresForBatch. cbv zeta.
  destruct (String.eqb _ "").
  { apply Triple_Ret. exists []. rewrite app_nil_r. now split; [|left]. }
  apply Triple_call. intros x _.
  destruct x as [message | [[entries|]|] | status statusText errorData].
  - now apply Triple_Throw.
  - apply Triple_Ret. eexists. split; [reflexivity|]. right.
    rewrite map_map. apply map_ext. intros t. apply withoutFeatures_withFeatures.
  - eapply Triple_mbind with (E1 := fun _ _ => True);
      [apply Triple_any | | trivial].
    intros [] t1 _. apply Triple_Ret. exists []. rewrite app_nil_r. now split; [|left].
  - now apply Triple_Throw.
  - triple_skip. triple_skip.
    eapply Triple_mbind; [apply featuresOneByOne_keeps | | intros ? ? []].
    intros result tr (added & -> & Hadded). apply Triple_Ret.
    exists added. split; [reflexivity | now right].
Qed.

Lemma featuresLoop_keeps accessToken batches tracksWithFeatures :
  Triple w (featuresLoop accessToken batches tracksWithFeatures)
    (fun result _ =>
       exists added, result = tracksWithFeatures ++ added
                     /\ map withoutFeatures added
                        `sublist_of` map withoutFeatures (concat batches))
    (fun _ _ => True).
Proof.
  revert tracksWithFeatures.
  induction batches as [|batch rest IH]; intros acc; cbn [featuresLoop].
  - apply Triple_Ret. exists []. rewrite app_nil_r. split; [reflexivity | constructor].
  - eapply Triple_mbind with (E1 := fun _ _ => True);
      [apply featuresForBatch_keeps | | trivial].
    intros acc' t1 (added & -> & Hadded).
    eapply Triple_weaken; [apply IH | | trivial].
    intros result t2 (added' & -> & Hsub). cbv beta.
    exists (added ++ added'). rewrite app_assoc. split; [reflexivity|].
    simpl. rewrite !map_app. apply sublist_app; [|exact Hsub].
    destruct Hadded as [-> | ->]; [apply sublist_nil_l | reflexivity].
Qed.

(** With a catalogue that answers every batch, and ids that are not
    empty, no batch is left out. *)
Lemma featuresForBatch_all accessToken trackBatch tracksWithFeatures :
  AnswersFeatures w ->
  Forall (fun t => id t <> "") trackBatch ->
  Triple w (featuresForBatch accessToken trackBatch tracksWithFeatures)
    (fun result _ =>
       exists added, result = tracksWithFeatures ++ added
                     /\ map withoutFeatures added = map withoutFeatures trackBatch)
    (fun _ _ => False).
Proof.
  intros Hw Hids. unfold featuresForBatch. cbv zeta.
  destruct (String.eqb _ "") eqn:E.
  { apply Triple_Ret. exists []. rewrite app_nil_r. split; [reflexivity|].
    destruct trackBatch as [|t rest]; [reflexivity|].
    apply String.eqb_eq in E. exfalso.
    now apply (concat_ids_nonempty (t :: rest)). }
  apply Triple_call. intros x Hx. destruct (Hw _ _ _ Hx) as [entries ->].
  apply Triple_Ret. eexists. split; [reflexivity|].
  rewrite map_map. apply map_ext. intros t. apply withoutFeatures_withFeatures.
Qed.

Lemma featuresLoop_all accessToken batches tracksWithFeatures :
  AnswersFeatures w ->
  Forall (fun t => id t <> "") (concat batches) ->
  Triple w (featuresLoop accessToken batches tracksWithFeatures)
    (fun result _ =>
       exists added, result = tracksWithFeatures ++ added
                     /\ map withoutFeatures added
                        = map withoutFeatures (concat batches))
    (fun _ _ => False).
Proof.
  intros Hw. revert tracksWithFeatures.
  induction batches as [|batch rest IH]; intros acc Hids; cbn [featuresLoop].
  - apply Triple_Ret. exists []. now rewrite app_nil_r.
  - simpl in Hids. apply Forall_app in Hids as [Hbatch Hrest].
    eapply Triple_mbind; [now apply featuresForBatch_all | | intros ? ? []].
    intros acc' t1 (added & -> & Hadded).
    eapply Triple_weaken; [now apply IH | | intros ? ? []].
    intros result t2 (added' & -> & Hall). cbv beta.
    exists (added ++ added'). rewrite app_assoc. split; [reflexivity|].
    simpl. now rewrite !map_app, Hadded, Hall.
Qed.
End Features.

(** X13. Reading the audio features never throws and never changes, adds or
    reorders tracks: features aside, what it returns is the pool with
    possibly some tracks left out, in the order of the pool.  When the
    catalogue answers every batch with an array of features and no track id
    is empty, no track is left out. *)
Theorem fetchFeatures_keeps_tracks {S : Type} (w : World S) (accessToken : string)
    (collectedTracks : list Track) (s : S) (m : gmap string ProgressEntry) :
  exists tracksWithFeatures,
    outcome (run w (fetchFeatures accessToken collectedTracks) s m)
    = Returned tracksWithFeatures
    /\ map withoutFeatures tracksWithFeatures
       `sublist_of` map withoutFeatures collectedTracks
    /\ (length tracksWithFeatures <= length collectedTracks)%nat
    /\ (AnswersFeatures w ->
        Forall (fun t => id t <> "") collectedTracks ->
        map withoutFeatures tracksWithFeatures = map withoutFeatures collectedTracks).
Proof.
  assert (H1 : Triple w (fetchFeatures accessToken collectedTracks)
                 (fun result _ =>
                    map withoutFeatures result
                    `sublist_of` map withoutFeatures collectedTracks)
                 (fun _ _ => False)).
  { unfold fetchFeatures.
    eapply Triple_tryCatch with (E1 := fun _ _ => True).
    - destruct collectedTracks as [|t rest] eqn:E; [apply Triple_Ret; constructor|].
      rewrite <- E.
      eapply Triple_weaken; [apply featuresLoop_keeps | | trivial].
      intros result t' (added & -> & Hsub). cbv beta. simpl.
      now rewrite concat_batchesOf in Hsub by lia.
    - intros e t1 _.
      eapply Triple_mbind with (E1 := fun _ _ => False);
        [apply Safe_Triple, Safe_call | | intros ? ? []].
      intros [] t2 _. apply Triple_Ret. rewrite map_map.
      erewrite map_ext; [reflexivity|]. intros t. apply withoutFeatures_withFeatures. }
  assert (H2 : AnswersFeatures w ->
               Forall (fun t => id t <> "") collectedTracks ->
               Triple w (fetchFeatures accessToken collectedTracks)
                 (fun result _ =>
                    map withoutFeatures result = map withoutFeatures collectedTracks)
                 (fun _ _ => False)).
  { intros Hw Hids. unfold fetchFeatures.
    eapply Triple_tryCatch with (E1 := fun _ _ => False); [|intros ? ? []].
    destruct collectedTracks as [|t rest] eqn:E; [now apply Triple_Ret|].
    rewrite <- E in *.
    eapply Triple_weaken;
      [apply featuresLoop_all; [exact Hw | now rewrite concat_batchesOf by lia]
      | | intros ? ? []].
    intros result t' (added & -> & Hall). cbv beta. simpl.
    now rewrite concat_batchesOf in Hall by lia. }
  specialize (H1 s m).
  destruct (outcome (run w (fetchFeatures accessToken collectedTracks) s m))
    as [result|] eqn:Ho; [|destruct H1].
  exists result. split; [reflexivity|]. split; [exact H1|]. split.
  - apply sublist_length in H1. now rewrite !length_map in H1.
  - intros Hw Hids. specialize (H2 Hw Hids s m). now rewrite Ho in H2.
Qed.

Lemma fetchFeatures_keeps_tracks_witness :
  exists tracksWithFeatures,
    outcome (run featuresWorld
                 (fetchFeatures "token" [sampleTrack "a" 10 None; sampleTrack "b" 90 None])
                 0 ∅)
    = Returned tracksWithFeatures
    /\ map withoutFeatures tracksWithFeatures
       = [sampleTrack "a" 10 None; sampleTrack "b" 90 None].
Proof.
  destruct (fetchFeatures_keeps_tracks featuresWorld "token"
              [sampleTrack "a" 10 None; sampleTrack "b" 90 None] 0 ∅)
    as (result & Ho & _ & _ & Hall).
  exists result. split; [exact Ho|]. apply Hall.
  - intros accessToken trackIds x (s & m & <-). now eexists.
  - repeat constructor; discriminate.
Defined.

(** ** The sizes of the playlists *)

Lemma recordSizes_from (summaries : list PlaylistSummary) (start : gmap string N)
    (playlistId : string) (n : N) :
  fold_left
    (fun playlistSizes playlist =>
       match summary_total playlist with
       | Some total =>
           if (negb (String.eqb (summary_id playlist) "") && negb (total =? 0)%N)%bool
           then <[summary_id playlist := total]> playlistSizes
           else playlistSizes
       | None => playlistSizes
       end)
    summaries start !! playlistId = Some n ->
  start !! playlistId = Some n
  \/ (playlistId <> "" /\ n <> 0%N
      /\ exists playlist, playlist ∈ summaries
                          /\ summary_id playlist = playlistId
                          /\ summary_total playlist = Some n).
Proof.
  revert start. induction summaries as [|p rest IH]; intros start H; simpl in H.
  - now left.
  - apply IH in H as [H | (Hid & Hn & q & Hq & Hqid & Hqn)].
    + destruct (summary_total p) as [total|] eqn:Et; [|now left].
      destruct (String.eqb (summary_id p) "") eqn:Eid; simpl in H; [now left|].
      destruct (total =? 0)%N eqn:E0; simpl in H; [now left|].
      destruct (decide (summary_id p = playlistId)) as [Heq|Hne].
      * rewrite Heq, lookup_insert_eq in H. injection H as <-.
        right. apply String.eqb_neq in Eid. apply N.eqb_neq in E0.
        split; [congruence|]. split; [exact E0|].
        exists p. split; [apply list_elem_of_here | now split].
      * rewrite lookup_insert_ne in H by exact Hne. now left.
    + right. split; [exact Hid|]. split; [exact Hn|].
      exists q. split; [now apply list_elem_of_further | now split].
Qed.

Lemma recordSizes_lookup (summaries : list PlaylistSummary) (playlistId : string) (n : N) :
  recordSizes summaries !! playlistId = Some n ->
  playlistId <> "" /\ n <> 0%N
  /\ exists playlist, playlist ∈ summaries
                      /\ summary_id playlist = playlistId
                      /\ summary_total playlist = Some n.
Proof.
  intros H. apply recordSizes_from in H as [H|H]; [|exact H].
  now rewrite lookup_empty in H.
Qed.

(** X14. Reading the sizes of the user's playlists never throws.  Without a
    selected playlist no request is made; when the request fails in any way
    the sizes are empty; and every size recorded is the total, not zero, that
    the catalogue reports for a playlist with that id, which is not empty. *)
Theorem fetchPlaylistSizes_sizes {S : Type} (w : World S) (accessToken : string)
    (sources : PlaylistSources) (s : S) (m : gmap string ProgressEntry) :
  let r := run w (fetchPlaylistSizes accessToken sources) s m in
  exists playlistSizes,
    outcome r = Returned playlistSizes
    /\ match playlists sources with
       | [] => playlistSizes = ∅ /\ trace r = []
       | _ :: _ =>
           match (w _ (FetchMyPlaylists accessToken) s).1 with
           | RespOk (Some items) =>
               playlistSizes = recordSizes items
               /\ forall playlistId n,
                    playlistSizes !! playlistId = Some n ->
                    playlistId <> "" /\ n <> 0%N
                    /\ exists playlist, playlist ∈ items
                                        /\ summary_id playlist = playlistId
                                        /\ summary_total playlist = Some n
           | _ => playlistSizes = ∅
           end
       end.
Proof.
  cbv zeta. unfold fetchPlaylistSizes.
  destruct (playlists sources) as [|pid ids].
  { exists ∅. now repeat split. }
  change (call (FetchMyPlaylists accessToken) ≫= ?f)
    with (Vis (FetchMyPlaylists accessToken) f).
  cbn [tryCatch]. rewrite run_Vis. cbv zeta. unfold step.
  destruct (w _ (FetchMyPlaylists accessToken) s) as [answer s'].
  cbn [fst snd outcome].
  destruct answer as [message | [items|] | status statusText errorData].
  - cbn [tryCatch mbind Prog_bind bind call]. rewrite run_Vis. now eexists.
  - eexists. split; [reflexivity|]. split; [reflexivity|]. apply recordSizes_lookup.
  - cbn [tryCatch mbind Prog_bind bind call]. rewrite run_Vis. now eexists.
  - now eexists.
Qed.

(** ** Bounds on the estimate *)

Lemma tracksToProcess_capped mode sizes pid :
  mode <> complete ->
  tracksToProcess (PROCESSING_CONFIGS mode) sizes pid
  <= maxTracksPerPlaylist (PROCESSING_CONFIGS mode).
Proof.
  intros Hmode. unfold tracksToProcess. cbv zeta.
  destruct mode; simpl; try lia. congruence.
Qed.

Lemma totalEstimatedTracks_capped mode sizes ids :
  mode <> complete ->
  totalEstimatedTracks (PROCESSING_CONFIGS mode) sizes ids
  <= Z.of_nat (length ids) * maxTracksPerPlaylist (PROCESSING_CONFIGS mode).
Proof.
  intros Hmode. induction ids as [|pid ids IH].
  - unfold totalEstimatedTracks. simpl. lia.
  - rewrite totalEstimatedTracks_cons.
    pose proof (tracksToProcess_capped mode sizes pid Hmode).
    cbn [length]. lia.
Qed.

Lemma flagCost_bounds (b : bool) (c : Q) :
  (0 <= c)%Q -> (0 <= (if b then c else 0) /\ (if b then c else 0) <= c)%Q.
Proof. intros Hc. destruct b; split; lra. Qed.



(** ** formatTime *)

Lemma pretty_N_go_NoSpace (x : N) (s : string) :
  NoSpace s -> NoSpace (pretty_N_go x s).
Proof.
  revert s. induction (N.lt_wf_0 x) as [x _ IH]. intros s Hs.
  assert (Hx : (x = 0 \/ 0 < x)%N) by lia. destruct Hx as [-> | Hx].
  - now rewrite pretty_N_go_0.
  - rewrite pretty_N_go_step by exact Hx. apply IH; [now apply N.div_lt|].
    split; [|exact Hs]. unfold pretty_N_char.
    repeat match goal with |- context [match ?y with _ => _ end] => destruct y end;
      discriminate.
Qed.

Lemma pretty_Z_NoSpace (n : Z) : 0 <= n -> NoSpace (pretty n).
Proof.
  intros Hn. destruct n as [|p|p]; [now split | | lia].
  change (pretty (Z.pos p)) with (pretty (N.pos p)).
  unfold pretty, pretty_N. destruct (decide (N.pos p = 0%N)); [now split|].
  now apply pretty_N_go_NoSpace.
Qed.

(** A text that starts with a number and a space is read back in one way. *)
Lemma number_then_space (d1 d2 r1 r2 : string) :
  NoSpace d1 -> NoSpace d2 ->
  d1 +:+ String " " r1 = d2 +:+ String " " r2 -> d1 = d2 /\ r1 = r2.
Proof.
  revert d2. induction d1 as [|c d1 IH]; intros [|c2 d2] H1 H2 H; simpl in *.
  - now injection H.
  - injection H as Hc _. destruct H2 as [H2 _]. congruence.
  - injection H as Hc _. destruct H1 as [H1 _]. congruence.
  - injection H as -> H. destruct H1 as [_ H1], H2 as [_ H2].
    destruct (IH d2 H1 H2 H) as [-> ->]. now split.
Qed.

Lemma minutes_of_hours (seconds : Z) :
  0 <= seconds ->
  seconds / 60 = 60 * (seconds / 3600) + Z.rem seconds 3600 / 60.
Proof.
  intros H. rewrite Z.rem_mod_nonneg by lia.
  pose proof (Z.div_mod seconds 3600 ltac:(lia)) as Hdm.
  pose proof (Z.mod_pos_bound seconds 3600 ltac:(lia)) as Hb.
  rewrite Hdm at 1.
  replace (3600 * (seconds / 3600) + seconds mod 3600)
    with (60 * (seconds / 3600) * 60 + seconds mod 3600) by lia.
  rewrite Z.div_add_l by lia. reflexivity.
Qed.

Lemma hours_of_minutes (seconds : Z) :
  0 <= seconds ->
  seconds / 3600 = seconds / 60 / 60
  /\ Z.rem seconds 3600 / 60 = (seconds / 60) mod 60.
Proof.
  intros H. rewrite Z.rem_mod_nonneg by lia.
  assert (H1 : seconds / 3600 = seconds / 60 / 60).
  { now rewrite Z.div_div by lia. }
  split; [exact H1|].
  pose proof (minutes_of_hours seconds H) as Hm.
  rewrite Z.rem_mod_nonneg in Hm by lia.
  pose proof (Z.div_mod (seconds / 60) 60 ltac:(lia)) as Hdm.
  assert (Hb : 0 <= seconds mod 3600 / 60 < 60).
  { pose proof (Z.mod_pos_bound seconds 3600 ltac:(lia)).
    split; [apply Z.div_pos; lia | apply Z.div_lt_upper_bound; lia]. }
  pose proof (Z.mod_pos_bound (seconds / 60) 60 ltac:(lia)). lia.
Qed.

(** The text starts with a number and a space; what follows starts with the
    unit and tells the three cases apart. *)
Lemma formatTime_parts (seconds : Z) :
  0 <= seconds ->
  exists n rest,
    formatTime seconds = pretty n +:+ String " " rest /\ NoSpace (pretty n)
    /\ ((seconds < 60 /\ n = seconds /\ rest = "seconds")
        \/ (60 <= seconds < 3600 /\ n = seconds / 60
            /\ rest = "minute" +:+ (if negb (n =? 1) then "s" else "")
                      +:+ " " +:+ pretty (Z.rem seconds 60) +:+ " second"
                      +:+ (if negb (Z.rem seconds 60 =? 1) then "s" else ""))
        \/ (3600 <= seconds /\ n = seconds / 3600
            /\ rest = "hour" +:+ (if negb (n =? 1) then "s" else "")
                      +:+ " " +:+ pretty (Z.rem seconds 3600 / 60) +:+ " minute"
                      +:+ (if negb (Z.rem seconds 3600 / 60 =? 1) then "s" else ""))).
Proof.
  intros H. unfold formatTime. cbv zeta.
  destruct (Z.ltb_spec seconds 60) as [A|A]; [|destruct (Z.ltb_spec seconds 3600) as [B|B]].
  - exists seconds, "seconds". split; [reflexivity|].
    split; [now apply pretty_Z_NoSpace|]. left. now repeat split.
  - eexists (seconds / 60), _. split; [reflexivity|].
    split; [apply pretty_Z_NoSpace, Z.div_pos; lia|].
    right. left. split; [lia|]. split; reflexivity.
  - eexists (seconds / 3600), _. split; [reflexivity|].
    split; [apply pretty_Z_NoSpace, Z.div_pos; lia|].
    right. right. split; [lia|]. split; reflexivity.
Qed.

(** X16. formatTime tells two durations apart below an hour, and from an
    hour on exactly when they differ in their whole minutes: for whole
    numbers of seconds that are not negative, two durations get the same
    text if and only if they are equal, or both are at least an hour and
    have the same number of whole minutes. *)
Theorem formatTime_same_text (seconds1 seconds2 : Z) :
  0 <= seconds1 -> 0 <= seconds2 ->
  formatTime seconds1 = formatTime seconds2
  <-> seconds1 = seconds2
      \/ (3600 <= seconds1 /\ 3600 <= seconds2 /\ seconds1 / 60 = seconds2 / 60).
Proof.
  intros H1 H2. split.
  - intros H.
    destruct (formatTime_parts seconds1 H1) as (n1 & rest1 & E1 & S1 & C1).
    destruct (formatTime_parts seconds2 H2) as (n2 & rest2 & E2 & S2 & C2).
    rewrite E1, E2 in H.
    apply number_then_space in H as [Hn Hrest]; [|exact S1 | exact S2].
    apply (inj pretty) in Hn. subst n2.
    destruct C1 as [(A1 & N1 & R1) | [(A1 & N1 & R1) | (A1 & N1 & R1)]];
      destruct C2 as [(A2 & N2 & R2) | [(A2 & N2 & R2) | (A2 & N2 & R2)]];
      rewrite R1, R2 in Hrest; try (simpl in Hrest; discriminate Hrest).
    + left. congruence.
    + apply (inj (String.append _)) in Hrest.
      apply (inj (String.append _)) in Hrest.
      simpl in Hrest. injection Hrest as Hrest.
      apply number_then_space in Hrest as [Hr _];
        [|apply pretty_Z_NoSpace, Z.rem_nonneg; lia
         |apply pretty_Z_NoSpace, Z.rem_nonneg; lia].
      apply (inj pretty) in Hr. left.
      rewrite !Z.rem_mod_nonneg in Hr by lia.
      rewrite (Z.div_mod seconds1 60), (Z.div_mod seconds2 60) by lia. lia.
    + apply (inj (String.append _)) in Hrest.
      apply (inj (String.append _)) in Hrest.
      simpl in Hrest. injection Hrest as Hrest.
      apply number_then_space in Hrest as [Hm _];
        [|apply pretty_Z_NoSpace, Z.div_pos; [apply Z.rem_nonneg|]; lia
         |apply pretty_Z_NoSpace, Z.div_pos; [apply Z.rem_nonneg|]; lia].
      apply (inj pretty) in Hm. right. split; [exact A1|]. split; [exact A2|].
      rewrite (minutes_of_hours seconds1), (minutes_of_hours seconds2) by lia. lia.
  - intros [-> | (B1 & B2 & Hm)]; [reflexivity|].
    unfold formatTime. cbv zeta.
    assert (A1 : (seconds1 <? 60) = false) by (apply Z.ltb_ge; lia).
    assert (A2 : (seconds2 <? 60) = false) by (apply Z.ltb_ge; lia).
    apply Z.ltb_ge in B1 as C1. apply Z.ltb_ge in B2 as C2.
    rewrite A1, A2, C1, C2.
    destruct (hours_of_minutes seconds1 H1) as [-> ->].
    destruct (hours_of_minutes seconds2 H2) as [-> ->].
    now rewrite Hm.
Qed.

Lemma formatTime_same_text_witness :
  formatTime 3725 = formatTime 3779 /\ formatTime 125 <> formatTime 126.
Proof.
  split.
  - apply (formatTime_same_text 3725 3779); [lia | lia | right; repeat split; lia].
  - intros H. apply (formatTime_same_text 125 126) in H; lia.
Defined.

Example formatTime_sample :
  formatTime 45 = "45 seconds" /\ formatTime 61 = "1 minute 1 second"
  /\ formatTime 125 = "2 minutes 5 seconds" /\ formatTime 3725 = "1 hour 2 minutes"
  /\ formatTime 1 = "1 seconds".
Proof. repeat split. Qed.

(** * Part IV: the helpers, the middleware and the estimate route *)

(** ** Performing tasks *)

Lemma perform_Ask {S A X} (w : Server S) (r : Request X) (k : X -> Task A) s :
  perform w (Ask r k) s
  = let rest := perform w (k (w _ r s).1) (w _ r s).2 in
    {| result := result rest; server := server rest;
       requests := sent r :: requests rest |}.
Proof. simpl. now destruct (w _ r s). Qed.

Lemma perform_andThen {S A B} (w : Server S) (p : Task A) (f : A -> Task B) s :
  perform w (andThen p f) s
  = match result (perform w p s) with
    | Returned a =>
        let rest := perform w (f a) (server (perform w p s)) in
        {| result := result rest; server := server rest;
           requests := requests (perform w p s) ++ requests rest |}
    | Thrown error =>
        {| result := Thrown error; server := server (perform w p s);
           requests := requests (perform w p s) |}
    end.
Proof.
  revert s. induction p as [a|error|X r k IH]; intros s.
  - simpl. now destruct (perform w (f a) s).
  - reflexivity.
  - change (andThen (Ask r k) f) with (Ask r (fun x => andThen (k x) f)).
    rewrite !perform_Ask. cbv zeta. rewrite IH.
    now destruct (result (perform w (k _) _)).
Qed.

Lemma perform_attempt {S A} (w : Server S) (p : Task A) handler s :
  perform w (attempt p handler) s
  = match result (perform w p s) with
    | Returned a => perform w p s
    | Thrown error =>
        let rest := perform w (handler error) (server (perform w p s)) in
        {| result := result rest; server := server rest;
           requests := requests (perform w p s) ++ requests rest |}
    end.
Proof.
  revert s. induction p as [a|error|X r k IH]; intros s.
  - reflexivity.
  - simpl. now destruct (perform w (handler error) s).
  - change (attempt (Ask r k) handler) with (Ask r (fun x => attempt (k x) handler)).
    rewrite !perform_Ask. cbv zeta. rewrite IH.
    destruct (result (perform w (k _) _)) eqn:E; simpl; rewrite ?E; reflexivity.
Qed.

Lemma NeverFails_returns {S A} (w : Server S) (p : Task A) s :
  NeverFails p -> exists a, result (perform w p s) = Returned a.
Proof.
  intros H. revert s. induction H as [a|X r k _ IH]; intros s.
  - now exists a.
  - rewrite perform_Ask. apply IH.
Qed.

Lemma NeverFails_andThen {A B} (p : Task A) (f : A -> Task B) :
  NeverFails p -> (forall a, NeverFails (f a)) -> NeverFails (p ≫= f).
Proof.
  intros Hp Hf. induction Hp as [a|X r k _ IH]; [apply Hf|].
  constructor. exact IH.
Qed.

Lemma NeverFails_attempt {A} (p : Task A) handler :
  (forall error, NeverFails (handler error)) -> NeverFails (attempt p handler).
Proof.
  intros Hh. induction p as [a|error|X r k IH]; simpl.
  - constructor.
  - apply Hh.
  - constructor. exact IH.
Qed.

Lemma NeverFails_ask {X} (r : Request X) : NeverFails (ask r).
Proof. constructor. intros x. constructor. Qed.

Lemma NeverFails_mret {A} (a : A) : NeverFails (mret a).
Proof. constructor. Qed.

Ltac harmless_step :=
  first
    [ apply NeverFails_mret
    | apply NeverFails_Done
    | apply NeverFails_ask
    | apply NeverFails_attempt; intros ?
    | apply NeverFails_andThen; [|intros ?]
    | apply NeverFails_Ask; intros ?
    | match goal with
      | |- NeverFails (match ?x with _ => _ end) => destruct x
      | |- NeverFails (if ?x then _ else _) => destruct x
      | |- NeverFails (let _ := _ in _) => cbv zeta
      end ].

Ltac harmless := repeat harmless_step.

(** ** The cache of the genre seeds *)

Lemma getAvailableGenreSeeds_hit {S} (w : Server S) accessToken cache s :
  genreSeedsCache cache <> [] ->
  (w _ DateNow s).1 - genreSeedsCacheTime cache < 24 * 60 * 60 * 1000 ->
  perform w (getAvailableGenreSeeds accessToken cache) s
  = {| result := Returned (genreSeedsCache cache, cache);
       server := (w _ DateNow s).2;
       requests := [sent DateNow] |}.
Proof.
  intros Hne Hfresh. unfold getAvailableGenreSeeds. cbv zeta.
  destruct (genreSeedsCache cache) as [|g gs] eqn:E; [congruence|].
  change (ask DateNow ≫= ?f) with (Ask DateNow f).
  cbn [mbind Task_bind andThen]. rewrite perform_Ask. cbv zeta.
  apply Z.ltb_lt in Hfresh. cbn [mret Task_ret andThen]. rewrite Hfresh.
  reflexivity.
Qed.


Example getAvailableGenreSeeds_twice :
  let first := perform sampleServer
                 (getAvailableGenreSeeds "token" emptyGenreSeedsCache) 0 in
  exists cache',
    result first = Returned (["rock"; "pop"], cache')
    /\ requests first = [sent (FetchGenreSeeds "token"); sent DateNow]
    /\ requests (perform sampleServer (getAvailableGenreSeeds "token" cache')
                   (server first))
       = [sent DateNow]
    /\ result (perform sampleServer (getAvailableGenreSeeds "token" cache')
                 (server first))
       = Returned (["rock"; "pop"], cache').
Proof. eexists. repeat split. Qed.

(** ** The seeds of a recommendation request *)

(** A list by its first five elements. *)
Ltac upto5 l :=
  destruct l as [|? [|? [|? [|? [|? l]]]]].

Ltac seed_prefix :=
  first [ left; repeat apply prefix_cons; apply prefix_nil
        | right; now repeat split
        | repeat apply prefix_cons; apply prefix_nil ].

(** X18. The seeds getRecommendations sends are at least one and at most
    five in all, the limit of the catalogue; the tracks and the artists
    chosen are the first of those given, and so are the genres, except that
    the genre pop alone is sent when nothing is given; up to two tracks and
    one artist are always taken when given. *)
Theorem chooseSeeds_seeds (seedGenres seedTracks seedArtists : list string) :
  let seeds := chooseSeeds seedGenres seedTracks seedArtists in
  let total := (length (seed_genres seeds) + length (seed_tracks seeds)
                + length (seed_artists seeds))%nat in
  (1 <= total <= 5)%nat
  /\ seed_tracks seeds `prefix_of` seedTracks
  /\ seed_artists seeds `prefix_of` seedArtists
  /\ (seed_genres seeds `prefix_of` seedGenres
      \/ (seed_genres seeds = ["pop"]
          /\ seedGenres = [] /\ seedTracks = [] /\ seedArtists = []))
  /\ (Nat.min 2 (length seedTracks) <= length (seed_tracks seeds))%nat
  /\ (Nat.min 1 (length seedArtists) <= length (seed_artists seeds))%nat.
Proof.
  cbv zeta.
  upto5 seedTracks; upto5 seedArtists; upto5 seedGenres;
    cbn;
    refine (conj _ (conj _ (conj _ (conj _ (conj _ _)))));
    rewrite ?take_0;
    first [ lia | seed_prefix | cbn; lia ].
Qed.

Example chooseSeeds_samples :
  chooseSeeds ["rock"; "pop"; "jazz"] ["t1"; "t2"; "t3"] ["a1"; "a2"]
  = {| seed_genres := ["rock"; "pop"]; seed_tracks := ["t1"; "t2"];
       seed_artists := ["a1"] |}
  /\ chooseSeeds [] ["t1"; "t2"; "t3"; "t4"] ["a1"; "a2"; "a3"; "a4"]
     = {| seed_genres := []; seed_tracks := ["t1"; "t2"];
          seed_artists := ["a1"; "a2"; "a3"] |}
  /\ chooseSeeds [] [] []
     = {| seed_genres := ["pop"]; seed_tracks := []; seed_artists := [] |}.
Proof. repeat split. Qed.

(** ** The recommendation request *)

Lemma range_bracket (range : Q * Q) :
  OrderedUnitRange range ->
  (0 <= Qmax 0 (fst range * (8 # 10))
   /\ Qmax 0 (fst range * (8 # 10)) <= midpoint range
   /\ midpoint range <= Qmin 1 (snd range * (12 # 10))
   /\ Qmin 1 (snd range * (12 # 10)) <= 1)%Q.
Proof.
  unfold OrderedUnitRange, midpoint. intros (H0 & Hle & H1).
  unfold Qdiv. change (/ 2)%Q with (1 # 2)%Q.
  split; [apply Q.le_max_l|]. split; [apply Q.max_lub; lra|].
  split; [apply Q.min_glb; lra | apply Q.le_min_l].
Qed.


Example recommendationQuery_sample :
  map fst (recommendationQuery (chooseSeeds ["rock"] [] []) sampleAnalysis 50)
  = ["seed_genres"; "limit"; "target_energy"; "target_danceability";
     "target_acousticness"; "target_instrumentalness"; "target_valence";
     "min_energy"; "min_danceability"; "min_acousticness"; "min_instrumentalness";
     "min_valence"; "max_energy"; "max_danceability"; "max_acousticness";
     "max_instrumentalness"; "max_valence"; "min_tempo"; "max_tempo"].
Proof. reflexivity. Qed.


(** ** Listings *)


Lemma fetchAllPagesLoop_listing {St : Type} (w : Server St) (e : Endpoint)
    (accessToken : string) (s : St) (nextUrl : option string)
    (items : list (itemOf e)) (rounds : nat) :
  Listing w e accessToken s nextUrl items rounds ->
  forall (fuel : nat) (results : list (itemOf e)),
    (rounds <= fuel)%nat ->
    result (perform w (fetchAllPagesLoop e accessToken fuel nextUrl results) s)
    = Returned (Some (results ++ items)).
Proof.
  induction 1 as [s nextUrl Hend
                 | s nextUrl url data s' items rounds Hurl Hpage _ IH
                 | s nextUrl url Hurl Hunread];
    intros fuel results Hfuel.
  - rewrite app_nil_r. destruct fuel; simpl; now rewrite Hend.
  - destruct fuel as [|fuel]; [lia|]. simpl. rewrite Hurl.
    change (ask (FetchPage ?e ?u ?t) ≫= ?f) with (Ask (FetchPage e u t) f).
    cbn [attempt mbind Task_bind andThen]. rewrite perform_Ask. rewrite Hpage.
    cbn [fst snd attempt mbind Task_bind andThen mret Task_ret result].
    rewrite app_assoc.
    replace (results ++ default [] (page_items data))
      with (match page_items data with
            | Some items0 => results ++ items0
            | None => results
            end)
      by (destruct (page_items data); simpl; now rewrite ?app_nil_r).
    apply IH. lia.
  - destruct fuel as [|fuel]; [lia|]. simpl. rewrite Hurl.
    change (ask (FetchPage ?e ?u ?t) ≫= ?f) with (Ask (FetchPage e u t) f).
    cbn [attempt mbind Task_bind andThen]. rewrite perform_Ask.
    destruct (w _ (FetchPage e url accessToken) s) as [response s'].
    cbn [fst snd] in *. rewrite app_nil_r.
    destruct response as [message | [data|] | status statusText errorData];
      [| now destruct (Hunread data) | |];
      cbn [attempt mbind Task_bind andThen ask mret Task_ret];
      rewrite ?perform_Ask; reflexivity.
Qed.

Lemma fetchAllPagesLoop_harmless (e : Endpoint) (accessToken : string) (fuel : nat) :
  forall (nextUrl : option string) (results : list (itemOf e)),
    NeverFails (fetchAllPagesLoop e accessToken fuel nextUrl results).
Proof.
  induction fuel as [|fuel IH]; intros nextUrl results; cbn [fetchAllPagesLoop].
  - destruct (truthy nextUrl); constructor.
  - destruct (truthy nextUrl) as [url|]; [|constructor].
    apply NeverFails_andThen.
    + apply NeverFails_attempt. intros error. harmless.
    + intros [|results' nextUrl']; [constructor | apply IH].
Qed.

(** X21. fetchAllPages never throws.  It follows the next addresses from
    the first one, and returns the items of the pages in their order: all of
    them when the listing ends at a missing or empty next address, and those
    gathered before the first page that cannot be read otherwise.  (The loop
    of the source is run for at most [fuel] rounds; a listing of [rounds]
    pages is read in full whenever [rounds <= fuel].) *)
Theorem fetchAllPagesOf_listing {St : Type} (w : Server St) (e : Endpoint)
    (accessToken initialUrl : string) (s : St) (items : list (itemOf e))
    (rounds fuel : nat) :
  Listing w e accessToken s (Some initialUrl) items rounds ->
  (rounds <= fuel)%nat ->
  result (perform w (fetchAllPagesOf e accessToken initialUrl fuel) s)
  = Returned (Some items)
  /\ forall fuel', NeverFails (fetchAllPagesOf e accessToken initialUrl fuel').
Proof.
  intros Hlisting Hfuel. split.
  - unfold fetchAllPagesOf.
    now rewrite (fetchAllPagesLoop_listing w e accessToken s _ items rounds Hlisting).
  - intros fuel'. apply fetchAllPagesLoop_harmless.
Qed.

Lemma fetchAllPagesOf_listing_witness :
  result (perform sampleServer
            (fetchAllPagesOf SavedTracks "token"
               "https://api.spotify.com/v1/me/tracks?limit=50" 2) 0)
  = Returned (Some [sampleTrack "a" 10 None; sampleTrack "b" 90 None;
                    sampleTrack "c" 5 None]).
Proof.
  apply (fetchAllPagesOf_listing sampleServer SavedTracks "token"
           "https://api.spotify.com/v1/me/tracks?limit=50" 0 _ 2 2); [|lia].
  apply (Listing_page sampleServer SavedTracks "token" 0
           (Some "https://api.spotify.com/v1/me/tracks?limit=50")
           "https://api.spotify.com/v1/me/tracks?limit=50"
           {| page_items := Some [sampleTrack "a" 10 None; sampleTrack "b" 90 None];
              page_next := Some "page2" |}
           0 [sampleTrack "c" 5 None] 1); [reflexivity | reflexivity |].
  apply (Listing_page sampleServer SavedTracks "token" 0 (Some "page2") "page2"
           {| page_items := Some [sampleTrack "c" 5 None]; page_next := None |}
           0 [] 0); [reflexivity | reflexivity |].
  now apply Listing_end.
Defined.

Example fetchAllPagesOf_unread :
  result (perform sampleServer (fetchAllPagesOf SavedTracks "token" "elsewhere" 5) 0)
  = Returned (Some [])
  /\ result (perform sampleServer
               (fetchAllPagesOf SavedTracks "token"
                  "https://api.spotify.com/v1/me/tracks?limit=50" 1) 0)
     = Returned None.
Proof. split; reflexivity. Qed.

(** ** The middleware *)

Lemma substring_all (s : string) : String.substring 0 (String.length s) s = s.
Proof. induction s as [|c s IH]; simpl; [reflexivity | now rewrite IH]. Qed.

Lemma bearerToken_spec (header token : string) :
  bearerToken (Some header) = Some token <-> header = "Bearer " +:+ token.
Proof.
  unfold bearerToken. split.
  - destruct (startsWith header "Bearer ") eqn:E; [|discriminate].
    do 7 (destruct header as [|? header]; [discriminate|];
          cbn [startsWith] in E; apply andb_prop in E as [Ec E];
          apply Ascii.eqb_eq in Ec; subst).
    intros [= <-]. cbn [String.length String.substring String.append].
    rewrite Nat.sub_0_r. now rewrite substring_all.
  - intros ->. simpl. change ("" +:+ token) with token.
    destruct token; simpl; [reflexivity|]. now rewrite substring_all.
Qed.

Lemma setupSpotifyClient_session {S : Type} (w : Server S) (req : AuthRequest) (s : S) :
  bearerToken (auth_header req) = None ->
  perform w (setupSpotifyClient req) s
  = {| result :=
         Returned
           match auth_session req with
           | Some userAccessToken => Next userAccessToken None
           | None =>
               Answered
                 {| status := 401;
                    body := MessageBody "Authentication required for AI operations" |}
           end;
       server := s; requests := [] |}.
Proof.
  intros Hb. unfold setupSpotifyClient. rewrite Hb.
  now destruct (auth_session req).
Qed.

Lemma setupSpotifyClient_bearer {S : Type} (w : Server S) (req : AuthRequest) (s : S)
    (token : string) :
  bearerToken (auth_header req) = Some token ->
  result (perform w (setupSpotifyClient req) s)
  = Returned
      match (w _ (FetchProfile token) s).1 with
      | RespOk (Some userId) => Next (Some token) userId
      | _ => Answered invalidToken
      end.
Proof.
  intros Hb. unfold setupSpotifyClient. rewrite Hb.
  change (ask (FetchProfile ?t) ≫= ?f) with (Ask (FetchProfile t) f).
  cbn [attempt]. rewrite perform_Ask. cbv zeta.
  destruct (w _ (FetchProfile token) s) as [response s']. cbn [fst snd].
  destruct response as [message | [userId|] | status statusText errorData];
    cbn [attempt mbind Task_bind andThen ask mret Task_ret];
    rewrite ?perform_Ask; reflexivity.
Qed.

(** X22. The middleware never throws.  It lets a request pass only in two
    ways: with a header [Bearer <token>] whose token the profile request
    accepted, and then the request carries this token and the id of the
    profile; or without such a header, by its session, and then it carries
    the token of the session and no user id, and no request was sent.  A
    bearer token that is not accepted is answered 401 whatever the session;
    without a bearer header and without a session the answer is 401 and no
    request is sent. *)
Theorem setupSpotifyClient_passes {S : Type} (w : Server S) (req : AuthRequest) (s : S) :
  let r := perform w (setupSpotifyClient req) s in
  exists passed,
    result r = Returned passed
    /\ (forall accessToken userId,
          passed = Next accessToken userId ->
          (exists token,
              auth_header req = Some ("Bearer " +:+ token)
              /\ accessToken = Some token
              /\ (w _ (FetchProfile token) s).1 = RespOk (Some userId))
          \/ (bearerToken (auth_header req) = None
              /\ auth_session req = Some accessToken
              /\ userId = None
              /\ requests r = []))
    /\ (forall token,
          auth_header req = Some ("Bearer " +:+ token) ->
          (forall userId, (w _ (FetchProfile token) s).1 <> RespOk (Some userId)) ->
          passed = Answered invalidToken)
    /\ (bearerToken (auth_header req) = None ->
        auth_session req = None ->
        requests r = []
        /\ passed = Answered
                      {| status := 401;
                         body := MessageBody
                                   "Authentication required for AI operations" |}).
Proof.
  cbv zeta. destruct (bearerToken (auth_header req)) as [token|] eqn:Hb.
  - rewrite (setupSpotifyClient_bearer w req s token Hb).
    eexists. split; [reflexivity|].
    assert (Hh : auth_header req = Some ("Bearer " +:+ token)).
    { destruct (auth_header req) as [header|]; [|discriminate].
      f_equal. now apply bearerToken_spec. }
    split; [|split].
    + intros accessToken userId Hp. left. exists token.
      split; [exact Hh|].
      destruct (w _ (FetchProfile token) s).1 as [? | [?|] | ? ? ?];
        try discriminate.
      injection Hp as <- <-. now split.
    + intros token' Hh' Hno.
      assert (token' = token) as ->.
      { rewrite Hh' in Hb. apply bearerToken_spec in Hb.
        now apply (inj (String.append "Bearer ")) in Hb. }
      destruct (w _ (FetchProfile token) s).1 as [? | [userId|] | ? ? ?];
        try reflexivity.
      now destruct (Hno userId).
    + discriminate.
  - rewrite (setupSpotifyClient_session w req s Hb). cbn [result requests].
    eexists. split; [reflexivity|]. split; [|split].
    + intros accessToken userId Hp. right.
      destruct (auth_session req) as [token|]; [|discriminate].
      injection Hp as <- <-. now repeat split.
    + intros token Hh _. rewrite Hh in Hb.
      assert (bearerToken (Some ("Bearer " +:+ token)) = Some token) as Hs
        by now apply bearerToken_spec.
      congruence.
    + intros _ ->. now split.
Qed.

Example setupSpotifyClient_samples :
  result (perform sampleServer
            (setupSpotifyClient {| auth_header := Some "Bearer token";
                                   auth_session := None |}) 0)
  = Returned (Next (Some "token") (Some "user"))
  /\ result (perform sampleServer
               (setupSpotifyClient {| auth_header := Some "Bearer stale";
                                      auth_session := Some (Some "token") |}) 0)
     = Returned (Answered invalidToken)
  /\ result (perform sampleServer
               (setupSpotifyClient {| auth_header := Some "bearer token";
                                      auth_session := Some (Some "token") |}) 0)
     = Returned (Next (Some "token") None).
Proof. repeat split; reflexivity. Qed.

(** X23. A request that the middleware lets pass by its session, without a
    bearer header, carries no user id; the generate-playlist route answers
    it 401, or 400 when it has no prompt, makes no call to the outside and
    leaves the progress map as it is. *)
Theorem session_request_refused (JSON_parse : string -> option LLMAnalysis)
    {S St : Type} (site : Server S) (w : World St) (auth : AuthRequest)
    (req request : GenerateRequest) (passed : Passed) (s : S) (s' : St)
    (m : gmap string ProgressEntry) :
  bearerToken (auth_header auth) = None ->
  result (perform site (setupSpotifyClient auth) s) = Returned passed ->
  authenticated passed req = Some request ->
  req_userId request = None
  /\ exists response,
       run w (generatePlaylist JSON_parse request) s' m
       = {| outcome := Returned response; world := s'; store := m; trace := [] |}
       /\ (status response = 400 \/ status response = 401).
Proof.
  intros Hb Hp Ha. rewrite (setupSpotifyClient_session site auth s Hb) in Hp.
  cbn [result] in Hp. injection Hp as <-.
  destruct (auth_session auth) as [token|]; [|discriminate].
  injection Ha as <-. split; [reflexivity|].
  unfold generatePlaylist. cbv zeta. cbn [req_prompt req_accessToken req_userId].
  destruct (truthy (req_prompt req)).
  - destruct (truthy token); eexists; (split; [reflexivity|]); now right.
  - eexists. split; [reflexivity|]. now left.
Qed.

Lemma session_request_refused_witness :
  exists response,
    run (sampleWorld true (RespOk (Some tt)))
        (generatePlaylist sampleParse
           {| req_prompt := Some "jazz"; req_name := None;
              req_description := None; req_sources := None;
              req_processingMode := None; req_targetTrackCount := None;
              req_accessToken := Some "token"; req_userId := None |}) 0 ∅
    = {| outcome := Returned response; world := 0; store := ∅; trace := [] |}
    /\ (status response = 400 \/ status response = 401).
Proof.
  apply (session_request_refused sampleParse sampleServer
           (sampleWorld true (RespOk (Some tt)))
           {| auth_header := None; auth_session := Some (Some "token") |}
           {| req_prompt := Some "jazz"; req_name := None;
              req_description := None; req_sources := None;
              req_processingMode := None; req_targetTrackCount := None;
              req_accessToken := None; req_userId := None |}
           _ (Next (Some "token") None) 0 0 ∅);
    reflexivity.
Defined.

(** ** The estimate across the modes *)

Lemma tracksToProcess_modes sizes pid :
  tracksToProcess (PROCESSING_CONFIGS quick) sizes pid
  <= tracksToProcess (PROCESSING_CONFIGS standard) sizes pid
  /\ tracksToProcess (PROCESSING_CONFIGS standard) sizes pid
     <= tracksToProcess (PROCESSING_CONFIGS comprehensive) sizes pid
  /\ tracksToProcess (PROCESSING_CONFIGS comprehensive) sizes pid
     <= tracksToProcess (PROCESSING_CONFIGS complete) sizes pid.
Proof. unfold tracksToProcess. simpl. lia. Qed.

Lemma totalEstimatedTracks_modes sizes ids :
  totalEstimatedTracks (PROCESSING_CONFIGS quick) sizes ids
  <= totalEstimatedTracks (PROCESSING_CONFIGS standard) sizes ids
  /\ totalEstimatedTracks (PROCESSING_CONFIGS standard) sizes ids
     <= totalEstimatedTracks (PROCESSING_CONFIGS comprehensive) sizes ids
  /\ totalEstimatedTracks (PROCESSING_CONFIGS comprehensive) sizes ids
     <= totalEstimatedTracks (PROCESSING_CONFIGS complete) sizes ids.
Proof.
  induction ids as [|pid ids IH]; [unfold totalEstimatedTracks; simpl; lia|].
  rewrite !totalEstimatedTracks_cons.
  pose proof (tracksToProcess_modes sizes pid). lia.
Qed.

Lemma estimatedSecondsRaw_modes sources sizes :
  (estimatedSecondsRaw sources quick sizes
   <= estimatedSecondsRaw sources standard sizes
   /\ estimatedSecondsRaw sources standard sizes
      <= estimatedSecondsRaw sources comprehensive sizes
   /\ estimatedSecondsRaw sources comprehensive sizes
      <= estimatedSecondsRaw sources complete sizes)%Q.
Proof.
  unfold estimatedSecondsRaw. cbv zeta. rewrite !playlistTime_total.
  pose proof (totalEstimatedTracks_modes sizes (playlists sources)) as (H1 & H2 & H3).
  pose proof (totalEstimatedTracks_nonneg quick sizes (playlists sources)) as H0.
  rewrite Zle_Qle in H0, H1, H2, H3.
  change (inject_Z 0) with 0%Q in H0.
  change (perTrack (PROCESSING_CONFIGS quick)) with ((0 + (5 # 100))%Q).
  change (perTrack (PROCESSING_CONFIGS standard)) with ((0 + (5 # 100))%Q).
  change (perTrack (PROCESSING_CONFIGS comprehensive)) with (((2 # 100) + (5 # 100))%Q).
  change (perTrack (PROCESSING_CONFIGS complete)) with (((2 # 100) + (5 # 100))%Q).
  change (audioFeaturesTime (PROCESSING_CONFIGS quick)) with (inject_Z 200 * (2 # 100))%Q.
  change (audioFeaturesTime (PROCESSING_CONFIGS standard))
    with (inject_Z 500 * (2 # 100))%Q.
  change (audioFeaturesTime (PROCESSING_CONFIGS comprehensive))
    with (inject_Z 500 * (2 # 100))%Q.
  change (audioFeaturesTime (PROCESSING_CONFIGS complete))
    with (inject_Z 500 * (2 # 100))%Q.
  change (inject_Z 200) with (200 # 1)%Q. change (inject_Z 500) with (500 # 1)%Q.
  repeat split; lra.
Qed.

Lemma warningLevelOf_mono (a b : Q) :
  (a <= b)%Q -> (levelRank (warningLevelOf a) <= levelRank (warningLevelOf b))%nat.
Proof.
  intros Hab. rewrite !warningLevelOf_spec. unfold spec_warningLevel.
  destruct (Qle_bool a 60) eqn:Ea60; [simpl; lia|].
  assert (Hb60 : Qle_bool b 60 = false).
  { destruct (Qle_bool b 60) eqn:E; [|reflexivity].
    apply Qle_bool_iff in E.
    assert (Ha : (a <= 60)%Q) by lra. apply Qle_bool_iff in Ha. congruence. }
  rewrite Hb60. destruct (Qle_bool a 180) eqn:Ea180.
  - destruct (Qle_bool b 180); simpl; lia.
  - assert (Hb180 : Qle_bool b 180 = false).
    { destruct (Qle_bool b 180) eqn:E; [|reflexivity].
      apply Qle_bool_iff in E.
      assert (Ha : (a <= 180)%Q) by lra. apply Qle_bool_iff in Ha. congruence. }
    rewrite Hb180. simpl. lia.
Qed.

Lemma estimateProcessingTime_modes sources sizes :
  Sorted Z.le (map (fun mode => estimatedSeconds
                                  (estimateProcessingTime sources mode sizes))
                 allModes).
Proof.
  pose proof (estimatedSecondsRaw_modes sources sizes) as (H1 & H2 & H3).
  unfold estimateProcessingTime. cbn [map allModes estimatedSeconds].
  repeat constructor; now apply Qceiling_resp_le.
Qed.


Example estimateProcessingTime_modes_sample :
  map (fun mode =>
         estimatedSeconds
           (estimateProcessingTime
              {| useLikedSongs := true; useTopTracks := true;
                 useRecommendations := true; playlists := ["p1"; "p2"] |}
              mode (<["p1" := 4000%N]> ∅)))
    allModes
  = [25; 33; 39; 312].
Proof. vm_compute. reflexivity. Qed.

(** ** POST /estimate-processing *)

Lemma estimateReply_sound (sources : PlaylistSources) (processingMode : ProcessingMode)
    (listed : list PlaylistInfo) (playlistSizes : gmap string N) :
  let selectedMode := modeEstimate sources playlistSizes processingMode in
  let availableModes := map (modeEstimate sources playlistSizes) allModes in
  In selectedMode availableModes
  /\ map me_mode availableModes = allModes
  /\ Sorted Z.le (map me_estimatedSeconds availableModes)
  /\ Forall (fun m => me_estimatedTime m = formatTime (me_estimatedSeconds m))
       availableModes.
Proof.
  cbv zeta. split; [|split; [|split]].
  - destruct processingMode; simpl; auto.
  - reflexivity.
  - rewrite map_map. apply (estimateProcessingTime_modes sources playlistSizes).
  - repeat constructor.
Qed.

Lemma listed_sizes (items : list PlaylistItem) (playlistId : string) (n : N) :
  recordSizes (map summaryOf items) !! playlistId = Some n ->
  exists playlist,
    In playlist (map playlistInfo items)
    /\ info_id playlist = playlistId
    /\ info_trackCount playlist = n.
Proof.
  intros H. apply recordSizes_lookup in H as (_ & _ & summary & Hin & Hid & Hn).
  apply list_elem_of_fmap in Hin as (item & -> & Hin).
  exists (playlistInfo item). split.
  - apply in_map. now apply list_elem_of_In.
  - cbn [playlistInfo info_id info_trackCount summaryOf summary_id summary_total] in *.
    split; [exact Hid | now rewrite Hn].
Qed.


Example estimateRoute_sample :
  exists listed playlistSizes selectedMode availableModes,
    result (perform sampleServer
              (estimateRoute
                 {| est_sources := Some {| useLikedSongs := false;
                                           useTopTracks := false;
                                           useRecommendations := false;
                                           playlists := ["p1"] |};
                    est_processingMode := None;
                    est_accessToken := Some "token" |}) 0)
    = Returned {| reply_status := 200;
                  reply_body := EstimateOk listed playlistSizes selectedMode
                                  availableModes |}
    /\ map info_trackCount listed = [120%N]
    /\ playlistSizes !! "p1" = Some 120%N
    /\ me_estimatedTime selectedMode = "18 seconds"
    /\ map me_estimatedTime availableModes
       = ["11 seconds"; "18 seconds"; "22 seconds"; "24 seconds"].
Proof. do 4 eexists. split; [reflexivity|]. repeat split; vm_compute; reflexivity. Qed.
